(** * Brute-force password search: keyspace, serial search, partitions

    A shallow embedding of the C sources

      - [serial_password_hash.c]
      - [openmp/openmp_password_hash.c]
      - [mpi/mpi_password_hash.c]
      - [cuda/cuda_password_hash.cu]

    Conventions.  [unsigned long long] values are integers in [0, 2^64)
    and every arithmetic result is reduced with [wrap64]; [unsigned int]
    values use [wrap32].  A [char] array is a [list ascii] whose length is
    the declared array size; a store or load outside the array is
    undefined behaviour in C and is [None] here.  MD5 itself comes from
    OpenSSL and is a parameter of the development. *)

From Stdlib Require Import ZArith Ascii String Strings.Byte Lia.
From stdpp Require Import base tactics option list numbers gmap.

Local Open Scope Z_scope.

(** ** Configuration (the [#define]s shared by the four programs) *)

Definition NUL : ascii := Ascii.zero.

(** The string literal [CHARSET]; reading index 26 of the literal yields
    its terminator, which is what [nth] returns by default below. *)
Definition CHARSET : list ascii :=
  list_ascii_of_string "abcdefghijklmnopqrstuvwxyz".
Definition CHARSET_SIZE : Z := 26.
Definition MAX_PASSWORD_LENGTH : Z := 10.
Definition MD5_DIGEST_LENGTH : Z := 16.

(** ** Machine integers *)

Definition wrap64 (z : Z) : Z := z `mod` 2 ^ 64.
Definition wrap32 (z : Z) : Z := z `mod` 2 ^ 32.

(** ** Character arrays *)

(** [a[i] = c] on an array [a]; [None] when [i] is outside the array. *)
Definition store (a : list ascii) (i : Z) (c : ascii) : option (list ascii) :=
  if bool_decide (0 ≤ i < Z.of_nat (length a))
  then Some (<[Z.to_nat i := c]> a)
  else None.

(** The C string held in an array: the characters before the first
    terminator.  [None] when the array holds no terminator, because
    [strlen] or [printf("%s")] would then read past its end. *)
Fixpoint cstring (a : list ascii) : option (list ascii) :=
  match a with
  | [] => None
  | c :: a' =>
      if bool_decide (c = NUL) then Some []
      else s ← cstring a'; Some (c :: s)
  end.

(** ** Keyspace model *)

(** [CHARSET[k]] *)
Definition charset_at (k : Z) : ascii := nth (Z.to_nat k) CHARSET NUL.

(** The [for (int i = length - 1; i >= 0; i--)] loop of
    [number_to_password]; [n] is [i + 1]. *)
Fixpoint number_to_password_loop (n : nat) (num : Z) (password : list ascii)
  : option (list ascii) :=
  match n with
  | O => Some password
  | S i =>
      password' ← store password (Z.of_nat i) (charset_at (num `mod` CHARSET_SIZE));
      number_to_password_loop i (num `div` CHARSET_SIZE) password'
  end.

(** [void number_to_password(unsigned long long num, char* password, int length)]:
    the array after the call. *)
Definition number_to_password (num : Z) (password : list ascii) (len : Z)
  : option (list ascii) :=
  password' ← number_to_password_loop (Z.to_nat len) num password;
  store password' len NUL.

(** The [for (int i = 0; i < length; i++) total *= CHARSET_SIZE;] loop. *)
Fixpoint calculate_combinations_loop (n : nat) (total : Z) : Z :=
  match n with
  | O => total
  | S n' => calculate_combinations_loop n' (wrap64 (total * CHARSET_SIZE))
  end.

(** [unsigned long long calculate_combinations(int length)] *)
Definition calculate_combinations (len : Z) : Z :=
  calculate_combinations_loop (Z.to_nat len) 1.

(** The index-to-candidate map in the words of the specification:
    repeated divmod by the alphabet size, digits filled from the least
    significant (rightmost) character to the most significant. *)
Fixpoint decode_rev (n : nat) (index : Z) : list ascii :=
  match n with
  | O => []
  | S n' => charset_at (index `mod` CHARSET_SIZE) :: decode_rev n' (index `div` CHARSET_SIZE)
  end.

Definition decode (index : Z) (len : nat) : list ascii := rev (decode_rev len index).

(** ** Outcomes of a C function *)

(** A call either returns, or runs into undefined behaviour (an access
    outside an array), or is cut off by the fuel of the model. *)
Inductive outcome (A : Type) : Type :=
  | Returns (a : A)
  | Undefined
  | OutOfFuel.
Arguments Returns {A} a.
Arguments Undefined {A}.
Arguments OutOfFuel {A}.

#[global] Instance outcome_ret : MRet outcome := @Returns.
#[global] Instance outcome_bind : MBind outcome := λ A B f m,
  match m with
  | Returns a => f a
  | Undefined => Undefined
  | OutOfFuel => OutOfFuel
  end.

Definition defined {A} (o : option A) : outcome A :=
  match o with Some a => Returns a | None => Undefined end.

(** ** The fingerprint oracle *)

(** OpenSSL's [MD5(data, n, md)] writes [MD5_DIGEST_LENGTH] bytes. *)
Class MD5_oracle := {
  MD5 : list ascii → list byte;
  MD5_length : ∀ m, Z.of_nat (length (MD5 m)) = MD5_DIGEST_LENGTH
}.

(** [memcmp(s1, s2, n)]; only the comparison of its result with zero is
    used by the programs.  [None] when an array is shorter than [n]. *)
Fixpoint memcmp (s1 s2 : list byte) (n : nat) {struct n} : option Z :=
  match n with
  | O => Some 0
  | S n' =>
      match s1, s2 with
      | c1 :: s1', c2 :: s2' =>
          let d := Z.of_N (Byte.to_N c1) - Z.of_N (Byte.to_N c2) in
          if bool_decide (d = 0) then memcmp s1' s2' n' else Some d
      | _, _ => None
      end
  end.

(** [void generate_hash(const char* password, unsigned char* hash)]: the
    contents of [hash] after the call. *)
Definition generate_hash `{MD5_oracle} (password : list ascii) : option (list byte) :=
  s ← cstring password; Some (MD5 s).

(** ** Serial search *)

(** What [crack_password_serial] hands back: its return value, the
    attempt counter it prints, and the guess it prints when found. *)
Record search_report := {
  ret : Z;
  attempts : Z;
  password : option (list ascii)
}.

(** The [for (unsigned long long i = 0; i < total_combinations; i++)]
    loop of [crack_password_serial]. *)
Fixpoint serial_loop `{MD5_oracle} (fuel : nat) (total_combinations : Z)
    (target_hash : list byte) (password_length : Z)
    (i attempts : Z) (guess : list ascii) : outcome search_report :=
  match fuel with
  | O => OutOfFuel
  | S fuel' =>
      if bool_decide (i < total_combinations) then
        guess ← defined (number_to_password i guess password_length);
        let attempts := wrap64 (attempts + 1) in
        guess_hash ← defined (generate_hash guess);
        d ← defined (memcmp guess_hash target_hash (Z.to_nat MD5_DIGEST_LENGTH));
        if bool_decide (d = 0) then
          printed ← defined (cstring guess);
          mret {| ret := 1; attempts := attempts; password := Some printed |}
        else
          serial_loop fuel' total_combinations target_hash password_length
            (wrap64 (i + 1)) attempts guess
      else
        mret {| ret := 0; attempts := attempts; password := None |}
  end.

(** The array a declaration [char a[n];] creates: [n] cells holding
    whatever [junk] the stack held. *)
Definition char_array (n : Z) (junk : list ascii) : list ascii :=
  resize (Z.to_nat n) NUL junk.

(** [int crack_password_serial(const char* target_password, int password_length)].
    Its local [guess] is declared [char guess[MAX_PASSWORD_LENGTH]]. *)
Definition crack_password_serial `{MD5_oracle} (junk : list ascii)
    (target_password : list ascii) (password_length : Z) : outcome search_report :=
  let total_combinations := calculate_combinations password_length in
  let guess := char_array MAX_PASSWORD_LENGTH junk in
  target_hash ← defined (generate_hash target_password);
  serial_loop (S (Z.to_nat total_combinations)) total_combinations
    target_hash password_length 0 0 guess.

(** ** Entry points *)

(** [a[i]] as an rvalue; [None] outside the array. *)
Definition load (a : list ascii) (i : Z) : option ascii :=
  if bool_decide (0 ≤ i) then a !! Z.to_nat i else None.

(** Storing a word and its terminator from index [i] on. *)
Fixpoint store_string (a : list ascii) (i : Z) (word : list ascii) : option (list ascii) :=
  match word with
  | [] => store a i NUL
  | ch :: word' => a' ← store a i ch; store_string a' (i + 1) word'
  end.

(** [scanf("%s", a)], given the next whitespace-delimited word of the
    standard input: the conversion has no field width, so the word and
    its terminator are stored whatever the size of [a]. *)
Definition scanf_word (word : list ascii) (a : list ascii) : option (list ascii) :=
  store_string a 0 word.

(** The value of a [char] in a comparison ([char] is signed on the
    targets of the programs; with an unsigned [char] the bytes above 127
    compare greater than ['z'] instead of less than ['a']). *)
Definition char_value (ch : ascii) : Z :=
  let n := Z.of_N (N_of_ascii ch) in
  if bool_decide (n < 128) then n else n - 256.

(** The validation loop of the entry points:
    [for (int i = 0; i < length; i++)
       if (password[i] < 'a' || password[i] > 'z') return 1;]
    [true] when the loop runs to its end. *)
Fixpoint only_lowercase (n : nat) (i : Z) (password : list ascii) : option bool :=
  match n with
  | O => Some true
  | S n' =>
      ch ← load password i;
      if bool_decide (char_value ch < char_value "a" ∨ char_value ch > char_value "z")
      then Some false
      else only_lowercase n' (i + 1) password
  end.

(** What an entry point does: the exit code of [main], and the arguments
    of the search it started, if it started one. *)
Record main_report := {
  exit_code : Z;
  searched : option (list ascii * Z)
}.

(** [strlen(password)], converted to [int]. *)
Definition strlen (a : list ascii) : option Z :=
  s ← cstring a; Some (Z.of_nat (length s)).

(** [main] of [serial_password_hash.c]; [word] is the word typed at the
    prompt. *)
Definition serial_main `{MD5_oracle} (junk junk' : list ascii) (word : list ascii)
  : outcome main_report :=
  let password := char_array (MAX_PASSWORD_LENGTH + 1) junk in
  password ← defined (scanf_word word password);
  len ← defined (strlen password);
  if bool_decide (len > MAX_PASSWORD_LENGTH) then
    mret {| exit_code := 1; searched := None |}
  else
    ok ← defined (only_lowercase (Z.to_nat len) 0 password);
    if negb ok then mret {| exit_code := 1; searched := None |}
    else
      _ ← crack_password_serial junk' password len;
      mret {| exit_code := 0; searched := Some (password, len) |}.

(** [main] of [openmp/openmp_password_hash.c], up to its call of
    [crack_password_parallel]. *)
Definition openmp_main (junk : list ascii) (word : list ascii) : outcome main_report :=
  let password := char_array (MAX_PASSWORD_LENGTH + 1) junk in
  password ← defined (scanf_word word password);
  len ← defined (strlen password);
  if bool_decide (len > MAX_PASSWORD_LENGTH) then
    mret {| exit_code := 1; searched := None |}
  else
    ok ← defined (only_lowercase (Z.to_nat len) 0 password);
    if negb ok then mret {| exit_code := 1; searched := None |}
    else mret {| exit_code := 0; searched := Some (password, len) |}.

(** [main] of [cuda/cuda_password_hash.cu], up to its call of
    [crack_password_cuda]. *)
Definition cuda_main (junk : list ascii) (word : list ascii) : outcome main_report :=
  let password := char_array (MAX_PASSWORD_LENGTH + 1) junk in
  password ← defined (scanf_word word password);
  len ← defined (strlen password);
  if bool_decide (len > MAX_PASSWORD_LENGTH) then
    mret {| exit_code := 1; searched := None |}
  else if bool_decide (len = 0) then
    mret {| exit_code := 1; searched := None |}
  else
    ok ← defined (only_lowercase (Z.to_nat len) 0 password);
    if negb ok then mret {| exit_code := 1; searched := None |}
    else mret {| exit_code := 0; searched := Some (password, len) |}.

(** [main] of [mpi/mpi_password_hash.c] on any rank, up to its call of
    [mpi_crack]: rank 0 reads the word and broadcasts the array, every
    rank takes [strlen] of it and searches. *)
Definition mpi_main (junk : list ascii) (word : list ascii) : outcome main_report :=
  let password := char_array (MAX_PASSWORD_LENGTH + 1) junk in
  password ← defined (scanf_word word password);
  len ← defined (strlen password);
  mret {| exit_code := 0; searched := Some (password, len) |}.

(** ** Work partitions *)

(** The indices the loop header of [mpi_crack] hands to a rank:
    [for (unsigned long long i = rank; i < total; i += world_size)]. *)
Fixpoint mpi_indices (fuel : nat) (total world_size i : Z) : list Z :=
  match fuel with
  | O => []
  | S fuel' =>
      if bool_decide (i < total)
      then i :: mpi_indices fuel' total world_size (wrap64 (i + world_size))
      else []
  end.

Definition mpi_partition (total world_size rank : Z) : list Z :=
  mpi_indices (Z.to_nat total) total world_size rank.

(** [blockIdx.x * blockDim.x + threadIdx.x], computed in [unsigned int]. *)
Definition thread_id (blockIdx blockDim threadIdx : Z) : Z :=
  wrap32 (blockIdx * blockDim + threadIdx).

(** The candidate loop of [crack_password_kernel] with the termination
    flag left unset: the values [current_index] takes. *)
Fixpoint kernel_loop (n : nat) (i my_start total_combinations : Z) : list Z :=
  match n with
  | O => []
  | S n' =>
      let current_index := wrap64 (my_start + i) in
      if bool_decide (current_index >= total_combinations) then []
      else current_index :: kernel_loop n' (wrap64 (i + 1)) my_start total_combinations
  end.

(** The indices one thread of [crack_password_kernel] is given. *)
Definition kernel_indices (start_index passwords_per_thread total_combinations : Z)
    (thread : Z) : list Z :=
  let my_start := wrap64 (start_index + wrap64 (thread * passwords_per_thread)) in
  if bool_decide (my_start >= total_combinations) then []
  else kernel_loop (Z.to_nat passwords_per_thread) 0 my_start total_combinations.

(** The threads of a launch [<<<blocks, threads_per_block>>>]. *)
Definition launch_threads (blocks threads_per_block : Z) : list Z :=
  b ← seqZ 0 blocks; t ← seqZ 0 threads_per_block; [thread_id b threads_per_block t].

(** Conversion of an [unsigned long long] to [int]. *)
Definition to_int (z : Z) : Z :=
  let w := wrap32 z in if bool_decide (w < 2 ^ 31) then w else w - 2 ^ 32.

Definition passwords_per_thread : Z := 100.

(** The grid size [crack_password_cuda] launches with. *)
Definition cuda_blocks (total_combinations threads_per_block num_blocks : Z) : Z :=
  if bool_decide (num_blocks > 0) then num_blocks
  else
    let threads_needed :=
      wrap64 (wrap64 (total_combinations + passwords_per_thread) - 1) `div` passwords_per_thread in
    to_int (wrap64 (wrap64 (threads_needed + threads_per_block) - 1) `div` wrap64 threads_per_block).

(** The partitions of a run of [crack_password_cuda]: one list of
    indices per launched thread. *)
Definition cuda_partitions (password_length threads_per_block num_blocks : Z) : list (list Z) :=
  let total_combinations := calculate_combinations password_length in
  let blocks := cuda_blocks total_combinations threads_per_block num_blocks in
  kernel_indices 0 passwords_per_thread total_combinations
    <$> launch_threads blocks threads_per_block.

(** ** Progress collection on rank 0 *)

(** The pending [PROGRESS_TAG] messages of rank 0: for each source rank,
    the counts it sent and rank 0 has not received yet, oldest first. *)
Abbreviation mailbox := (gmap Z (list Z)).

(** [for (int p = 1; p < world_size; p++)] with its
    [MPI_Iprobe]/[MPI_Recv] pair; [n] counts the ranks left to probe. *)
Fixpoint collect_progress_loop (n : nat) (p : Z) (mail : mailbox) (total_progress : Z)
  : Z * mailbox :=
  match n with
  | O => (total_progress, mail)
  | S n' =>
      match mail !! p with
      | Some (worker_count :: rest) =>
          collect_progress_loop n' (p + 1) (<[p := rest]> mail)
            (wrap64 (total_progress + worker_count))
      | _ => collect_progress_loop n' (p + 1) mail total_progress
      end
  end.

(** One collection round of rank 0 in [mpi_crack]: the figure it prints
    and the messages left pending. *)
Definition collect_progress (world_size counter : Z) (mail : mailbox) : Z * mailbox :=
  collect_progress_loop (Z.to_nat (world_size - 1)) 1 mail counter.

(** ** Hexadecimal display *)

Definition HEX_DIGITS : list ascii := list_ascii_of_string "0123456789abcdef".

Definition hex_digit (k : Z) : ascii := nth (Z.to_nat k) HEX_DIGITS NUL.

(** The value of an [unsigned char]. *)
Definition byte_value (b : byte) : Z := Z.of_N (Byte.to_N b).

(** [sprintf(output + offset, "%02x", value)] for a value below 256: two
    digits and the terminator [sprintf] always appends. *)
Definition sprintf_02x (output : list ascii) (offset value : Z) : option (list ascii) :=
  output ← store output offset (hex_digit (value `div` 16));
  output ← store output (offset + 1) (hex_digit (value `mod` 16));
  store output (offset + 2) NUL.

(** The [for (int i = 0; i < MD5_DIGEST_LENGTH; i++)] loop of
    [hash_to_hex] in the serial and OpenMP programs. *)
Fixpoint hash_to_hex_loop (n : nat) (i : Z) (hash : list byte) (output : list ascii)
  : option (list ascii) :=
  match n with
  | O => Some output
  | S n' =>
      b ← hash !! Z.to_nat i;
      output ← sprintf_02x output (i * 2) (byte_value b);
      hash_to_hex_loop n' (i + 1) hash output
  end.

(** [void hash_to_hex(unsigned char* hash, char* output)] *)
Definition hash_to_hex (hash : list byte) (output : list ascii) : option (list ascii) :=
  output ← hash_to_hex_loop (Z.to_nat MD5_DIGEST_LENGTH) 0 hash output;
  store output (MD5_DIGEST_LENGTH * 2) NUL.

(** ** The CUDA program: target hash, MD5 input block, kernel thread *)

(** The [for (int i = 0; i < 4; i++)] loop of [compute_target_hash]:
    four digest bytes are packed into each [unsigned int]. *)
Fixpoint compute_target_hash_loop (n : nat) (i : Z) (hash_bytes : list byte) : option (list Z) :=
  match n with
  | O => Some []
  | S n' =>
      b0 ← hash_bytes !! Z.to_nat (i * 4 + 0);
      b1 ← hash_bytes !! Z.to_nat (i * 4 + 1);
      b2 ← hash_bytes !! Z.to_nat (i * 4 + 2);
      b3 ← hash_bytes !! Z.to_nat (i * 4 + 3);
      rest ← compute_target_hash_loop n' (i + 1) hash_bytes;
      Some (wrap32 (Z.lor (Z.lor (Z.lor (byte_value b0) (Z.shiftl (byte_value b1) 8))
                                 (Z.shiftl (byte_value b2) 16))
                          (Z.shiftl (byte_value b3) 24))
            :: rest)
  end.

(** [void compute_target_hash(const char* password, unsigned int* hash)]:
    the four words of [hash] after the call. *)
Definition compute_target_hash `{MD5_oracle} (password : list ascii) : option (list Z) :=
  s ← cstring password;
  compute_target_hash_loop 4 0 (MD5 s).

(** Byte [i] of an [unsigned int] array read through an [unsigned char]
    pointer, as a little-endian host lays the array out. *)
Definition word_array_byte (hash : list Z) (i : Z) : option Z :=
  w ← hash !! Z.to_nat (i `div` 4);
  Some ((w `div` 2 ^ (8 * (i `mod` 4))) `mod` 256).

(** The loop of [hash_to_hex] in the CUDA program. *)
Fixpoint cuda_hash_to_hex_loop (n : nat) (i : Z) (hash : list Z) (hex_string : list ascii)
  : option (list ascii) :=
  match n with
  | O => Some hex_string
  | S n' =>
      b ← word_array_byte hash i;
      hex_string ← sprintf_02x hex_string (i * 2) b;
      cuda_hash_to_hex_loop n' (i + 1) hash hex_string
  end.

(** [void hash_to_hex(unsigned int* hash, char* hex_string)] of the CUDA
    program. *)
Definition cuda_hash_to_hex (hash : list Z) (hex_string : list ascii) : option (list ascii) :=
  hex_string ← cuda_hash_to_hex_loop 16 0 hash hex_string;
  store hex_string 32 NUL.

(** [buffer[i] = w] and [buffer[i]] on an [unsigned int] array. *)
Definition store_word (buffer : list Z) (i w : Z) : option (list Z) :=
  if bool_decide (0 ≤ i < Z.of_nat (length buffer))
  then Some (<[Z.to_nat i := w]> buffer)
  else None.

Definition load_word (buffer : list Z) (i : Z) : option Z :=
  if bool_decide (0 ≤ i) then buffer !! Z.to_nat i else None.

(** [x << s] on [unsigned int]; a shift count outside 0..31 is undefined. *)
Definition shl32 (x s : Z) : option Z :=
  if bool_decide (0 ≤ s < 32) then Some (wrap32 (Z.shiftl x s)) else None.

(** [for (int i = 0; i < 16; i++) buffer[i] = 0;] *)
Fixpoint clear_loop (n : nat) (i : Z) (buffer : list Z) : option (list Z) :=
  match n with
  | O => Some buffer
  | S n' => buffer ← store_word buffer i 0; clear_loop n' (i + 1) buffer
  end.

(** The copy loop of [prepare_md5_input]:
    [buffer[i / 4] |= ((unsigned int)password[i]) << ((i % 4) * 8)]. *)
Fixpoint copy_loop (n : nat) (i : Z) (password : list ascii) (buffer : list Z)
  : option (list Z) :=
  match n with
  | O => Some buffer
  | S n' =>
      let word_index := i `quot` 4 in
      let byte_index := i `rem` 4 in
      ch ← load password i;
      old ← load_word buffer word_index;
      shifted ← shl32 (wrap32 (char_value ch)) (byte_index * 8);
      buffer ← store_word buffer word_index (Z.lor old shifted);
      copy_loop n' (i + 1) password buffer
  end.

(** [void prepare_md5_input(const char* password, int length, unsigned int* buffer)]:
    the sixteen words of [buffer] after the call. *)
Definition prepare_md5_input (password : list ascii) (len : Z) (buffer : list Z)
  : option (list Z) :=
  buffer ← clear_loop 16 0 buffer;
  buffer ← copy_loop (Z.to_nat len) 0 password buffer;
  let word_index := len `quot` 4 in
  let byte_index := len `rem` 4 in
  old ← load_word buffer word_index;
  shifted ← shl32 128 (byte_index * 8);
  buffer ← store_word buffer word_index (Z.lor old shifted);
  buffer ← store_word buffer 14 (wrap32 (len * 8));
  store_word buffer 15 0.

(** [md5_cuda(input, output)] lives in [md5_device.cuh]; it writes the
    four words of the digest of one 512-bit block. *)
Class MD5_device := {
  md5_cuda : list Z → list Z;
  md5_cuda_length : ∀ block, length (md5_cuda block) = 4%nat
}.

(** The device memory [crack_password_cuda] allocates for the result. *)
Record device_memory := {
  found_flag : Z;
  result_password : list ascii;
  found_at_index : Z
}.

(** [computed_hash[0] == target_hash[0] && ... && computed_hash[3] == target_hash[3]],
    with the short circuit of [&&]; [i] is the first word compared. *)
Fixpoint hash_words_equal (n : nat) (i : Z) (computed_hash target_hash : list Z)
  : option bool :=
  match n with
  | O => Some true
  | S n' =>
      c ← load_word computed_hash i;
      t ← load_word target_hash i;
      if bool_decide (c = t) then hash_words_equal n' (i + 1) computed_hash target_hash
      else Some false
  end.

(** [for (int j = 0; j <= password_length; j++) result_password[j] = password[j];] *)
Fixpoint copy_result_loop (n : nat) (j : Z) (password result_password : list ascii)
  : option (list ascii) :=
  match n with
  | O => Some result_password
  | S n' =>
      ch ← load password j;
      result_password ← store result_password j ch;
      copy_result_loop n' (j + 1) password result_password
  end.

(** [index_to_password] of the CUDA program has the body of
    [number_to_password]. *)
Definition index_to_password (index : Z) (password : list ascii) (len : Z)
  : option (list ascii) :=
  number_to_password index password len.

(** The candidate loop of one thread of [crack_password_kernel], run
    without any other thread writing the device memory meanwhile;
    [atomicCAS(found_flag, 0, 1)] returns the old flag and sets it when it
    was 0. *)
Fixpoint kernel_thread_loop `{MD5_device} (n : nat) (i my_start password_length : Z)
    (target_hash : list Z) (total_combinations : Z)
    (password : list ascii) (md5_input : list Z) (mem : device_memory)
  : option device_memory :=
  match n with
  | O => Some mem
  | S n' =>
      if bool_decide (found_flag mem ≠ 0) then Some mem
      else
        let current_index := wrap64 (my_start + i) in
        if bool_decide (current_index >= total_combinations) then Some mem
        else
          password ← index_to_password current_index password password_length;
          md5_input ← prepare_md5_input password password_length md5_input;
          let computed_hash := md5_cuda md5_input in
          same ← hash_words_equal 4 0 computed_hash target_hash;
          if (same : bool) then
            let old := found_flag mem in
            let flag := if bool_decide (old = 0) then 1 else old in
            if bool_decide (old = 0) then
              result ← copy_result_loop (Z.to_nat (password_length + 1)) 0 password
                         (result_password mem);
              Some {| found_flag := flag; result_password := result;
                      found_at_index := current_index |}
            else
              Some {| found_flag := flag; result_password := result_password mem;
                      found_at_index := found_at_index mem |}
          else
            kernel_thread_loop n' (wrap64 (i + 1)) my_start password_length
              target_hash total_combinations password md5_input mem
  end.

(** One thread of [crack_password_kernel]; [junk] and [junk_words] are
    what its local arrays [password[MAX_PASSWORD_LENGTH + 1]] and
    [md5_input[16]] hold at entry. *)
Definition crack_password_kernel `{MD5_device} (junk : list ascii) (junk_words : list Z)
    (start_index per_thread password_length : Z) (target_hash : list Z)
    (mem : device_memory) (total_combinations thread : Z) : option device_memory :=
  let my_start := wrap64 (start_index + wrap64 (thread * per_thread)) in
  if bool_decide (my_start >= total_combinations) then Some mem
  else
    let password := char_array (MAX_PASSWORD_LENGTH + 1) junk in
    let md5_input := resize 16 0 junk_words in
    kernel_thread_loop (Z.to_nat per_thread) 0 my_start password_length
      target_hash total_combinations password md5_input mem.

(** ** The MPI search of one rank *)

Definition check_interval : Z := 50000.

(** What the other ranks and the network do to a rank: whether
    [MPI_Iprobe(MPI_ANY_SOURCE, TERMINATE_TAG)] finds a message at the check
    made with a given counter, and the progress messages pending on rank 0
    at that check. *)
Record mpi_env := {
  terminate_probe : Z → bool;
  progress_mail : Z → mailbox
}.

(** The messages a rank sends and the lines it prints. *)
Inductive mpi_event :=
  | SendProgress (local_count : Z)
  | PrintProgress (total_progress : Z)
  | PrintFound (guess : list ascii)
  | SendTerminate (p : Z).

(** What [mpi_crack] hands back: its return value, its counter at that
    point, and what it sent and printed, in order. *)
Record mpi_report := {
  mpi_ret : Z;
  mpi_counter : Z;
  mpi_events : list mpi_event
}.

(** [for (int p = 0; p < world_size; p++) if (p != rank) MPI_Send(..., p, TERMINATE_TAG, ...);] *)
Fixpoint send_terminate_loop (n : nat) (p rank : Z) : list mpi_event :=
  match n with
  | O => []
  | S n' =>
      (if bool_decide (p ≠ rank) then [SendTerminate p] else [])
      ++ send_terminate_loop n' (p + 1) rank
  end.

(** The [for (unsigned long long i = rank; i < total; i += world_size)]
    loop of [mpi_crack]. *)
Fixpoint mpi_crack_loop `{MD5_oracle} (fuel : nat) (env : mpi_env)
    (target_hash : list byte) (len rank world_size total : Z)
    (i counter : Z) (guess : list ascii) (events : list mpi_event)
  : outcome mpi_report :=
  match fuel with
  | O => OutOfFuel
  | S fuel' =>
      if bool_decide (i < total) then
        let counter := wrap64 (counter + 1) in
        let check := bool_decide (counter `mod` check_interval = 0) in
        if check && terminate_probe env counter then
          Returns {| mpi_ret := 0; mpi_counter := counter; mpi_events := events |}
        else
          let events :=
            if check && bool_decide (rank ≠ 0)
            then events ++ [SendProgress counter] else events in
          let events :=
            if bool_decide (rank = 0) && check
            then events ++ [PrintProgress
                              (collect_progress world_size counter
                                 (progress_mail env counter)).1]
            else events in
          guess ← defined (number_to_password i guess len);
          guess_hash ← defined (generate_hash guess);
          d ← defined (memcmp guess_hash target_hash (Z.to_nat MD5_DIGEST_LENGTH));
          if bool_decide (d = 0) then
            printed ← defined (cstring guess);
            Returns {| mpi_ret := 1; mpi_counter := counter;
                    mpi_events := events ++ PrintFound printed
                                  :: send_terminate_loop (Z.to_nat world_size) 0 rank |}
          else
            mpi_crack_loop fuel' env target_hash len rank world_size total
              (wrap64 (i + world_size)) counter guess events
      else
        Returns {| mpi_ret := 0; mpi_counter := counter; mpi_events := events |}
  end.

(** [int mpi_crack(const unsigned char *target_hash, int length, int rank, int world_size)] *)
Definition mpi_crack `{MD5_oracle} (env : mpi_env) (junk : list ascii)
    (target_hash : list byte) (len rank world_size : Z) : outcome mpi_report :=
  let total := calculate_combinations len in
  let guess := char_array (MAX_PASSWORD_LENGTH + 1) junk in
  mpi_crack_loop (S (Z.to_nat total)) env target_hash len rank world_size total
    rank 0 guess [].

(** ** Auxiliary notions used in the statements *)

(** The position of a character in [CHARSET]. *)
Definition charset_index (ch : ascii) : Z := Z.of_N (N_of_ascii ch) - 97.

(** The index a candidate stands for, least significant character first. *)
Fixpoint encode_rev (s : list ascii) : Z :=
  match s with
  | [] => 0
  | ch :: s' => charset_index ch + CHARSET_SIZE * encode_rev s'
  end.

Definition encode (s : list ascii) : Z := encode_rev (rev s).

(** Candidate [k] of length [len] has a fingerprint that [memcmp]
    finds equal to the target. *)
Definition matches `{MD5_oracle} (target_hash : list byte) (len : Z) (k : Z) : Prop :=
  memcmp (MD5 (decode k (Z.to_nat len))) target_hash (Z.to_nat MD5_DIGEST_LENGTH) = Some 0.

#[global] Instance matches_dec `{MD5_oracle} (target_hash : list byte) (len k : Z) :
  Decision (matches target_hash len k).
Proof. unfold matches. apply _. Defined.

(** The test the validation loops apply to one character, negated. *)
Definition lowercase (ch : ascii) : bool :=
  negb (bool_decide (char_value ch < char_value "a" ∨ char_value ch > char_value "z")).

(** The outcome of an entry point that turns its input down. *)
Definition rejected : outcome main_report :=
  Returns {| exit_code := 1; searched := None |}.

(** The oldest pending report of rank [p], or zero when it has none. *)
Definition pending (mail : mailbox) (p : Z) : Z :=
  match mail !! p with
  | Some (worker_count :: _) => worker_count
  | _ => 0
  end.

Definition Zsum (l : list Z) : Z := foldr Z.add 0 l.

Definition str (s : string) : list ascii := list_ascii_of_string s.

(** A toy oracle for running the model: the digest is the length of the
    message followed by fifteen copies of its first byte. *)
Definition toy_digest (m : list ascii) : list byte :=
  default x00 (Byte.of_N (N.of_nat (length m) `mod` 256))
  :: replicate 15 (match m with [] => x00 | ch :: _ => byte_of_ascii ch end).

Definition toy_MD5 : MD5_oracle :=
  {| MD5 := toy_digest; MD5_length := λ m, eq_refl |}.

(** ** Further notions used in the statements *)

(** The two hexadecimal digits of each byte, high digit first. *)
Definition hex_of_bytes (hash : list byte) : list ascii :=
  hash ≫= λ b, [hex_digit (byte_value b `div` 16); hex_digit (byte_value b `mod` 16)].

(** The value of a hexadecimal digit. *)
Definition hex_value (ch : ascii) : Z :=
  let n := Z.of_N (N_of_ascii ch) in
  if bool_decide (n < 58) then n - 48 else n - 87.

(** Byte [j] of the first 512-bit block of RFC 1321 for a message of at
    most 55 bytes: the message, the byte 0x80, zeros up to byte 55, and
    the length in bits as a 64-bit little-endian number. *)
Definition md5_block_byte (message : list Z) (j : Z) : Z :=
  let len := Z.of_nat (length message) in
  if bool_decide (j < len) then nth (Z.to_nat j) message 0
  else if bool_decide (j = len) then 128
  else if bool_decide (j < 56) then 0
  else ((8 * len) `div` 2 ^ (8 * (j - 56))) `mod` 256.

(** Byte [j] of a block of which only the first [n] bytes are filled. *)
Definition partial_byte (message : list Z) (n j : Z) : Z :=
  if bool_decide (j < n) then nth (Z.to_nat j) message 0 else 0.

(** Word [w] of that block, its four bytes taken little-endian. *)
Definition partial_word (message : list Z) (n w : Z) : Z :=
  partial_byte message n (4 * w) + partial_byte message n (4 * w + 1) * 2 ^ 8
  + partial_byte message n (4 * w + 2) * 2 ^ 16
  + partial_byte message n (4 * w + 3) * 2 ^ 24.

(** The sixteen words of the first block of a short message: its bytes
    and the byte 0x80 packed four to a word, the length in bits in word
    14, zero in word 15. *)
Definition md5_block_words (message : list Z) : list Z :=
  let len := Z.of_nat (length message) in
  <[15%nat := 0]> (<[14%nat := len * 8]>
    (partial_word (message ++ [128]) (len + 1) <$> seqZ 0 16)).

(** The block the kernel hashes for candidate [k]. *)
Definition candidate_block (len k : Z) : list Z :=
  md5_block_words (char_value <$> decode k (Z.to_nat len)).

(** The device fingerprint of candidate [k] is the target. *)
Definition device_matches `{MD5_device} (target_hash : list Z) (len k : Z) : Prop :=
  md5_cuda (candidate_block len k) = target_hash.

#[global] Instance device_matches_dec `{MD5_device} (target_hash : list Z) (len k : Z) :
  Decision (device_matches target_hash len k).
Proof. unfold device_matches. apply _. Defined.

(** The device memory after a thread has recorded candidate [k]. *)
Definition recorded (mem : device_memory) (len k : Z) : device_memory :=
  {| found_flag := 1;
     result_password :=
       decode k (Z.to_nat len) ++ NUL :: drop (S (Z.to_nat len)) (result_password mem);
     found_at_index := k |}.

(** A toy device digest for running the model: the first four words of
    the block. *)
Definition toy_device : MD5_device :=
  {| md5_cuda := λ block, resize 4 0 block;
     md5_cuda_length := λ block, length_resize _ _ _ |}.

(** What a rank sends or prints at the check it makes with counter [c]. *)
Definition progress_event (env : mpi_env) (rank world_size c : Z) : list mpi_event :=
  if bool_decide (c `mod` check_interval = 0) then
    if bool_decide (rank ≠ 0) then [SendProgress c]
    else [PrintProgress (collect_progress world_size c (progress_mail env c)).1]
  else [].

(** The same for the counters [c0 + 1] to [c0 + n]. *)
Definition progress_events (env : mpi_env) (rank world_size c0 n : Z) : list mpi_event :=
  seqZ (c0 + 1) n ≫= progress_event env rank world_size.

(** The termination messages of a rank that has found the password. *)
Definition terminate_sends (rank world_size : Z) : list mpi_event :=
  SendTerminate <$> filter (λ p, p ≠ rank) (seqZ 0 world_size).

(** The number of indices the loop header of [mpi_crack] hands to a rank. *)
Definition partition_size (total world_size rank : Z) : Z :=
  (total - rank + world_size - 1) `div` world_size.

(** Progress reports among the events of a rank. *)
Definition is_report (e : mpi_event) : bool :=
  match e with
  | SendProgress _ | PrintProgress _ => true
  | PrintFound _ | SendTerminate _ => false
  end.

(** A network on which nothing ever arrives. *)
Definition silent : mpi_env :=
  {| terminate_probe := λ _, false; progress_mail := λ _, ∅ |}.

(** The array [scanf] leaves in [main] for a word that fits. *)
Definition typed (junk word : list ascii) : list ascii :=
  word ++ NUL :: drop (length word + 1) (char_array (MAX_PASSWORD_LENGTH + 1) junk).

(** The outcome of an entry point that goes on to search for the word. *)
Definition accepted (junk word : list ascii) : outcome main_report :=
  Returns {| exit_code := 0; searched := Some (typed junk word, Z.of_nat (length word)) |}.

(** A toy device digest that agrees with [toy_MD5] on the blocks of
    short messages: the length is read from the bit count in word 14 and
    the first byte from word 0. *)
Definition toy_host_device : MD5_device :=
  {| md5_cuda := λ block,
       let c := nth 0 block 0 `mod` 256 in
       let n := (nth 14 block 0 `div` 8) `mod` 256 in
       [n + c * 16843008; c * 16843009; c * 16843009; c * 16843009];
     md5_cuda_length := λ block, eq_refl |}.

Example number_to_password_26 :
  (number_to_password 26 (replicate 4 NUL) 3 ≫= cstring) = Some (str "aba"%string).
Proof. reflexivity. Qed.

(** The examples in the comment above [index_to_password]:
    0 -> "aaa", 1 -> "aab", 2 -> "aac", 26 -> "aba". *)
Example index_to_password_examples :
  (λ index, number_to_password index (replicate 11 NUL) 3 ≫= cstring) <$> [0; 1; 2; 26]
  = Some <$> [str "aaa"; str "aab"; str "aac"; str "aba"].
Proof. reflexivity. Qed.

Example calculate_combinations_4 : calculate_combinations 4 = 456976.
Proof. reflexivity. Qed.

Example crack_serial_toy :
  @crack_password_serial toy_MD5 [] (str "ca" ++ [NUL]) 2
  = Returns {| ret := 1; attempts := 53; password := Some (str "ca") |}.
Proof. vm_compute. reflexivity. Qed.


(** * Keyspace: [number_to_password] and [calculate_combinations] *)

Lemma store_Some (a : list ascii) (i : Z) (ch : ascii) :
  0 ≤ i < Z.of_nat (length a) → store a i ch = Some (<[Z.to_nat i := ch]> a).
Proof. intros Hi. unfold store. by rewrite bool_decide_true. Qed.

Lemma store_None (a : list ascii) (i : Z) (ch : ascii) :
  ¬ (0 ≤ i < Z.of_nat (length a)) → store a i ch = None.
Proof. intros Hi. unfold store. by rewrite bool_decide_false. Qed.

Lemma store_length (a a' : list ascii) (i : Z) (ch : ascii) :
  store a i ch = Some a' → length a' = length a.
Proof.
  unfold store. case_bool_decide; [|done].
  intros [= <-]. apply length_insert.
Qed.

Lemma decode_length (index : Z) (n : nat) : length (decode index n) = n.
Proof.
  unfold decode. rewrite length_rev.
  revert index. induction n as [|n IH]; intros index; simpl; [done|].
  by rewrite IH.
Qed.

Lemma decode_S (index : Z) (n : nat) :
  decode index (S n)
  = decode (index `div` CHARSET_SIZE) n ++ [charset_at (index `mod` CHARSET_SIZE)].
Proof. unfold decode. simpl. reflexivity. Qed.

Lemma number_to_password_loop_spec (n : nat) (num : Z) (a : list ascii) :
  (n ≤ length a)%nat →
  number_to_password_loop n num a = Some (decode num n ++ drop n a).
Proof.
  revert num a. induction n as [|i IH]; intros num a Hn.
  - simpl. by rewrite drop_0.
  - cbn [number_to_password_loop].
    rewrite store_Some by lia. simpl.
    rewrite IH by (rewrite length_insert; lia).
    rewrite decode_S, Nat2Z.id, <- app_assoc. do 2 f_equal.
    destruct (lookup_lt_is_Some_2 a i) as [x Hx]; [lia|].
    rewrite <- (take_drop_middle a i x Hx) at 1.
    rewrite insert_app_r_alt by (rewrite length_take; lia).
    rewrite length_take, Nat.min_l, Nat.sub_diag by lia. simpl.
    rewrite drop_app_length'; [done|]. rewrite length_take. lia.
Qed.

(** The array after [number_to_password]: the digits, the terminator,
    and the cells behind it untouched. *)
Lemma number_to_password_spec (num : Z) (a : list ascii) (len : Z) :
  0 ≤ len < Z.of_nat (length a) →
  number_to_password num a len
  = Some (decode num (Z.to_nat len) ++ NUL :: drop (S (Z.to_nat len)) a).
Proof.
  intros Hlen. unfold number_to_password.
  rewrite number_to_password_loop_spec by lia. simpl.
  assert (Hd : length (decode num (Z.to_nat len)) = Z.to_nat len) by apply decode_length.
  rewrite store_Some by (rewrite length_app, Hd, length_drop; lia).
  f_equal. rewrite insert_app_r_alt by lia.
  rewrite Hd, Nat.sub_diag. f_equal.
  destruct (drop (Z.to_nat len) a) as [|x l] eqn:Hdrop.
  - apply (f_equal length) in Hdrop. rewrite length_drop in Hdrop. simpl in Hdrop. lia.
  - simpl. f_equal.
    change (S (Z.to_nat len)) with (1 + Z.to_nat len)%nat.
    rewrite Nat.add_comm, <- drop_drop, Hdrop. reflexivity.
Qed.

(** Without room for the terminator the call leaves the array. *)
Lemma number_to_password_overrun (num : Z) (a : list ascii) (len : Z) :
  ¬ (0 ≤ len < Z.of_nat (length a)) → number_to_password num a len = None.
Proof.
  intros Hlen. unfold number_to_password.
  destruct (number_to_password_loop (Z.to_nat len) num a) as [a'|] eqn:Hloop; [|done].
  simpl. apply store_None.
  destruct (decide (len < 0)) as [|Hpos]; [lia|].
  destruct (decide (Z.to_nat len ≤ length a)%nat) as [Hle|Hgt].
  - rewrite number_to_password_loop_spec in Hloop by done.
    simplify_eq.
    rewrite length_app, decode_length, length_drop. lia.
  - exfalso. destruct (Z.to_nat len) as [|i] eqn:Hi; [simpl in Hgt; lia|].
    cbn [number_to_password_loop] in Hloop.
    rewrite store_None in Hloop by lia. done.
Qed.

Lemma charset_at_cases (k : Z) :
  0 ≤ k < CHARSET_SIZE → charset_at k ∈ CHARSET ∧ charset_at k ≠ NUL.
Proof.
  intros Hk. unfold CHARSET_SIZE in Hk.
  assert (Hc : (Z.to_nat k < 26)%nat) by lia.
  unfold charset_at. clear Hk. revert Hc. generalize (Z.to_nat k). intros n Hn.
  do 26 (destruct n as [|n]; [split; [set_solver | done]|]). lia.
Qed.

Lemma charset_index_at (k : Z) :
  0 ≤ k < CHARSET_SIZE → charset_index (charset_at k) = k.
Proof.
  intros Hk. unfold CHARSET_SIZE in Hk.
  rewrite <- (Z2Nat.id k) at 2 by lia.
  assert (Hc : (Z.to_nat k < 26)%nat) by lia.
  unfold charset_at. clear Hk. revert Hc. generalize (Z.to_nat k). intros n Hn.
  do 26 (destruct n as [|n]; [reflexivity|]). lia.
Qed.

Lemma charset_at_index (ch : ascii) :
  ch ∈ CHARSET → charset_at (charset_index ch) = ch ∧ 0 ≤ charset_index ch < CHARSET_SIZE.
Proof.
  unfold CHARSET. simpl. intros Hin.
  repeat (apply elem_of_cons in Hin as [->|Hin]; [by vm_compute|]).
  by apply elem_of_nil in Hin.
Qed.

Lemma decode_rev_charset (n : nat) (index : Z) :
  Forall (λ ch, ch ∈ CHARSET ∧ ch ≠ NUL) (decode_rev n index).
Proof.
  revert index. induction n as [|n IH]; intros index; simpl; constructor; [|done].
  apply charset_at_cases, Z.mod_pos_bound. done.
Qed.

Lemma decode_charset (index : Z) (n : nat) :
  Forall (λ ch, ch ∈ CHARSET ∧ ch ≠ NUL) (decode index n).
Proof. unfold decode. apply Forall_rev, decode_rev_charset. Qed.

Lemma cstring_app (s rest : list ascii) :
  Forall (λ ch, ch ≠ NUL) s → cstring (s ++ NUL :: rest) = Some s.
Proof.
  induction 1 as [|ch s Hch _ IH]; simpl.
  - reflexivity.
  - rewrite bool_decide_false by done. by rewrite IH.
Qed.

Lemma cstring_decode (index : Z) (n : nat) (rest : list ascii) :
  cstring (decode index n ++ NUL :: rest) = Some (decode index n).
Proof.
  apply cstring_app. eapply Forall_impl; [apply decode_charset|]. by intros ch [_ ?].
Qed.

Lemma encode_decode_rev (n : nat) (index : Z) :
  encode_rev (decode_rev n index) = index `mod` CHARSET_SIZE ^ Z.of_nat n.
Proof.
  revert index. induction n as [|n IH]; intros index.
  - simpl. by rewrite Z.mod_1_r.
  - cbn [decode_rev encode_rev].
    rewrite charset_index_at by (by apply Z.mod_pos_bound).
    rewrite IH, Nat2Z.inj_succ, Z.pow_succ_r by lia.
    rewrite Z.rem_mul_r by (unfold CHARSET_SIZE; lia). reflexivity.
Qed.

Lemma decode_encode_rev (s : list ascii) :
  Forall (λ ch, ch ∈ CHARSET) s →
  decode_rev (length s) (encode_rev s) = s
  ∧ 0 ≤ encode_rev s < CHARSET_SIZE ^ Z.of_nat (length s).
Proof.
  induction 1 as [|ch s Hch _ [IH1 IH2]].
  - split; [done|]. cbn [length encode_rev]. rewrite Z.pow_0_r. lia.
  - destruct (charset_at_index ch Hch) as [Hat Hidx].
    cbn [length decode_rev encode_rev].
    assert (Hm : (charset_index ch + CHARSET_SIZE * encode_rev s) `mod` CHARSET_SIZE
                 = charset_index ch).
    { rewrite Z.mul_comm, Z.mod_add by (unfold CHARSET_SIZE; lia).
      by apply Z.mod_small. }
    assert (Hq : (charset_index ch + CHARSET_SIZE * encode_rev s) `div` CHARSET_SIZE
                 = encode_rev s).
    { rewrite Z.mul_comm, Z.div_add by (unfold CHARSET_SIZE; lia).
      rewrite Z.div_small by done. lia. }
    rewrite Hm, Hq, Hat, IH1. split; [done|].
    rewrite Nat2Z.inj_succ, Z.pow_succ_r by lia.
    unfold CHARSET_SIZE in *. nia.
Qed.

Lemma decode_mod (index : Z) (n : nat) :
  decode (index `mod` CHARSET_SIZE ^ Z.of_nat n) n = decode index n.
Proof.
  unfold decode. f_equal. revert index. induction n as [|n IH]; intros index; [done|].
  cbn [decode_rev]. rewrite Nat2Z.inj_succ, Z.pow_succ_r by lia.
  rewrite Z.rem_mul_r by (unfold CHARSET_SIZE; lia).
  assert (H26 : CHARSET_SIZE ≠ 0) by done.
  rewrite (Z.mul_comm CHARSET_SIZE), Z.mod_add by done.
  rewrite Z.mod_mod by done.
  rewrite Z.div_add by done.
  rewrite (Z.div_small (index `mod` CHARSET_SIZE)) by (by apply Z.mod_pos_bound).
  rewrite Z.add_0_l, IH. reflexivity.
Qed.

Lemma decode_inj (i j : Z) (n : nat) :
  0 ≤ i < CHARSET_SIZE ^ Z.of_nat n → 0 ≤ j < CHARSET_SIZE ^ Z.of_nat n →
  decode i n = decode j n → i = j.
Proof.
  intros Hi Hj Heq. unfold decode in Heq.
  apply (f_equal (@rev ascii)) in Heq. rewrite !rev_involutive in Heq.
  apply (f_equal encode_rev) in Heq. rewrite !encode_decode_rev in Heq.
  by rewrite !Z.mod_small in Heq.
Qed.

Lemma decode_encode (s : list ascii) :
  Forall (λ ch, ch ∈ CHARSET) s →
  decode (encode s) (length s) = s ∧ 0 ≤ encode s < CHARSET_SIZE ^ Z.of_nat (length s).
Proof.
  intros Hs. unfold decode, encode.
  destruct (decode_encode_rev (rev s)) as [H1 H2]; [by apply Forall_rev|].
  rewrite length_rev in H1, H2. by rewrite H1, rev_involutive.
Qed.

(** Whenever the call stays inside the array, the string it leaves is
    the decoding of the index. *)
Lemma number_to_password_cstring (num : Z) (a a' : list ascii) (len : Z) :
  number_to_password num a len = Some a' →
  cstring a' = Some (decode num (Z.to_nat len)) ∧ length a' = length a
  ∧ 0 ≤ len < Z.of_nat (length a).
Proof.
  intros Hcall.
  destruct (decide (0 ≤ len < Z.of_nat (length a))) as [Hlen|Hlen].
  - rewrite number_to_password_spec in Hcall by done. simplify_eq.
    split; [apply cstring_decode|]. split; [|done].
    rewrite length_app, decode_length. cbn [length]. rewrite length_drop. lia.
  - by rewrite number_to_password_overrun in Hcall.
Qed.

(** C2.  For every length from 1 to [MAX_PASSWORD_LENGTH],
    [number_to_password] maps the indices below [26^length] one-to-one
    onto the strings of that length over the alphabet: every call with
    room for the terminator leaves a string of exactly [length] alphabet
    characters, two indices below [26^length] that leave the same string
    are equal, and every such string is left by exactly one index. *)
Theorem number_to_password_bijection (len : Z) :
  1 ≤ len ≤ MAX_PASSWORD_LENGTH →
  (∀ index a, len < Z.of_nat (length a) →
     ∃ a' s, number_to_password index a len = Some a' ∧ cstring a' = Some s
             ∧ Z.of_nat (length s) = len ∧ Forall (λ ch, ch ∈ CHARSET) s)
  ∧ (∀ i j a b a' b',
       0 ≤ i < CHARSET_SIZE ^ len → 0 ≤ j < CHARSET_SIZE ^ len →
       number_to_password i a len = Some a' →
       number_to_password j b len = Some b' →
       cstring a' = cstring b' → i = j)
  ∧ (∀ s, Z.of_nat (length s) = len → Forall (λ ch, ch ∈ CHARSET) s →
       ∃ i, 0 ≤ i < CHARSET_SIZE ^ len
            ∧ (∀ a, len < Z.of_nat (length a) →
                 ∃ a', number_to_password i a len = Some a' ∧ cstring a' = Some s)
            ∧ (∀ j a a', 0 ≤ j < CHARSET_SIZE ^ len →
                 number_to_password j a len = Some a' → cstring a' = Some s → j = i)).
Proof.
  intros Hlen. split; [|split].
  - intros index a Ha. eexists _, _.
    rewrite number_to_password_spec by lia.
    split; [done|]. split; [apply cstring_decode|].
    split; [rewrite decode_length; lia|].
    eapply Forall_impl; [apply decode_charset|]. by intros ch [? _].
  - intros i j a b a' b' Hi Hj Ha Hb Heq.
    apply number_to_password_cstring in Ha as (Ha & _ & _).
    apply number_to_password_cstring in Hb as (Hb & _ & _).
    rewrite Ha, Hb in Heq. simplify_eq.
    assert (Hn : Z.of_nat (Z.to_nat len) = len) by lia.
    apply (decode_inj i j (Z.to_nat len)); [by rewrite Hn..|done].
  - intros s Hs Hchars.
    destruct (decode_encode s Hchars) as [Hdec Hrange].
    assert (Hn : Z.to_nat len = length s) by lia.
    rewrite <- Hn, Z2Nat.id in Hrange by lia. rewrite <- Hn in Hdec.
    exists (encode s). split; [done|]. split.
    + intros a Ha. eexists. rewrite number_to_password_spec by lia.
      split; [done|]. rewrite <- Hdec at 2. apply cstring_decode.
    + intros j a a' Hj Hcall Hstr.
      apply number_to_password_cstring in Hcall as (Hcall & _ & _).
      assert (Hjs : decode j (Z.to_nat len) = s) by congruence.
      assert (Hn' : Z.of_nat (Z.to_nat len) = len) by lia.
      apply (decode_inj j (encode s) (Z.to_nat len)); [by rewrite Hn'..|].
      by rewrite Hdec, Hjs.
Qed.

Lemma number_to_password_bijection_witness :
  1 ≤ 3 ≤ MAX_PASSWORD_LENGTH
  ∧ ∃ i, 0 ≤ i < CHARSET_SIZE ^ 3
         ∧ ∃ a', number_to_password i (replicate 4 NUL) 3 = Some a'
                 ∧ cstring a' = Some (str "abc").
Proof.
  assert (Hlen : 1 ≤ 3 ≤ MAX_PASSWORD_LENGTH) by done.
  split; [exact Hlen|].
  destruct (number_to_password_bijection 3 Hlen) as (_ & _ & Hsurj).
  destruct (Hsurj (str "abc")) as (i & Hi & Hex & _).
  - reflexivity.
  - repeat constructor; set_solver.
  - exists i. split; [exact Hi|]. apply Hex. done.
Defined.

Lemma calculate_combinations_loop_spec (n : nat) (total : Z) :
  0 ≤ total < 2 ^ 64 →
  calculate_combinations_loop n total = wrap64 (total * CHARSET_SIZE ^ Z.of_nat n).
Proof.
  revert total. induction n as [|n IH]; intros total Ht.
  - simpl. unfold wrap64. rewrite Z.mul_1_r, Z.mod_small; done.
  - cbn [calculate_combinations_loop].
    rewrite IH by (apply Z.mod_pos_bound; done).
    unfold wrap64. rewrite Z.mul_mod_idemp_l by done.
    rewrite Nat2Z.inj_succ, Z.pow_succ_r by lia. f_equal. lia.
Qed.

Lemma calculate_combinations_wraps (len : Z) :
  calculate_combinations len = (CHARSET_SIZE ^ Z.max 0 len) `mod` 2 ^ 64.
Proof.
  unfold calculate_combinations.
  rewrite calculate_combinations_loop_spec by done.
  rewrite Z.mul_1_l, ZifyInst.of_nat_to_nat_eq. reflexivity.
Qed.

Lemma pow26_fits (len : Z) : 0 ≤ len ≤ 13 → 0 < CHARSET_SIZE ^ len < 2 ^ 64.
Proof.
  intros Hlen. split; [apply Z.pow_pos_nonneg; [done|lia]|].
  apply Z.le_lt_trans with (CHARSET_SIZE ^ 13); [|done].
  apply Z.pow_le_mono_r; [done|lia].
Qed.

Lemma calculate_combinations_exact (len : Z) :
  0 ≤ len ≤ 13 → calculate_combinations len = CHARSET_SIZE ^ len.
Proof.
  intros Hlen. rewrite calculate_combinations_wraps, Z.max_r by lia.
  apply Z.mod_small. pose proof (pow26_fits len Hlen). lia.
Qed.

(** * The serial search *)

Lemma memcmp_defined (s1 s2 : list byte) (n : nat) :
  (n ≤ length s1)%nat → (n ≤ length s2)%nat → is_Some (memcmp s1 s2 n).
Proof.
  revert s1 s2. induction n as [|n IH]; intros s1 s2 H1 H2; [exists 0; reflexivity|].
  destruct s1 as [|c1 s1]; [simpl in H1; lia|].
  destruct s2 as [|c2 s2]; [simpl in H2; lia|].
  simpl in *. case_bool_decide; [apply IH; lia|eexists; reflexivity].
Qed.

Lemma memcmp_zero (s1 s2 : list byte) (n : nat) :
  memcmp s1 s2 n = Some 0 ↔
  (n ≤ length s1)%nat ∧ (n ≤ length s2)%nat ∧ take n s1 = take n s2.
Proof.
  revert s1 s2. induction n as [|n IH]; intros s1 s2.
  - simpl. rewrite !take_0. split; [intros _; repeat split; lia|done].
  - destruct s1 as [|c1 s1]; simpl.
    { destruct s2; split; try done; intros (? & _); lia. }
    destruct s2 as [|c2 s2]; simpl.
    { split; try done; intros (_ & ? & _); lia. }
    case_bool_decide as Hd.
    + assert (c1 = c2) as ->.
      { assert (Hn : Byte.to_N c1 = Byte.to_N c2) by lia.
        pose proof (Byte.of_to_N c1) as H1. pose proof (Byte.of_to_N c2) as H2.
        congruence. }
      rewrite IH. split.
      * intros (? & ? & ->). repeat split; lia.
      * intros (? & ? & [= ?]). repeat split; [lia..|done].
    + split; [intros [= ?]; done|].
      intros (_ & _ & [= -> _]). lia.
Qed.

(** On digests of the right size [memcmp] finds equality exactly when
    the digests are equal. *)
Lemma matches_eq `{MD5_oracle} (target_hash : list byte) (len k : Z) :
  Z.of_nat (length target_hash) = MD5_DIGEST_LENGTH →
  matches target_hash len k ↔ MD5 (decode k (Z.to_nat len)) = target_hash.
Proof.
  intros Htarget. unfold matches. rewrite memcmp_zero.
  pose proof (MD5_length (decode k (Z.to_nat len))) as Hm.
  rewrite !firstn_all2 by lia. intuition lia.
Qed.

Section Serial.
Context `{MD5_oracle}.
Variable target_hash : list byte.
Variable len : Z.
Variable total : Z.
Hypothesis target_hash_length : Z.of_nat (length target_hash) = MD5_DIGEST_LENGTH.
Hypothesis total_range : 0 ≤ total < 2 ^ 64.

(** One pass through the loop body when the guess has room. *)
Lemma serial_loop_step (fuel : nat) (i attempts : Z) (guess : list ascii) :
  0 ≤ len < Z.of_nat (length guess) → i < total →
  ∃ guess', length guess' = length guess ∧
    serial_loop (S fuel) total target_hash len i attempts guess
    = if decide (matches target_hash len i)
      then Returns {| ret := 1; attempts := wrap64 (attempts + 1);
                      password := Some (decode i (Z.to_nat len)) |}
      else serial_loop fuel total target_hash len (wrap64 (i + 1))
             (wrap64 (attempts + 1)) guess'.
Proof.
  intros Hlen Hi.
  destruct (number_to_password i guess len) as [guess'|] eqn:Hcall;
    [|by rewrite number_to_password_spec in Hcall].
  destruct (number_to_password_cstring _ _ _ _ Hcall) as (Hstr & Hlength & _).
  exists guess'. split; [done|].
  cbn [serial_loop]. rewrite bool_decide_true by done.
  rewrite Hcall. cbn [defined mbind outcome_bind].
  unfold generate_hash. rewrite Hstr. cbn [mbind option_bind defined outcome_bind].
  destruct (memcmp_defined (MD5 (decode i (Z.to_nat len))) target_hash
              (Z.to_nat MD5_DIGEST_LENGTH)) as [d Hd].
  { pose proof (MD5_length (decode i (Z.to_nat len))). lia. }
  { lia. }
  rewrite Hd. cbn [defined mbind outcome_bind].
  destruct (decide (matches target_hash len i)) as [Heq|Hne]; unfold matches in *.
  - rewrite Hd in Heq. simplify_eq. reflexivity.
  - rewrite Hd in Hne. rewrite bool_decide_false by congruence. done.
Qed.

Lemma serial_loop_exit (fuel : nat) (i attempts : Z) (guess : list ascii) :
  ¬ i < total →
  serial_loop (S fuel) total target_hash len i attempts guess
  = Returns {| ret := 0; attempts := attempts; password := None |}.
Proof. intros Hi. cbn [serial_loop]. by rewrite bool_decide_false. Qed.

(** From index [i] on, with [i] attempts made, the loop stops at the
    first matching index. *)
Lemma serial_loop_finds (n : nat) :
  ∀ (fuel : nat) (i : Z) (guess : list ascii),
    0 ≤ len < Z.of_nat (length guess) → 0 ≤ i →
    i + Z.of_nat n < total → (n < fuel)%nat →
    (∀ j, i ≤ j < i + Z.of_nat n → ¬ matches target_hash len j) →
    matches target_hash len (i + Z.of_nat n) →
    serial_loop fuel total target_hash len i i guess
    = Returns {| ret := 1; attempts := i + Z.of_nat n + 1;
                 password := Some (decode (i + Z.of_nat n) (Z.to_nat len)) |}.
Proof.
  induction n as [|n IH]; intros fuel i guess Hlen Hi Hk Hfuel Hmiss Hhit;
    (destruct fuel as [|fuel]; [lia|]);
    destruct (serial_loop_step fuel i i guess Hlen ltac:(lia)) as (guess' & Hg & ->).
  - rewrite Z.add_0_r in *. rewrite decide_True by done.
    unfold wrap64. rewrite Z.mod_small by lia. done.
  - rewrite decide_False by (apply Hmiss; lia).
    unfold wrap64. rewrite Z.mod_small by lia.
    replace (i + Z.of_nat (S n)) with (i + 1 + Z.of_nat n) in * by lia.
    apply IH; [by rewrite Hg|lia..| |done].
    intros j Hj. apply Hmiss. lia.
Qed.

(** Without a match from [i] on, the loop runs to [total]. *)
Lemma serial_loop_exhausts (n : nat) :
  ∀ (fuel : nat) (i : Z) (guess : list ascii),
    0 ≤ len < Z.of_nat (length guess) → 0 ≤ i →
    i + Z.of_nat n = total → (n < fuel)%nat →
    (∀ j, i ≤ j < total → ¬ matches target_hash len j) →
    serial_loop fuel total target_hash len i i guess
    = Returns {| ret := 0; attempts := total; password := None |}.
Proof.
  induction n as [|n IH]; intros fuel i guess Hlen Hi Hk Hfuel Hmiss;
    (destruct fuel as [|fuel]; [lia|]).
  - rewrite serial_loop_exit by lia. do 2 f_equal. lia.
  - destruct (serial_loop_step fuel i i guess Hlen ltac:(lia)) as (guess' & Hg & ->).
    rewrite decide_False by (apply Hmiss; lia).
    unfold wrap64. rewrite Z.mod_small by lia.
    apply IH; try rewrite Hg; try lia.
    intros j Hj. apply Hmiss. lia.
Qed.
End Serial.

(** A decidable property that holds somewhere below [n] holds at a least
    index. *)
Lemma least_index_or_none (P : Z → Prop) `{∀ k, Decision (P k)} (n : nat) :
  (∃ k, 0 ≤ k < Z.of_nat n ∧ P k ∧ ∀ j, 0 ≤ j < k → ¬ P j)
  ∨ (∀ k, 0 ≤ k < Z.of_nat n → ¬ P k).
Proof.
  induction n as [|n [(k & Hk & HP & Hmin)|Hnone]].
  - right. intros k Hk. lia.
  - left. exists k. split; [lia|done].
  - destruct (decide (P (Z.of_nat n))) as [HP|HP].
    + left. exists (Z.of_nat n). split; [lia|]. split; [done|]. apply Hnone.
    + right. intros k Hk. destruct (decide (k = Z.of_nat n)) as [->|]; [done|].
      apply Hnone. lia.
Qed.

Lemma least_index (P : Z → Prop) `{∀ k, Decision (P k)} (n : Z) :
  (∃ k, 0 ≤ k < n ∧ P k) →
  ∃ k, 0 ≤ k < n ∧ P k ∧ ∀ j, 0 ≤ j < k → ¬ P j.
Proof.
  intros (k & Hk & HP).
  destruct (least_index_or_none P (Z.to_nat n)) as [(k' & Hk' & HP' & Hmin)|Hnone].
  - exists k'. split; [lia|done].
  - destruct (Hnone k); [lia|done].
Qed.

Lemma char_array_length (n : Z) (junk : list ascii) :
  Z.of_nat (length (char_array n junk)) = Z.max 0 n.
Proof. unfold char_array. rewrite length_resize. lia. Qed.

Section CrackSerial.
Context `{MD5_oracle}.
Variables (junk target_password t : list ascii) (len : Z).
Hypothesis target_string : cstring target_password = Some t.

(** Below [MAX_PASSWORD_LENGTH] the guess fits its array and the call
    reports the first matching index. *)
Lemma crack_password_serial_first_match (k : Z) :
  0 ≤ len < MAX_PASSWORD_LENGTH →
  0 ≤ k < CHARSET_SIZE ^ len →
  matches (MD5 t) len k →
  (∀ j, 0 ≤ j < k → ¬ matches (MD5 t) len j) →
  crack_password_serial junk target_password len
  = Returns {| ret := 1; attempts := k + 1;
               password := Some (decode k (Z.to_nat len)) |}.
Proof.
  intros Hlen Hk Hhit Hmiss. unfold crack_password_serial, generate_hash.
  rewrite target_string. cbn [mbind option_bind defined outcome_bind].
  assert (Hfit : 0 ≤ len ≤ 13) by (unfold MAX_PASSWORD_LENGTH in Hlen; lia).
  rewrite calculate_combinations_exact by done.
  pose proof (pow26_fits len Hfit) as Hpow.
  pose proof (serial_loop_finds (MD5 t) len (CHARSET_SIZE ^ len) (MD5_length t)
                ltac:(lia) (Z.to_nat k) (S (Z.to_nat (CHARSET_SIZE ^ len))) 0
                (char_array MAX_PASSWORD_LENGTH junk)) as Hloop.
  rewrite Z.add_0_l, Z2Nat.id in Hloop by lia.
  apply Hloop; [rewrite char_array_length; lia|lia..|done|done].
Qed.

(** Below [MAX_PASSWORD_LENGTH], without a matching index the call
    tries the whole keyspace. *)
Lemma crack_password_serial_no_match :
  0 ≤ len < MAX_PASSWORD_LENGTH →
  (∀ j, 0 ≤ j < CHARSET_SIZE ^ len → ¬ matches (MD5 t) len j) →
  crack_password_serial junk target_password len
  = Returns {| ret := 0; attempts := CHARSET_SIZE ^ len; password := None |}.
Proof.
  intros Hlen Hmiss. unfold crack_password_serial, generate_hash.
  rewrite target_string. cbn [mbind option_bind defined outcome_bind].
  assert (Hfit : 0 ≤ len ≤ 13) by (unfold MAX_PASSWORD_LENGTH in Hlen; lia).
  rewrite calculate_combinations_exact by done.
  pose proof (pow26_fits len Hfit) as Hpow.
  apply (serial_loop_exhausts (MD5 t) len (CHARSET_SIZE ^ len) (MD5_length t)
           ltac:(lia) (Z.to_nat (CHARSET_SIZE ^ len)));
    [rewrite char_array_length; lia|lia..|done].
Qed.
End CrackSerial.

(** At [MAX_PASSWORD_LENGTH] the terminator of the first guess is stored
    one cell behind [char guess[MAX_PASSWORD_LENGTH]]. *)
Lemma crack_password_serial_overrun `{MD5_oracle} (junk target_password : list ascii) :
  crack_password_serial junk target_password MAX_PASSWORD_LENGTH = Undefined.
Proof.
  unfold crack_password_serial.
  destruct (generate_hash target_password) as [target_hash|]; [|done].
  cbn [defined mbind outcome_bind].
  rewrite calculate_combinations_exact by done.
  generalize (Z.to_nat (CHARSET_SIZE ^ MAX_PASSWORD_LENGTH)). intros fuel.
  cbn [serial_loop]. rewrite bool_decide_true by done.
  rewrite number_to_password_overrun; [done|].
  rewrite char_array_length. unfold MAX_PASSWORD_LENGTH. lia.
Qed.

(** The same loop on an array of [MAX_PASSWORD_LENGTH + 1] cells, the
    size the OpenMP, MPI and CUDA copies declare, reports the first
    matching index at [MAX_PASSWORD_LENGTH] too. *)
Lemma serial_loop_with_room `{MD5_oracle} (junk t : list ascii) (len k : Z) :
  0 ≤ len ≤ MAX_PASSWORD_LENGTH →
  0 ≤ k < CHARSET_SIZE ^ len →
  matches (MD5 t) len k →
  (∀ j, 0 ≤ j < k → ¬ matches (MD5 t) len j) →
  serial_loop (S (Z.to_nat (calculate_combinations len))) (calculate_combinations len)
    (MD5 t) len 0 0 (char_array (MAX_PASSWORD_LENGTH + 1) junk)
  = Returns {| ret := 1; attempts := k + 1;
               password := Some (decode k (Z.to_nat len)) |}.
Proof.
  intros Hlen Hk Hhit Hmiss.
  assert (Hfit : 0 ≤ len ≤ 13) by (unfold MAX_PASSWORD_LENGTH in Hlen; lia).
  rewrite calculate_combinations_exact by done.
  pose proof (pow26_fits len Hfit) as Hpow.
  pose proof (serial_loop_finds (MD5 t) len (CHARSET_SIZE ^ len) (MD5_length t)
                ltac:(lia) (Z.to_nat k) (S (Z.to_nat (CHARSET_SIZE ^ len))) 0
                (char_array (MAX_PASSWORD_LENGTH + 1) junk)) as Hloop.
  rewrite Z.add_0_l, Z2Nat.id in Hloop by lia.
  apply Hloop; [rewrite char_array_length; unfold MAX_PASSWORD_LENGTH in *; lia
               |lia..|done|done].
Qed.

(** C1.  When some index below [26^length] has the fingerprint of the
    target, [crack_password_serial] returns 1 and prints a guess whose
    fingerprint equals the target's, for every length below
    [MAX_PASSWORD_LENGTH]; at [MAX_PASSWORD_LENGTH] itself the call
    overruns its [guess] array instead of returning. *)
Theorem crack_password_serial_found `{MD5_oracle}
    (junk target_password t : list ascii) (len : Z) :
  cstring target_password = Some t →
  0 ≤ len ≤ MAX_PASSWORD_LENGTH →
  (∃ k, 0 ≤ k < CHARSET_SIZE ^ len ∧ matches (MD5 t) len k) →
  (len < MAX_PASSWORD_LENGTH →
     ∃ k' n, 0 ≤ k' < CHARSET_SIZE ^ len
       ∧ MD5 (decode k' (Z.to_nat len)) = MD5 t
       ∧ crack_password_serial junk target_password len
         = Returns {| ret := 1; attempts := n;
                      password := Some (decode k' (Z.to_nat len)) |})
  ∧ (len = MAX_PASSWORD_LENGTH →
     crack_password_serial junk target_password len = Undefined).
Proof.
  intros Ht Hlen Hex. split.
  - intros Hlt.
    destruct (least_index (matches (MD5 t) len) _ Hex) as (k' & Hk' & Hhit & Hmin).
    exists k', (k' + 1). split; [done|]. split.
    + by apply (matches_eq (MD5 t) len k' (MD5_length t)).
    + apply (crack_password_serial_first_match junk target_password t len Ht k');
        [lia|done..].
  - intros ->. apply crack_password_serial_overrun.
Qed.

(** C3.  When no index below [26^length] has the fingerprint of the
    target, [crack_password_serial] returns 0 after exactly [26^length]
    attempts, for every length below [MAX_PASSWORD_LENGTH]; at
    [MAX_PASSWORD_LENGTH] itself the call overruns its [guess] array
    instead of returning. *)
Theorem crack_password_serial_exhausted `{MD5_oracle}
    (junk target_password t : list ascii) (len : Z) :
  cstring target_password = Some t →
  0 ≤ len ≤ MAX_PASSWORD_LENGTH →
  (∀ k, 0 ≤ k < CHARSET_SIZE ^ len → ¬ matches (MD5 t) len k) →
  (len < MAX_PASSWORD_LENGTH →
     crack_password_serial junk target_password len
     = Returns {| ret := 0; attempts := CHARSET_SIZE ^ len; password := None |})
  ∧ (len = MAX_PASSWORD_LENGTH →
     crack_password_serial junk target_password len = Undefined).
Proof.
  intros Ht Hlen Hmiss. split.
  - intros Hlt.
    apply (crack_password_serial_no_match junk target_password t len Ht); [lia|done].
  - intros ->. apply crack_password_serial_overrun.
Qed.

(** C10.  The serial search tries the indices in increasing order: when
    [k] is the smallest index whose fingerprint equals the target's,
    [crack_password_serial] returns 1 with the candidate of [k] after
    [k + 1] attempts, for every length below [MAX_PASSWORD_LENGTH]; at
    [MAX_PASSWORD_LENGTH] itself the call overruns its [guess] array on
    the first candidate. *)
Theorem crack_password_serial_smallest `{MD5_oracle}
    (junk target_password t : list ascii) (len k : Z) :
  cstring target_password = Some t →
  0 ≤ len ≤ MAX_PASSWORD_LENGTH →
  0 ≤ k < CHARSET_SIZE ^ len →
  matches (MD5 t) len k →
  (∀ j, 0 ≤ j < k → ¬ matches (MD5 t) len j) →
  (len < MAX_PASSWORD_LENGTH →
     crack_password_serial junk target_password len
     = Returns {| ret := 1; attempts := k + 1;
                  password := Some (decode k (Z.to_nat len)) |})
  ∧ (len = MAX_PASSWORD_LENGTH →
     crack_password_serial junk target_password len = Undefined).
Proof.
  intros Ht Hlen Hk Hhit Hmin. split.
  - intros Hlt.
    apply (crack_password_serial_first_match junk target_password t len Ht k);
      [lia|done..].
  - intros ->. apply crack_password_serial_overrun.
Qed.

Lemma crack_password_serial_found_witness :
  (∃ k, 0 ≤ k < CHARSET_SIZE ^ 10 ∧ @matches toy_MD5 (toy_digest (str "aaaaaaaaaa")) 10 k)
  ∧ @crack_password_serial toy_MD5 [] (str "aaaaaaaaaa" ++ [NUL]) 10 = Undefined.
Proof.
  assert (Hex : ∃ k, 0 ≤ k < CHARSET_SIZE ^ 10
                     ∧ @matches toy_MD5 (toy_digest (str "aaaaaaaaaa")) 10 k).
  { exists 0. split; [done|]. vm_compute. reflexivity. }
  split; [exact Hex|].
  destruct (@crack_password_serial_found toy_MD5 [] (str "aaaaaaaaaa" ++ [NUL])
              (str "aaaaaaaaaa") 10 eq_refl ltac:(done) Hex) as [_ Hmax].
  apply Hmax. reflexivity.
Defined.

Lemma crack_password_serial_exhausted_witness :
  (∀ k, 0 ≤ k < CHARSET_SIZE ^ 10 → ¬ @matches toy_MD5 (toy_digest (str "B")) 10 k)
  ∧ @crack_password_serial toy_MD5 [] (str "B" ++ [NUL]) 10 = Undefined.
Proof.
  assert (Hmiss : ∀ k, 0 ≤ k < CHARSET_SIZE ^ 10
                       → ¬ @matches toy_MD5 (toy_digest (str "B")) 10 k).
  { intros k _ Hk. apply memcmp_zero in Hk as (_ & _ & Hk).
    cbn [MD5 toy_MD5] in Hk. unfold toy_digest in Hk. rewrite decode_length in Hk.
    vm_compute in Hk. discriminate Hk. }
  split; [exact Hmiss|].
  destruct (@crack_password_serial_exhausted toy_MD5 [] (str "B" ++ [NUL])
              (str "B") 10 eq_refl ltac:(done) Hmiss) as [_ Hmax].
  apply Hmax. reflexivity.
Defined.

Lemma crack_password_serial_smallest_witness :
  @matches toy_MD5 (toy_digest (str "aaaaaaaaaa")) 10 0
  ∧ @crack_password_serial toy_MD5 [] (str "aaaaaaaaaa" ++ [NUL]) 10 = Undefined.
Proof.
  assert (Hhit : @matches toy_MD5 (toy_digest (str "aaaaaaaaaa")) 10 0).
  { vm_compute. reflexivity. }
  split; [exact Hhit|].
  destruct (@crack_password_serial_smallest toy_MD5 [] (str "aaaaaaaaaa" ++ [NUL])
              (str "aaaaaaaaaa") 10 0 eq_refl ltac:(done) ltac:(done) Hhit
              ltac:(intros j Hj; lia)) as [_ Hmax].
  apply Hmax. reflexivity.
Defined.

(** * Keyspace size and out-of-range indices *)

(** [26^14] does not fit 64 bits, and [calculate_combinations] returns
    its residue without any error. *)
Lemma calculate_combinations_14_wraps :
  2 ^ 64 ≤ CHARSET_SIZE ^ 14
  ∧ calculate_combinations 14 = 9169742482168496128
  ∧ calculate_combinations 14 ≠ CHARSET_SIZE ^ 14.
Proof. split; [by vm_compute|]. split; [by vm_compute|by vm_compute]. Qed.

(** C7 (amended).  For every length, [calculate_combinations] returns
    [26^length] reduced modulo [2^64] (1 for a length below zero) and has
    no failure case; the result is the exact power for the lengths 0 to
    13, among them every length up to [MAX_PASSWORD_LENGTH]. *)
Theorem calculate_combinations_modular (len : Z) :
  calculate_combinations len = (CHARSET_SIZE ^ Z.max 0 len) `mod` 2 ^ 64
  ∧ (0 ≤ len ≤ 13 → calculate_combinations len = CHARSET_SIZE ^ len).
Proof.
  split; [apply calculate_combinations_wraps|apply calculate_combinations_exact].
Qed.

Lemma calculate_combinations_modular_witness :
  calculate_combinations MAX_PASSWORD_LENGTH = CHARSET_SIZE ^ MAX_PASSWORD_LENGTH.
Proof.
  apply (proj2 (calculate_combinations_modular MAX_PASSWORD_LENGTH)).
  unfold MAX_PASSWORD_LENGTH. lia.
Defined.

(** Index 26 is no index of the one-letter keyspace, and
    [number_to_password] hands back the candidate of index 0 for it. *)
Lemma number_to_password_26_length_1 :
  calculate_combinations 1 ≤ 26
  ∧ number_to_password 26 (replicate 2 NUL) 1 = Some (str "a" ++ [NUL])
  ∧ number_to_password 0 (replicate 2 NUL) 1 = Some (str "a" ++ [NUL]).
Proof. split; [by vm_compute|]. split; reflexivity. Qed.

(** C8 (amended).  For every index, also one at or above [26^length],
    [number_to_password] returns a candidate whenever the array has room
    for it: the candidate of the index reduced modulo [26^length].  It
    has no failure case for the index. *)
Theorem number_to_password_any_index (num : Z) (a : list ascii) (len : Z) :
  0 ≤ len < Z.of_nat (length a) →
  ∃ a', number_to_password num a len = Some a'
        ∧ number_to_password (num `mod` CHARSET_SIZE ^ len) a len = Some a'
        ∧ cstring a' = Some (decode num (Z.to_nat len)).
Proof.
  intros Hlen. eexists. rewrite !number_to_password_spec by done.
  split; [done|]. split; [|apply cstring_decode].
  rewrite <- (Z2Nat.id len) at 1 by lia. by rewrite decode_mod.
Qed.

Lemma number_to_password_any_index_witness :
  ∃ a', number_to_password 26 (replicate 2 NUL) 1 = Some a'
        ∧ number_to_password (26 `mod` CHARSET_SIZE ^ 1) (replicate 2 NUL) 1 = Some a'
        ∧ cstring a' = Some (decode 26 (Z.to_nat 1)).
Proof. apply (number_to_password_any_index 26 (replicate 2 NUL) 1). simpl. lia. Defined.

(** * Entry points *)

Lemma lowercase_charset (ch : ascii) : lowercase ch = bool_decide (ch ∈ CHARSET).
Proof. destruct ch as [[] [] [] [] [] [] [] []]; by vm_compute. Qed.

Lemma store_string_spec (word a : list ascii) (i : nat) :
  (i + length word < length a)%nat →
  store_string a (Z.of_nat i) word
  = Some (take i a ++ word ++ NUL :: drop (i + length word + 1) a).
Proof.
  revert a i. induction word as [|ch word IH]; intros a i Hi; cbn [store_string length] in *.
  - rewrite store_Some, Nat2Z.id by lia. rewrite insert_take_drop by lia.
    simpl. replace (i + 0 + 1)%nat with (S i) by lia. reflexivity.
  - rewrite store_Some, Nat2Z.id by lia. cbn [mbind option_bind].
    replace (Z.of_nat i + 1) with (Z.of_nat (S i)) by lia.
    rewrite IH by (rewrite length_insert; lia).
    rewrite insert_take_drop by lia. f_equal.
    assert (Hti : length (take i a) = i) by (rewrite length_take; lia).
    rewrite take_app_ge, drop_app_ge by lia. rewrite Hti.
    replace (S i - i)%nat with 1%nat by lia.
    replace (S i + length word + 1 - i)%nat with (S (S (length word)))%nat by lia.
    cbn [take drop]. rewrite take_0, drop_drop, <- app_assoc. simpl.
    replace (i + S (length word) + 1)%nat with (S (i + S (length word))) by lia.
    reflexivity.
Qed.

Lemma store_string_overrun (word a : list ascii) (i : nat) :
  (length a ≤ i + length word)%nat → store_string a (Z.of_nat i) word = None.
Proof.
  revert a i. induction word as [|ch word IH]; intros a i Hi; cbn [store_string length] in *.
  - apply store_None. lia.
  - destruct (store a (Z.of_nat i) ch) as [a'|] eqn:Hstore; [|done].
    cbn [mbind option_bind]. apply store_length in Hstore.
    replace (Z.of_nat i + 1) with (Z.of_nat (S i)) by lia.
    apply IH. lia.
Qed.

Lemma only_lowercase_spec (pre word rest : list ascii) :
  only_lowercase (length word) (Z.of_nat (length pre)) (pre ++ word ++ rest)
  = Some (forallb lowercase word).
Proof.
  revert pre. induction word as [|ch word IH]; intros pre; [done|].
  cbn [length only_lowercase forallb]. unfold load.
  rewrite bool_decide_true, Nat2Z.id by lia.
  rewrite lookup_app_r, Nat.sub_diag by done. cbn [lookup list_lookup mbind option_bind app].
  fold (lowercase ch). unfold lowercase at 1.
  destruct (bool_decide _); [done|]. cbn [negb andb].
  replace (Z.of_nat (length pre) + 1) with (Z.of_nat (length (pre ++ [ch])))
    by (rewrite length_app; simpl; lia).
  rewrite <- (IH (pre ++ [ch])), <- !app_assoc. done.
Qed.

(** What [scanf] leaves in [password[MAX_PASSWORD_LENGTH + 1]] for a
    word that fits. *)
Lemma scanf_word_fits (junk word : list ascii) :
  Z.of_nat (length word) ≤ MAX_PASSWORD_LENGTH →
  scanf_word word (char_array (MAX_PASSWORD_LENGTH + 1) junk)
  = Some (word ++ NUL :: drop (length word + 1) (char_array (MAX_PASSWORD_LENGTH + 1) junk)).
Proof.
  intros Hfit. unfold scanf_word.
  pose proof (char_array_length (MAX_PASSWORD_LENGTH + 1) junk) as Hlen.
  change 0 with (Z.of_nat 0). rewrite store_string_spec by (unfold MAX_PASSWORD_LENGTH in *; lia).
  by rewrite take_0.
Qed.

(** A longer word is stored past the end of the array. *)
Lemma scanf_word_overrun (junk word : list ascii) :
  MAX_PASSWORD_LENGTH < Z.of_nat (length word) →
  scanf_word word (char_array (MAX_PASSWORD_LENGTH + 1) junk) = None.
Proof.
  intros Hlong. unfold scanf_word.
  pose proof (char_array_length (MAX_PASSWORD_LENGTH + 1) junk) as Hlen.
  change 0 with (Z.of_nat 0). apply store_string_overrun.
  unfold MAX_PASSWORD_LENGTH in *. lia.
Qed.

Lemma strlen_word (word rest : list ascii) :
  Forall (λ ch, ch ≠ NUL) word →
  strlen (word ++ NUL :: rest) = Some (Z.of_nat (length word)).
Proof. intros Hword. unfold strlen. by rewrite cstring_app. Qed.

Lemma forallb_lowercase (word : list ascii) :
  forallb lowercase word = bool_decide (Forall (λ ch, ch ∈ CHARSET) word).
Proof.
  induction word as [|ch word IH]; [done|].
  cbn [forallb]. rewrite IH, lowercase_charset.
  destruct (decide (ch ∈ CHARSET)) as [Hch|Hch];
    destruct (decide (Forall (λ ch, ch ∈ CHARSET) word)) as [Hw|Hw];
    rewrite ?(bool_decide_true _ Hch), ?(bool_decide_false _ Hch),
            ?(bool_decide_true _ Hw), ?(bool_decide_false _ Hw); cbn [andb];
    symmetry; first [apply bool_decide_true; by constructor
                    | apply bool_decide_false; by inversion 1].
Qed.

Section EntryPoints.
Context `{MD5_oracle}.
Variables (junk junk' word : list ascii).
Hypothesis word_no_NUL : Forall (λ ch, ch ≠ NUL) word.

(** The three entry points that validate turn down a word that fits the
    array and has a character outside the alphabet. *)
Lemma validating_mains_reject :
  Z.of_nat (length word) ≤ MAX_PASSWORD_LENGTH →
  ¬ Forall (λ ch, ch ∈ CHARSET) word →
  serial_main junk junk' word = rejected
  ∧ openmp_main junk word = rejected
  ∧ cuda_main junk word = rejected.
Proof.
  intros Hfit Hbad.
  unfold serial_main, openmp_main, cuda_main.
  rewrite scanf_word_fits by done. cbn [defined mbind outcome_bind].
  rewrite strlen_word by done. cbn [defined mbind outcome_bind].
  rewrite bool_decide_false by lia. rewrite Nat2Z.id.
  pose proof (only_lowercase_spec [] word) as Hcheck.
  cbn [length app] in Hcheck. change (Z.of_nat 0) with 0 in Hcheck.
  rewrite Hcheck, forallb_lowercase, (bool_decide_false _ Hbad).
  cbn [defined mbind outcome_bind negb].
  split; [done|]. split; [done|].
  by destruct (bool_decide (Z.of_nat (length word) = 0)).
Qed.

(** [mpi_main] validates nothing: whatever fits the array is searched
    for, and the exit code is 0. *)
Lemma mpi_main_searches :
  Z.of_nat (length word) ≤ MAX_PASSWORD_LENGTH →
  ∃ password,
    mpi_main junk word
    = Returns {| exit_code := 0;
                 searched := Some (password, Z.of_nat (length word)) |}
    ∧ cstring password = Some word.
Proof.
  intros Hfit. unfold mpi_main.
  rewrite scanf_word_fits by done. cbn [defined mbind outcome_bind].
  rewrite strlen_word by done. cbn [defined mbind outcome_bind].
  eexists. split; [done|]. by apply cstring_app.
Qed.

(** A word longer than [MAX_PASSWORD_LENGTH] overruns the array in
    [scanf], before any entry point looks at its length. *)
Lemma mains_overrun :
  MAX_PASSWORD_LENGTH < Z.of_nat (length word) →
  serial_main junk junk' word = Undefined
  ∧ openmp_main junk word = Undefined
  ∧ cuda_main junk word = Undefined
  ∧ mpi_main junk word = Undefined.
Proof.
  intros Hlong. unfold serial_main, openmp_main, cuda_main, mpi_main.
  rewrite scanf_word_overrun by done. done.
Qed.
End EntryPoints.

(** C9.  For a word that fits [password[MAX_PASSWORD_LENGTH + 1]] and
    has a character outside a-z, the serial, OpenMP and CUDA entry
    points return 1 without starting a search, while the MPI entry point
    starts the search for it and returns 0. *)
Theorem entry_points_validation `{MD5_oracle} (junk junk' word : list ascii) :
  Forall (λ ch, ch ≠ NUL) word →
  Z.of_nat (length word) ≤ MAX_PASSWORD_LENGTH →
  ¬ Forall (λ ch, ch ∈ CHARSET) word →
  serial_main junk junk' word = rejected
  ∧ openmp_main junk word = rejected
  ∧ cuda_main junk word = rejected
  ∧ ∃ password,
      mpi_main junk word
      = Returns {| exit_code := 0;
                   searched := Some (password, Z.of_nat (length word)) |}
      ∧ cstring password = Some word.
Proof.
  intros Hnul Hfit Hbad.
  destruct (validating_mains_reject junk junk' word Hnul Hfit Hbad) as (Hs & Ho & Hc).
  repeat (split; [done|]).
  by apply mpi_main_searches.
Qed.

Lemma entry_points_validation_witness :
  ¬ Forall (λ ch, ch ∈ CHARSET) (str "A1")
  ∧ @serial_main toy_MD5 [] [] (str "A1") = rejected
  ∧ ∃ password,
      mpi_main [] (str "A1") = Returns {| exit_code := 0; searched := Some (password, 2) |}
      ∧ cstring password = Some (str "A1").
Proof.
  assert (Hbad : ¬ Forall (λ ch, ch ∈ CHARSET) (str "A1")).
  { intros Hall. apply Forall_cons_1 in Hall as [Hin _].
    revert Hin. apply (bool_decide_eq_false_1 ("A"%char ∈ CHARSET)). by vm_compute. }
  assert (Hnul : Forall (λ ch, ch ≠ NUL) (str "A1")) by (repeat constructor; done).
  destruct (@entry_points_validation toy_MD5 [] [] (str "A1") Hnul ltac:(done) Hbad)
    as (Hs & _ & _ & Hm).
  split; [exact Hbad|]. split; [exact Hs|exact Hm].
Defined.

(** * Work partitions *)

Section Strided.
Variables (total world_size : Z).
Hypothesis world_size_pos : 1 ≤ world_size.
Hypothesis no_wrap : total + world_size ≤ 2 ^ 64.

Lemma multiple_step (d : Z) :
  0 < d → d `mod` world_size = 0 → world_size ≤ d ∧ (d - world_size) `mod` world_size = 0.
Proof.
  intros Hd Hmod.
  apply Z.mod_divide in Hmod as [q Hq]; [|lia].
  assert (Hq1 : 1 ≤ q) by nia.
  split; [nia|].
  apply Z.mod_divide; [lia|]. exists (q - 1). lia.
Qed.

Lemma mpi_indices_elem (fuel : nat) (i x : Z) :
  0 ≤ i → total - i ≤ Z.of_nat fuel →
  x ∈ mpi_indices fuel total world_size i
  ↔ i ≤ x < total ∧ (x - i) `mod` world_size = 0.
Proof.
  revert i. induction fuel as [|fuel IH]; intros i Hi Hfuel; cbn [mpi_indices].
  - rewrite elem_of_nil. lia.
  - case_bool_decide as Hlt; [|rewrite elem_of_nil; lia].
    unfold wrap64. rewrite Z.mod_small by lia.
    rewrite elem_of_cons, IH by lia. split.
    + intros [->|[Hx Hmod]].
      * rewrite Z.sub_diag. split; [lia|]. apply Z.mod_0_l. lia.
      * split; [lia|]. apply Z.mod_divide; [lia|].
        apply Z.mod_divide in Hmod as [q Hq]; [|lia]. exists (q + 1). lia.
    + intros [Hx Hmod]. destruct (decide (x = i)) as [|Hne]; [by left|right].
      destruct (multiple_step (x - i)) as [Hge Hmod']; [lia|done|].
      split; [lia|]. by replace (x - (i + world_size)) with (x - i - world_size) by lia.
Qed.

Lemma mpi_indices_NoDup (fuel : nat) (i : Z) :
  0 ≤ i → total - i ≤ Z.of_nat fuel → NoDup (mpi_indices fuel total world_size i).
Proof.
  revert i. induction fuel as [|fuel IH]; intros i Hi Hfuel; cbn [mpi_indices].
  - constructor.
  - case_bool_decide as Hlt; [|constructor].
    unfold wrap64. rewrite Z.mod_small by lia. constructor.
    + rewrite mpi_indices_elem by lia. lia.
    + apply IH; lia.
Qed.

(** The indices of a rank are those below [total] congruent to it. *)
Lemma mpi_partition_elem (rank x : Z) :
  0 ≤ rank < world_size →
  x ∈ mpi_partition total world_size rank
  ↔ 0 ≤ x < total ∧ x `mod` world_size = rank.
Proof.
  intros Hrank. unfold mpi_partition. rewrite mpi_indices_elem by lia. split.
  - intros [Hx Hmod]. split; [lia|].
    apply Z.mod_divide in Hmod as [q Hq]; [|lia].
    replace x with (rank + q * world_size) by lia.
    rewrite Z.mod_add by lia. apply Z.mod_small. lia.
  - intros [Hx Hmod]. subst rank.
    pose proof (Z.mod_le x world_size). split; [lia|].
    rewrite Zminus_mod_idemp_r, Z.sub_diag. apply Z.mod_0_l. lia.
Qed.
End Strided.

Lemma kernel_loop_elem (n : nat) (i my_start total x : Z) :
  0 ≤ i → 0 ≤ my_start → my_start + i + Z.of_nat n ≤ 2 ^ 64 →
  x ∈ kernel_loop n i my_start total
  ↔ my_start + i ≤ x < my_start + i + Z.of_nat n ∧ x < total.
Proof.
  revert i. induction n as [|n IH]; intros i Hi Hs Hfit; cbn [kernel_loop].
  - rewrite elem_of_nil. lia.
  - unfold wrap64. rewrite !(Z.mod_small (my_start + i)) by lia.
    case_bool_decide as Hge; [rewrite elem_of_nil; lia|].
    rewrite elem_of_cons. destruct n as [|n].
    + cbn [kernel_loop]. rewrite elem_of_nil. lia.
    + rewrite Z.mod_small by lia. rewrite IH by lia. lia.
Qed.

(** A thread is given the block of [passwords_per_thread] indices that
    starts at its multiple, cut at the end of the keyspace. *)
Lemma kernel_indices_elem (per_thread total thread x : Z) :
  0 ≤ thread → 0 ≤ per_thread → (thread + 1) * per_thread ≤ 2 ^ 64 →
  x ∈ kernel_indices 0 per_thread total thread
  ↔ thread * per_thread ≤ x < (thread + 1) * per_thread ∧ x < total.
Proof.
  intros Ht Hp Hfit. unfold kernel_indices.
  assert (Hstart : 0 ≤ thread * per_thread < 2 ^ 64) by nia.
  unfold wrap64. rewrite Z.add_0_l, Z.mod_mod, Z.mod_small by done.
  case_bool_decide as Hge; [rewrite elem_of_nil; lia|].
  rewrite kernel_loop_elem by lia. lia.
Qed.

Lemma launch_threads_elem (blocks threads_per_block id : Z) :
  0 ≤ blocks → 0 ≤ threads_per_block → blocks * threads_per_block ≤ 2 ^ 32 →
  id ∈ launch_threads blocks threads_per_block ↔ 0 ≤ id < blocks * threads_per_block.
Proof.
  intros Hb Ht Hfit. unfold launch_threads. rewrite list_elem_of_bind. split.
  - intros (b & Hid & Hbin). apply list_elem_of_bind in Hid as (t & Hid & Htin).
    apply list_elem_of_singleton in Hid as ->.
    apply elem_of_seqZ in Hbin. apply elem_of_seqZ in Htin.
    unfold thread_id, wrap32. rewrite Z.mod_small by nia. nia.
  - intros Hid. exists (id `div` threads_per_block).
    assert (Htpb : 0 < threads_per_block) by nia.
    pose proof (Z.div_mod id threads_per_block ltac:(lia)) as Hdm.
    pose proof (Z.mod_pos_bound id threads_per_block Htpb) as Hm.
    assert (Hq : 0 ≤ id `div` threads_per_block < blocks).
    { split; [apply Z.div_pos; lia|]. apply Z.div_lt_upper_bound; lia. }
    split; [|apply elem_of_seqZ; lia].
    apply list_elem_of_bind. exists (id `mod` threads_per_block).
    split; [|apply elem_of_seqZ; lia].
    apply list_elem_of_singleton. unfold thread_id, wrap32.
    rewrite Z.mod_small by lia. lia.
Qed.

Section Blocks.
Variables (total blocks threads_per_block : Z).
Hypothesis blocks_nonneg : 0 ≤ blocks.
Hypothesis threads_nonneg : 0 ≤ threads_per_block.
Hypothesis ids_fit : blocks * threads_per_block ≤ 2 ^ 32.

(** No index is given to two threads of a launch. *)
Lemma kernel_indices_disjoint (t t' x : Z) :
  t ∈ launch_threads blocks threads_per_block →
  t' ∈ launch_threads blocks threads_per_block →
  x ∈ kernel_indices 0 passwords_per_thread total t →
  x ∈ kernel_indices 0 passwords_per_thread total t' →
  t = t'.
Proof.
  rewrite !launch_threads_elem by done. intros Ht Ht'.
  unfold passwords_per_thread.
  rewrite !kernel_indices_elem by lia. lia.
Qed.

(** The indices a launch hands out are those below both the size of
    the keyspace and the number of threads times [passwords_per_thread]. *)
Lemma kernel_indices_cover (x : Z) :
  (∃ t, t ∈ launch_threads blocks threads_per_block
        ∧ x ∈ kernel_indices 0 passwords_per_thread total t)
  ↔ 0 ≤ x < total ∧ x < blocks * threads_per_block * passwords_per_thread.
Proof.
  unfold passwords_per_thread. split.
  - intros (t & Ht & Hx). apply launch_threads_elem in Ht; [|done..].
    apply kernel_indices_elem in Hx; lia.
  - intros [Hx Hlt]. exists (x `div` 100).
    pose proof (Z.div_mod x 100 ltac:(lia)) as Hdm.
    pose proof (Z.mod_pos_bound x 100 ltac:(lia)) as Hm.
    assert (Hq : 0 ≤ x `div` 100 < blocks * threads_per_block).
    { split; [apply Z.div_pos; lia|]. apply Z.div_lt_upper_bound; lia. }
    split; [apply launch_threads_elem; done|].
    apply kernel_indices_elem; lia.
Qed.
End Blocks.

(** C4.  The strided partition of [mpi_crack] is an exact disjoint cover
    of the indices below [total]: rank [r] of [world_size] visits, once
    each, the indices congruent to [r].  The blocks of
    [crack_password_kernel] are disjoint, and a launch covers exactly the
    indices below both [total] and the number of threads times
    [passwords_per_thread]: the launch of [./cuda_password_hash 1 1] on a
    two-letter password hands out the indices 0 to 99 of 676. *)
Theorem partitions_cover :
  (∀ total world_size, 1 ≤ world_size → total + world_size ≤ 2 ^ 64 →
     ∀ rank, 0 ≤ rank < world_size →
       NoDup (mpi_partition total world_size rank)
       ∧ ∀ x, x ∈ mpi_partition total world_size rank
              ↔ 0 ≤ x < total ∧ x `mod` world_size = rank)
  ∧ (∀ total blocks threads_per_block,
       0 ≤ blocks → 0 ≤ threads_per_block → blocks * threads_per_block ≤ 2 ^ 32 →
       (∀ t t' x,
          t ∈ launch_threads blocks threads_per_block →
          t' ∈ launch_threads blocks threads_per_block →
          x ∈ kernel_indices 0 passwords_per_thread total t →
          x ∈ kernel_indices 0 passwords_per_thread total t' → t = t')
       ∧ ∀ x, (∃ t, t ∈ launch_threads blocks threads_per_block
                    ∧ x ∈ kernel_indices 0 passwords_per_thread total t)
              ↔ 0 ≤ x < total ∧ x < blocks * threads_per_block * passwords_per_thread)
  ∧ calculate_combinations 2 = 676
  ∧ cuda_partitions 2 1 1 = [seqZ 0 100].
Proof.
  split; [|split; [|split]].
  - intros total world_size HW Hfit rank Hrank. split.
    + apply mpi_indices_NoDup; lia.
    + intros x. by apply mpi_partition_elem.
  - intros total blocks threads_per_block Hb Ht Hfit. split.
    + apply kernel_indices_disjoint; done.
    + apply kernel_indices_cover; done.
  - reflexivity.
  - by vm_compute.
Qed.

Lemma partitions_cover_witness :
  337135 ∈ mpi_partition 456976 4 3 ∧ ¬ 337135 ∈ mpi_partition 456976 4 0.
Proof.
  destruct partitions_cover as (Hmpi & _).
  assert (Hfit : 456976 + 4 ≤ 2 ^ 64) by (by vm_compute).
  split.
  - apply (Hmpi 456976 4 ltac:(lia) Hfit 3 ltac:(lia)). by vm_compute.
  - intros Hin. apply (Hmpi 456976 4 ltac:(lia) Hfit 0 ltac:(lia)) in Hin as [_ Hmod].
    by vm_compute in Hmod.
Defined.

(** * Progress collection *)

Lemma pending_insert_ne (mail : mailbox) (p q : Z) (rest : list Z) :
  p ≠ q → pending (<[p := rest]> mail) q = pending mail q.
Proof. intros Hne. unfold pending. by rewrite lookup_insert_ne. Qed.

Lemma collect_progress_loop_spec (n : nat) (p : Z) (mail : mailbox) (total_progress : Z) :
  0 ≤ total_progress < 2 ^ 64 →
  let '(figure, mail') := collect_progress_loop n p mail total_progress in
  figure = wrap64 (total_progress + Zsum (pending mail <$> seqZ p (Z.of_nat n)))
  ∧ ∀ q, mail' !! q = if bool_decide (p ≤ q < p + Z.of_nat n)
                      then tail <$> mail !! q else mail !! q.
Proof.
  revert p mail total_progress. induction n as [|n IH]; intros p mail t Ht.
  - cbn [collect_progress_loop]. split.
    + simpl. unfold wrap64. by rewrite Z.add_0_r, Z.mod_small.
    + intros q. by rewrite bool_decide_false by lia.
  - cbn [collect_progress_loop].
    rewrite Nat2Z.inj_succ, seqZ_cons by lia. cbn [fmap list_fmap Zsum foldr].
    replace (Z.pred (Z.succ (Z.of_nat n))) with (Z.of_nat n) by lia.
    replace (Z.succ p) with (p + 1) by lia.
    assert (Hlater : ∀ rest, pending (<[p := rest]> mail) <$> seqZ (p + 1) (Z.of_nat n)
                             = pending mail <$> seqZ (p + 1) (Z.of_nat n)).
    { intros rest. apply list_fmap_ext. intros i q Hq.
      apply pending_insert_ne. apply lookup_seqZ in Hq. lia. }
    unfold pending at 1.
    destruct (mail !! p) as [[|worker_count rest]|] eqn:Hp.
    + specialize (IH (p + 1) mail t Ht).
      destruct (collect_progress_loop n (p + 1) mail t) as [figure mail'].
      destruct IH as [-> Hmail]. split; [done|].
      intros q. rewrite Hmail. repeat case_bool_decide; try lia; try done.
      assert (q = p) as -> by lia. by rewrite Hp.
    + specialize (IH (p + 1) (<[p := rest]> mail) (wrap64 (t + worker_count))
                     ltac:(by apply Z.mod_pos_bound)).
      destruct (collect_progress_loop n (p + 1) (<[p := rest]> mail) _) as [figure mail'].
      destruct IH as [-> Hmail]. split.
      * rewrite Hlater. unfold wrap64, Zsum. rewrite Zplus_mod_idemp_l. f_equal. lia.
      * intros q. rewrite Hmail. repeat case_bool_decide; try lia.
        -- by rewrite lookup_insert_ne by lia.
        -- assert (q = p) as -> by lia. by rewrite lookup_insert_eq, Hp.
        -- by rewrite lookup_insert_ne by lia.
    + specialize (IH (p + 1) mail t Ht).
      destruct (collect_progress_loop n (p + 1) mail t) as [figure mail'].
      destruct IH as [-> Hmail]. split; [done|].
      intros q. rewrite Hmail. repeat case_bool_decide; try lia; try done.
      assert (q = p) as -> by lia. by rewrite Hp.
Qed.

(** Two successive rounds of a three-rank run: both workers' first
    reports are pending in the first round, none in the second. *)
Lemma progress_figure_decreases :
  let mail : mailbox := {[ 1 := [50000]; 2 := [50000] ]} in
  let round1 := collect_progress 3 50000 mail in
  let round2 := collect_progress 3 100000 round1.2 in
  round1.1 = 150000 ∧ round2.1 = 100000 ∧ round2.1 < round1.1
  ∧ pending round1.2 1 = 0 ∧ pending round1.2 2 = 0.
Proof. by vm_compute. Qed.

(** C6 (amended).  Each collection round of rank 0 prints its own
    counter plus the oldest pending report of every other rank that has
    one, modulo [2^64], and consumes exactly those reports: no report is
    added twice, a rank without a pending report adds zero, and nothing
    of an earlier round is kept, so the figure may go down from one
    round to the next. *)
Theorem collect_progress_round (world_size counter : Z) (mail : mailbox) :
  0 ≤ counter < 2 ^ 64 →
  1 ≤ world_size →
  (collect_progress world_size counter mail).1
  = wrap64 (counter + Zsum (pending mail <$> seqZ 1 (world_size - 1)))
  ∧ (∀ q, 1 ≤ q < world_size →
       (collect_progress world_size counter mail).2 !! q = tail <$> mail !! q)
  ∧ (∀ q, ¬ (1 ≤ q < world_size) →
       (collect_progress world_size counter mail).2 !! q = mail !! q).
Proof.
  intros Hcounter Hsize. unfold collect_progress.
  pose proof (collect_progress_loop_spec (Z.to_nat (world_size - 1)) 1 mail counter Hcounter)
    as Hloop.
  destruct (collect_progress_loop _ 1 mail counter) as [figure mail'].
  rewrite Z2Nat.id in Hloop by lia. destruct Hloop as [-> Hmail].
  split; [done|]. split; intros q Hq; cbn [snd]; rewrite Hmail.
  - by rewrite bool_decide_true by lia.
  - by rewrite bool_decide_false by lia.
Qed.

Lemma collect_progress_round_witness :
  (collect_progress 3 100000 {[ 1 := [50000; 100000] ]}).1 = 150000
  ∧ (collect_progress 3 100000 {[ 1 := [50000; 100000] ]}).2 !! 1 = Some [100000].
Proof.
  destruct (collect_progress_round 3 100000 {[ 1 := [50000; 100000] ]})
    as (Hfigure & Hpop & _).
  - by vm_compute.
  - lia.
  - split.
    + rewrite Hfigure. by vm_compute.
    + rewrite Hpop by lia. by vm_compute.
Defined.

(** With the grid size [crack_password_cuda] computes itself (no block
    count on the command line) every index of a keyspace of up to
    [2^37] candidates is handed to a thread. *)
Lemma cuda_auto_launch_covers (total threads_per_block num_blocks x : Z) :
  num_blocks ≤ 0 → 1 ≤ threads_per_block < 2 ^ 31 → total ≤ 2 ^ 37 →
  0 ≤ x < total →
  ∃ t, t ∈ launch_threads (cuda_blocks total threads_per_block num_blocks) threads_per_block
       ∧ x ∈ kernel_indices 0 passwords_per_thread total t.
Proof.
  intros Hauto Htpb Htotal Hx.
  assert (H37 : 2 ^ 37 = 137438953472) by reflexivity.
  assert (H31 : 2 ^ 31 = 2147483648) by reflexivity.
  assert (H32 : 2 ^ 32 = 4294967296) by reflexivity.
  assert (H64 : 2 ^ 64 = 18446744073709551616) by reflexivity.
  unfold cuda_blocks. rewrite bool_decide_false by lia.
  unfold passwords_per_thread, wrap64.
  rewrite (Z.mod_small (total + 100)) by lia.
  rewrite (Z.mod_small (total + 100 - 1)) by lia.
  set (needed := (total + 100 - 1) `div` 100).
  assert (Hneeded : total ≤ needed * 100 ∧ 0 ≤ needed ≤ 1374389535).
  { subst needed.
    pose proof (Z.div_mod (total + 100 - 1) 100 ltac:(lia)) as Hdm.
    pose proof (Z.mod_pos_bound (total + 100 - 1) 100 ltac:(lia)) as Hm. lia. }
  rewrite (Z.mod_small (needed + threads_per_block)) by lia.
  rewrite (Z.mod_small (needed + threads_per_block - 1)) by lia.
  rewrite (Z.mod_small threads_per_block) by lia.
  set (blocks := (needed + threads_per_block - 1) `div` threads_per_block).
  assert (Hblocks : needed ≤ blocks * threads_per_block ∧ 0 ≤ blocks ≤ needed).
  { subst blocks.
    pose proof (Z.div_mod (needed + threads_per_block - 1) threads_per_block ltac:(lia)) as Hdm.
    pose proof (Z.mod_pos_bound (needed + threads_per_block - 1) threads_per_block ltac:(lia))
      as Hm.
    assert (Hone : 1 ≤ needed) by lia.
    split; [nia|]. split; [apply Z.div_pos; lia|].
    apply Z.div_le_upper_bound; [lia|].
    assert (0 ≤ (threads_per_block - 1) * (needed - 1)) by (apply Z.mul_nonneg_nonneg; lia).
    lia. }
  assert (Hint : to_int blocks = blocks).
  { unfold to_int, wrap32. rewrite Z.mod_small by lia. rewrite bool_decide_true by lia. done. }
  rewrite Hint.
  assert (Hids : blocks * threads_per_block ≤ 2 ^ 32).
  { pose proof (Z.div_mod (needed + threads_per_block - 1) threads_per_block ltac:(lia)) as Hdm.
    pose proof (Z.mod_pos_bound (needed + threads_per_block - 1) threads_per_block ltac:(lia))
      as Hm.
    fold blocks in Hdm. nia. }
  apply (kernel_indices_cover total blocks threads_per_block); [lia..|].
  unfold passwords_per_thread. nia.
Qed.

Example crack_serial_exhausts_length_3 :
  @crack_password_serial toy_MD5 [] (str "B" ++ [NUL]) 3
  = Returns {| ret := 0; attempts := 17576; password := None |}.
Proof. by vm_compute. Qed.

Example serial_main_accepts :
  @serial_main toy_MD5 [] [] (str "cab")
  = Returns {| exit_code := 0; searched := Some (str "cab" ++ replicate 8 NUL, 3) |}.
Proof. by vm_compute. Qed.

(** The ten-letter word [main] admits, evaluated directly. *)
Example crack_serial_length_10 :
  @crack_password_serial toy_MD5 [] (str "aaaaaaaaaa" ++ [NUL]) 10 = Undefined.
Proof. lazy. reflexivity. Qed.

Example cuda_one_block_of_one_thread :
  cuda_partitions 2 1 1 = [seqZ 0 100] ∧ 675 < calculate_combinations 2.
Proof. split; by vm_compute. Qed.

(** * Hexadecimal display *)

Lemma hex_value_digit (k : Z) :
  0 ≤ k < 16 → hex_value (hex_digit k) = k ∧ hex_digit k ∈ HEX_DIGITS ∧ hex_digit k ≠ NUL.
Proof.
  intros Hk. rewrite <- (Z2Nat.id k) at 2 by lia.
  assert (Hc : (Z.to_nat k < 16)%nat) by lia.
  unfold hex_digit. clear Hk. revert Hc. generalize (Z.to_nat k). intros n Hn.
  do 16 (destruct n as [|n]; [split; [reflexivity|split; [set_solver|done]]|]). lia.
Qed.

Lemma byte_value_range (b : byte) : 0 ≤ byte_value b < 256.
Proof. unfold byte_value. pose proof (Byte.to_N_bounded b). lia. Qed.

Lemma byte_value_inj (b1 b2 : byte) : byte_value b1 = byte_value b2 → b1 = b2.
Proof.
  unfold byte_value. intros Heq.
  assert (Hn : Byte.to_N b1 = Byte.to_N b2) by lia.
  pose proof (Byte.of_to_N b1) as H1. pose proof (Byte.of_to_N b2) as H2. congruence.
Qed.

Lemma hex_of_bytes_length (hash : list byte) :
  length (hex_of_bytes hash) = (2 * length hash)%nat.
Proof.
  unfold hex_of_bytes. induction hash as [|b hash IH]; [done|].
  rewrite bind_cons, length_app, IH. simpl. lia.
Qed.

Lemma hex_of_bytes_digits (hash : list byte) :
  Forall (λ ch, ch ∈ HEX_DIGITS ∧ ch ≠ NUL) (hex_of_bytes hash).
Proof.
  unfold hex_of_bytes. induction hash as [|b hash IH]; [constructor|].
  rewrite bind_cons. pose proof (byte_value_range b) as Hb.
  apply Forall_app. split; [|done].
  apply Forall_cons. split.
  { apply hex_value_digit.
    split; [apply Z.div_pos; lia|apply Z.div_lt_upper_bound; lia]. }
  apply Forall_cons. split; [|constructor].
  apply hex_value_digit, Z.mod_pos_bound. lia.
Qed.

Lemma hex_of_bytes_inj (h1 h2 : list byte) :
  hex_of_bytes h1 = hex_of_bytes h2 → h1 = h2.
Proof.
  revert h2. induction h1 as [|b1 h1 IH]; intros [|b2 h2] Heq; try done.
  unfold hex_of_bytes in Heq. rewrite !bind_cons in Heq.
  simpl in Heq. injection Heq as Hhi Hlo Hrest.
  pose proof (byte_value_range b1) as Hb1. pose proof (byte_value_range b2) as Hb2.
  assert (Hnib : ∀ v, 0 ≤ v < 256 → 0 ≤ v `div` 16 < 16 ∧ 0 ≤ v `mod` 16 < 16).
  { intros v Hv. split; [|apply Z.mod_pos_bound; lia].
    split; [apply Z.div_pos; lia|apply Z.div_lt_upper_bound; lia]. }
  destruct (Hnib _ Hb1) as [Hq1 Hr1]. destruct (Hnib _ Hb2) as [Hq2 Hr2].
  assert (Hq : byte_value b1 `div` 16 = byte_value b2 `div` 16).
  { apply (f_equal hex_value) in Hhi.
    by rewrite (proj1 (hex_value_digit _ Hq1)), (proj1 (hex_value_digit _ Hq2)) in Hhi. }
  assert (Hr : byte_value b1 `mod` 16 = byte_value b2 `mod` 16).
  { apply (f_equal hex_value) in Hlo.
    by rewrite (proj1 (hex_value_digit _ Hr1)), (proj1 (hex_value_digit _ Hr2)) in Hlo. }
  f_equal.
  - apply byte_value_inj.
    rewrite (Z.div_mod (byte_value b1) 16), (Z.div_mod (byte_value b2) 16) by lia. lia.
  - by apply IH.
Qed.

Lemma sprintf_02x_store_string (output : list ascii) (offset value : Z) :
  sprintf_02x output offset value
  = store_string output offset
      [hex_digit (value `div` 16); hex_digit (value `mod` 16)].
Proof.
  unfold sprintf_02x. cbn [store_string].
  by replace (offset + 1 + 1) with (offset + 2) by lia.
Qed.

Lemma store_string_length (word a a' : list ascii) (i : Z) :
  store_string a i word = Some a' → length a' = length a.
Proof.
  revert a i. induction word as [|ch word IH]; intros a i; cbn [store_string].
  - apply store_length.
  - destruct (store a i ch) as [a1|] eqn:Hstore; [|done]. cbn [mbind option_bind].
    intros Hrest. apply IH in Hrest. apply store_length in Hstore. congruence.
Qed.

Lemma hash_to_hex_loop_Some (n : nat) (i : nat) (hash : list byte) (output r : list ascii) :
  hash_to_hex_loop n (Z.of_nat i) hash output = Some r →
  ((0 < n)%nat → (i + n ≤ length hash)%nat) ∧ length r = length output.
Proof.
  revert i output. induction n as [|n IH]; intros i output; cbn [hash_to_hex_loop].
  - intros [= <-]. lia.
  - rewrite Nat2Z.id.
    destruct (hash !! i) as [b|] eqn:Hb; [|done]. cbn [mbind option_bind].
    destruct (sprintf_02x output (Z.of_nat i * 2) (byte_value b)) as [o|] eqn:Ho; [|done].
    cbn [mbind option_bind].
    replace (Z.of_nat i + 1) with (Z.of_nat (S i)) by lia.
    intros Hrest. apply IH in Hrest as [Hle Hlen].
    rewrite sprintf_02x_store_string in Ho. apply store_string_length in Ho.
    apply lookup_lt_Some in Hb. split; [|congruence].
    intros _. destruct n; lia.
Qed.

Lemma hash_to_hex_loop_spec (n : nat) (i : nat) (hash : list byte) (output : list ascii) :
  (i + n ≤ length hash)%nat → (2 * (i + n) + 1 ≤ length output)%nat →
  ∃ r, hash_to_hex_loop n (Z.of_nat i) hash output = Some r
       ∧ take (2 * (i + n)) r
         = take (2 * i) output ++ hex_of_bytes (take n (drop i hash))
       ∧ drop (2 * (i + n) + 1) r = drop (2 * (i + n) + 1) output.
Proof.
  revert i output. induction n as [|n IH]; intros i output Hhash Hout.
  - exists output. cbn [hash_to_hex_loop]. split; [done|].
    rewrite take_0, Nat.add_0_r. unfold hex_of_bytes. simpl.
    by rewrite app_nil_r.
  - cbn [hash_to_hex_loop]. rewrite Nat2Z.id.
    destruct (lookup_lt_is_Some_2 hash i) as [b Hb]; [lia|].
    rewrite Hb. cbn [mbind option_bind].
    rewrite sprintf_02x_store_string.
    replace (Z.of_nat i * 2) with (Z.of_nat (2 * i)) by lia.
    rewrite store_string_spec by (simpl; lia). cbn [mbind option_bind].
    replace (Z.of_nat i + 1) with (Z.of_nat (S i)) by lia.
    set (o := take (2 * i) output ++ _).
    assert (Hlen : length o = length output).
    { subst o. rewrite !length_app, length_take. cbn [length].
      rewrite length_drop. simpl. lia. }
    destruct (IH (S i) o) as (r & Hr & Htake & Hdrop); [lia|lia|].
    exists r. split; [done|].
    replace (2 * (i + S n))%nat with (2 * (S i + n))%nat by lia.
    rewrite Htake, Hdrop. split.
    + rewrite (drop_S hash b i Hb). cbn [take].
      unfold hex_of_bytes at 2. rewrite bind_cons.
      fold (hex_of_bytes (take n (drop (S i) hash))).
      rewrite (app_assoc (take (2 * i) output)). f_equal.
      subst o. rewrite (app_assoc (take (2 * i) output)).
      apply take_app_length'. rewrite length_app, length_take. simpl. lia.
    + subst o. rewrite (app_assoc (take (2 * i) output)).
      change (?l ++ NUL :: ?r) with (l ++ [NUL] ++ r).
      rewrite (app_assoc _ [NUL]).
      rewrite drop_app_ge by (rewrite !length_app, length_take; simpl; lia).
      rewrite !length_app, length_take. cbn [length].
      rewrite drop_drop. f_equal. lia.
Qed.

Lemma hash_to_hex_result (hash : list byte) (output : list ascii) :
  (16 ≤ length hash)%nat → (33 ≤ length output)%nat →
  hash_to_hex hash output
  = Some (hex_of_bytes (take 16 hash) ++ NUL :: drop 33 output).
Proof.
  intros Hhash Hout. unfold hash_to_hex.
  destruct (hash_to_hex_loop_spec 16 0 hash output) as (r & Hr & Htake & Hdrop);
    [simpl; lia..|].
  change (Z.to_nat MD5_DIGEST_LENGTH) with 16%nat. change (Z.of_nat 0) with 0 in Hr.
  rewrite Hr. cbn [mbind option_bind].
  apply hash_to_hex_loop_Some with (i := 0%nat) in Hr as [_ Hlen].
  rewrite store_Some by (unfold MD5_DIGEST_LENGTH; lia).
  change (Z.to_nat (MD5_DIGEST_LENGTH * 2)) with 32%nat.
  rewrite insert_take_drop by lia. simpl in Htake, Hdrop.
  by rewrite Htake, Hdrop, drop_0.
Qed.

Lemma hash_to_hex_Some (hash : list byte) (output r : list ascii) :
  hash_to_hex hash output = Some r → (16 ≤ length hash)%nat ∧ (33 ≤ length output)%nat.
Proof.
  unfold hash_to_hex. change (Z.to_nat MD5_DIGEST_LENGTH) with 16%nat.
  destruct (hash_to_hex_loop 16 0 hash output) as [r0|] eqn:Hr0; [|done].
  cbn [mbind option_bind]. intros Hstore.
  apply hash_to_hex_loop_Some with (i := 0%nat) in Hr0 as [Hhash Hlen].
  split; [apply Hhash; lia|].
  unfold store in Hstore. case_bool_decide as Hin; [|done].
  unfold MD5_DIGEST_LENGTH in Hin. lia.
Qed.

(** X1.  [hash_to_hex] of the serial and OpenMP programs stays inside its
    arrays exactly when the hash has 16 bytes to read and the output has
    the 33 cells its callers declare; it then leaves a string of 32
    characters, all of them digits of "0123456789abcdef", and does not
    touch the cells behind the terminator. *)
Theorem hash_to_hex_shape (hash : list byte) (output : list ascii) :
  (is_Some (hash_to_hex hash output)
   ↔ (16 ≤ length hash)%nat ∧ (33 ≤ length output)%nat)
  ∧ ∀ r, hash_to_hex hash output = Some r →
      ∃ hex, cstring r = Some hex ∧ length hex = 32%nat
             ∧ Forall (λ ch, ch ∈ HEX_DIGITS) hex
             ∧ length r = length output ∧ drop 33 r = drop 33 output.
Proof.
  split.
  - split.
    + intros [r Hr]. by apply hash_to_hex_Some in Hr.
    + intros [Hhash Hout]. rewrite hash_to_hex_result by done. by eexists.
  - intros r Hr. destruct (hash_to_hex_Some _ _ _ Hr) as [Hhash Hout].
    rewrite hash_to_hex_result in Hr by done. injection Hr as <-.
    pose proof (hex_of_bytes_digits (take 16 hash)) as Hdigits.
    assert (Hlen : length (hex_of_bytes (take 16 hash)) = 32%nat).
    { rewrite hex_of_bytes_length, length_take. lia. }
    exists (hex_of_bytes (take 16 hash)). split; [|split; [done|split; [|split]]].
    + apply cstring_app. eapply Forall_impl; [exact Hdigits|]. by intros ch [_ ?].
    + eapply Forall_impl; [exact Hdigits|]. by intros ch [? _].
    + rewrite length_app, Hlen. cbn [length]. rewrite length_drop. lia.
    + change (?l ++ NUL :: ?r) with (l ++ [NUL] ++ r). rewrite app_assoc.
      rewrite drop_app_length'; [done|]. rewrite length_app, Hlen. simpl. lia.
Qed.

(** X2.  The string [hash_to_hex] leaves determines the hash: two calls
    that leave the same string were given the same 16 bytes. *)
Theorem hash_to_hex_injective (hash1 hash2 : list byte) (out1 out2 r1 r2 : list ascii) :
  hash_to_hex hash1 out1 = Some r1 →
  hash_to_hex hash2 out2 = Some r2 →
  cstring r1 = cstring r2 →
  take 16 hash1 = take 16 hash2.
Proof.
  intros H1 H2 Heq.
  destruct (hash_to_hex_Some _ _ _ H1) as [Hh1 Ho1].
  destruct (hash_to_hex_Some _ _ _ H2) as [Hh2 Ho2].
  rewrite hash_to_hex_result in H1, H2 by done.
  injection H1 as <-. injection H2 as <-.
  assert (Hstr : ∀ h rest, cstring (hex_of_bytes h ++ NUL :: rest) = Some (hex_of_bytes h)).
  { intros h rest. apply cstring_app.
    eapply Forall_impl; [apply hex_of_bytes_digits|]. by intros ch [_ ?]. }
  rewrite !Hstr in Heq. injection Heq as Heq. by apply hex_of_bytes_inj.
Qed.

Lemma hash_to_hex_injective_witness :
  take 16 (toy_digest (str "abc")) = take 16 (toy_digest (str "abc") ++ [x00]).
Proof.
  eapply (hash_to_hex_injective _ _ (replicate 33 NUL) (replicate 40 "x"%char));
    vm_compute; reflexivity.
Defined.

(** X3.  [number_to_password] stays inside the array exactly when the
    array has a cell for each of the [length] characters and one for the
    terminator; it then keeps the size of the array and leaves every cell
    behind the terminator as it was. *)
Theorem number_to_password_room (num : Z) (a : list ascii) (len : Z) :
  (is_Some (number_to_password num a len) ↔ 0 ≤ len < Z.of_nat (length a))
  ∧ ∀ a', number_to_password num a len = Some a' →
      length a' = length a
      ∧ drop (S (Z.to_nat len)) a' = drop (S (Z.to_nat len)) a.
Proof.
  split.
  - split.
    + intros [a' Ha']. by apply number_to_password_cstring in Ha' as (_ & _ & ?).
    + intros Hlen. rewrite number_to_password_spec by done. by eexists.
  - intros a' Ha'.
    destruct (number_to_password_cstring _ _ _ _ Ha') as (_ & Hlength & Hlen).
    split; [done|].
    rewrite number_to_password_spec in Ha' by done. injection Ha' as <-.
    change (?l ++ NUL :: ?r) with (l ++ [NUL] ++ r). rewrite app_assoc.
    rewrite drop_app_length'; [done|].
    rewrite length_app, decode_length. simpl. lia.
Qed.

(** * The target hash of the CUDA program *)

Lemma land_shiftl_low (x y n : Z) :
  0 ≤ n → 0 ≤ x < 2 ^ n → Z.land x (Z.shiftl y n) = 0.
Proof.
  intros Hn Hx. apply Z.bits_inj'. intros i Hi.
  rewrite Z.land_spec, Z.bits_0.
  destruct (decide (i < n)) as [Hlt|Hge].
  - rewrite Z.shiftl_spec_low by done. apply andb_false_r.
  - assert (Hbit : Z.testbit x i = false).
    { apply Z.testbit_false; [done|].
      rewrite Z.div_small; [done|].
      split; [lia|]. apply Z.lt_le_trans with (2 ^ n); [lia|].
      apply Z.pow_le_mono_r; lia. }
    by rewrite Hbit.
Qed.

Lemma lor_shiftl_add (x y n : Z) :
  0 ≤ n → 0 ≤ x < 2 ^ n → Z.lor x (Z.shiftl y n) = x + y * 2 ^ n.
Proof.
  intros Hn Hx.
  pose proof (Z.add_lor_land x (Z.shiftl y n)) as Hadd.
  rewrite land_shiftl_low, Z.add_0_r in Hadd by done.
  by rewrite Hadd, Z.shiftl_mul_pow2.
Qed.

Lemma pack_bytes (b0 b1 b2 b3 : Z) :
  0 ≤ b0 < 256 → 0 ≤ b1 < 256 → 0 ≤ b2 < 256 → 0 ≤ b3 < 256 →
  wrap32 (Z.lor (Z.lor (Z.lor b0 (Z.shiftl b1 8)) (Z.shiftl b2 16)) (Z.shiftl b3 24))
  = b0 + b1 * 2 ^ 8 + b2 * 2 ^ 16 + b3 * 2 ^ 24.
Proof.
  intros H0 H1 H2 H3.
  rewrite (lor_shiftl_add b0 b1 8) by lia.
  rewrite (lor_shiftl_add _ b2 16) by lia.
  rewrite (lor_shiftl_add _ b3 24) by lia.
  unfold wrap32. apply Z.mod_small. lia.
Qed.

Lemma unpack_bytes (b0 b1 b2 b3 k : Z) :
  0 ≤ b0 < 256 → 0 ≤ b1 < 256 → 0 ≤ b2 < 256 → 0 ≤ b3 < 256 → 0 ≤ k < 4 →
  ((b0 + b1 * 2 ^ 8 + b2 * 2 ^ 16 + b3 * 2 ^ 24) `div` 2 ^ (8 * k)) `mod` 256
  = nth (Z.to_nat k) [b0; b1; b2; b3] 0.
Proof.
  intros H0 H1 H2 H3 Hk.
  assert (Hcases : k = 0 ∨ k = 1 ∨ k = 2 ∨ k = 3) by lia.
  destruct Hcases as [-> | [-> | [-> | ->]]];
    [change (nth (Z.to_nat 0) [b0; b1; b2; b3] 0) with b0
    |change (nth (Z.to_nat 1) [b0; b1; b2; b3] 0) with b1
    |change (nth (Z.to_nat 2) [b0; b1; b2; b3] 0) with b2
    |change (nth (Z.to_nat 3) [b0; b1; b2; b3] 0) with b3];
    change (8 * 0) with 0; change (8 * 1) with 8; change (8 * 2) with 16;
    change (8 * 3) with 24.
  - rewrite Z.pow_0_r, Z.div_1_r.
    replace (b0 + b1 * 2 ^ 8 + b2 * 2 ^ 16 + b3 * 2 ^ 24)
      with (b0 + (b1 + b2 * 2 ^ 8 + b3 * 2 ^ 16) * 256) by lia.
    rewrite Z.mod_add by lia. apply Z.mod_small. lia.
  - replace (b0 + b1 * 2 ^ 8 + b2 * 2 ^ 16 + b3 * 2 ^ 24)
      with (b0 + (b1 + (b2 + b3 * 2 ^ 8) * 256) * 2 ^ 8) by lia.
    rewrite Z.div_add, (Z.div_small b0) by lia.
    rewrite Z.add_0_l, Z.mod_add by lia. apply Z.mod_small. lia.
  - replace (b0 + b1 * 2 ^ 8 + b2 * 2 ^ 16 + b3 * 2 ^ 24)
      with (b0 + b1 * 2 ^ 8 + (b2 + b3 * 256) * 2 ^ 16) by lia.
    rewrite Z.div_add, (Z.div_small (b0 + b1 * 2 ^ 8)) by lia.
    rewrite Z.add_0_l, Z.mod_add by lia. apply Z.mod_small. lia.
  - rewrite Z.div_add, (Z.div_small (b0 + b1 * 2 ^ 8 + b2 * 2 ^ 16)) by lia.
    rewrite Z.add_0_l. apply Z.mod_small. lia.
Qed.

Lemma compute_target_hash_loop_spec (n i : nat) (hash_bytes : list byte) :
  (4 * (i + n) ≤ length hash_bytes)%nat →
  ∃ ws, compute_target_hash_loop n (Z.of_nat i) hash_bytes = Some ws
        ∧ length ws = n
        ∧ ∀ w k : nat, (w < n)%nat → (k < 4)%nat →
            ∃ word b, ws !! w = Some word
                      ∧ hash_bytes !! (4 * (i + w) + k)%nat = Some b
                      ∧ (word `div` 2 ^ (8 * Z.of_nat k)) `mod` 256 = byte_value b.
Proof.
  revert i. induction n as [|n IH]; intros i Hlen.
  - exists []. split; [done|]. split; [done|]. intros w k Hw. lia.
  - cbn [compute_target_hash_loop].
    replace (Z.to_nat (Z.of_nat i * 4 + 0)) with (4 * i)%nat by lia.
    replace (Z.to_nat (Z.of_nat i * 4 + 1)) with (4 * i + 1)%nat by lia.
    replace (Z.to_nat (Z.of_nat i * 4 + 2)) with (4 * i + 2)%nat by lia.
    replace (Z.to_nat (Z.of_nat i * 4 + 3)) with (4 * i + 3)%nat by lia.
    destruct (lookup_lt_is_Some_2 hash_bytes (4 * i)) as [b0 Hb0]; [lia|].
    destruct (lookup_lt_is_Some_2 hash_bytes (4 * i + 1)) as [b1 Hb1]; [lia|].
    destruct (lookup_lt_is_Some_2 hash_bytes (4 * i + 2)) as [b2 Hb2]; [lia|].
    destruct (lookup_lt_is_Some_2 hash_bytes (4 * i + 3)) as [b3 Hb3]; [lia|].
    rewrite Hb0, Hb1, Hb2, Hb3. cbn [mbind option_bind].
    replace (Z.of_nat i + 1) with (Z.of_nat (S i)) by lia.
    destruct (IH (S i)) as (ws & -> & Hws & Hbytes); [lia|].
    cbn [mbind option_bind]. eexists. split; [done|]. split; [simpl; lia|].
    intros w k Hw Hk. destruct w as [|w].
    + pose proof (byte_value_range b0). pose proof (byte_value_range b1).
      pose proof (byte_value_range b2). pose proof (byte_value_range b3).
      rewrite pack_bytes by done. cbn [lookup list_lookup].
      assert (Hb : ∃ b, hash_bytes !! (4 * (i + 0) + k)%nat = Some b
                        ∧ nth (Z.to_nat (Z.of_nat k))
                            [byte_value b0; byte_value b1; byte_value b2; byte_value b3] 0
                          = byte_value b).
      { rewrite Nat2Z.id, Nat.add_0_r.
        destruct k as [|[|[|[|k]]]]; [rewrite Nat.add_0_r|..|lia]; eauto. }
      destruct Hb as (b & Hb & Hnth).
      eexists _, b. split; [done|]. split; [done|].
      rewrite <- Hnth. apply unpack_bytes; lia.
    + destruct (Hbytes w k) as (word & b & Hword & Hb & Hval); [lia|done|].
      exists word, b. split; [done|]. split; [|done].
      by replace (4 * (i + S w) + k)%nat with (4 * (S i + w) + k)%nat by lia.
Qed.

Lemma cuda_hash_to_hex_loop_agrees (n : nat) (i : nat) (ws : list Z) (hash : list byte)
    (out : list ascii) :
  (∀ j : nat, (i ≤ j < i + n)%nat →
     word_array_byte ws (Z.of_nat j) = byte_value <$> hash !! j) →
  cuda_hash_to_hex_loop n (Z.of_nat i) ws out = hash_to_hex_loop n (Z.of_nat i) hash out.
Proof.
  revert i out. induction n as [|n IH]; intros i out Hbytes; [done|].
  cbn [cuda_hash_to_hex_loop hash_to_hex_loop].
  rewrite Hbytes, Nat2Z.id by lia.
  destruct (hash !! i) as [b|]; [|done]. cbn [fmap option_fmap option_map mbind option_bind].
  destruct (sprintf_02x out (Z.of_nat i * 2) (byte_value b)) as [out'|]; [|done].
  cbn [mbind option_bind].
  replace (Z.of_nat i + 1) with (Z.of_nat (S i)) by lia.
  apply IH. intros j Hj. apply Hbytes. lia.
Qed.

(** X4.  [compute_target_hash] packs the sixteen digest bytes into four
    words so that byte [j] of the word array, read the way the CUDA
    [hash_to_hex] reads it on a little-endian host, is digest byte [j];
    the CUDA program therefore displays the same hexadecimal string for a
    password as the serial program. *)
Theorem compute_target_hash_bytes `{MD5_oracle} (password s : list ascii) :
  cstring password = Some s →
  ∃ ws, compute_target_hash password = Some ws
        ∧ length ws = 4%nat
        ∧ (∀ j : nat, (j < 16)%nat →
             word_array_byte ws (Z.of_nat j) = byte_value <$> MD5 s !! j)
        ∧ ∀ out, cuda_hash_to_hex ws out = hash_to_hex (MD5 s) out.
Proof.
  intros Hs. unfold compute_target_hash. rewrite Hs. cbn [mbind option_bind].
  pose proof (MD5_length s) as Hlen. unfold MD5_DIGEST_LENGTH in Hlen.
  destruct (compute_target_hash_loop_spec 4 0 (MD5 s)) as (ws & Hws & Hlength & Hbytes);
    [lia|].
  change (Z.of_nat 0) with 0 in Hws. exists ws. split; [done|]. split; [done|].
  assert (Hview : ∀ j : nat, (j < 16)%nat →
            word_array_byte ws (Z.of_nat j) = byte_value <$> MD5 s !! j).
  { intros j Hj. unfold word_array_byte.
    destruct (Hbytes (j / 4)%nat (j mod 4)%nat) as (word & b & Hword & Hb & Hval).
    { apply Nat.Div0.div_lt_upper_bound. lia. }
    { apply Nat.mod_upper_bound. lia. }
    replace (Z.to_nat (Z.of_nat j `div` 4)) with (j / 4)%nat
      by (rewrite <- (Nat2Z.id (j / 4)), Nat2Z.inj_div; done).
    rewrite Hword. cbn [mbind option_bind].
    replace (4 * (0 + j / 4) + j mod 4)%nat with j in Hb
      by (rewrite Nat.add_0_l; apply Nat.div_mod_eq).
    rewrite Hb. cbn [fmap option_fmap option_map]. f_equal.
    rewrite <- Hval. by rewrite Nat2Z.inj_mod. }
  split; [done|].
  intros out. unfold cuda_hash_to_hex, hash_to_hex.
  change (Z.to_nat MD5_DIGEST_LENGTH) with 16%nat.
  change 0 with (Z.of_nat 0).
  rewrite (cuda_hash_to_hex_loop_agrees 16 0 ws (MD5 s)); [done|].
  intros j Hj. apply Hview. lia.
Qed.

Lemma compute_target_hash_bytes_witness :
  ∃ ws, @compute_target_hash toy_MD5 (str "abc" ++ [NUL]) = Some ws
        ∧ length ws = 4%nat
        ∧ (∀ j : nat, (j < 16)%nat →
             word_array_byte ws (Z.of_nat j) = byte_value <$> toy_digest (str "abc") !! j)
        ∧ ∀ out, cuda_hash_to_hex ws out = hash_to_hex (toy_digest (str "abc")) out.
Proof. apply (@compute_target_hash_bytes toy_MD5 (str "abc" ++ [NUL]) (str "abc")). reflexivity. Defined.

(** The display of the toy digest of "abc": its length and fifteen times
    the letter a. *)
Example hash_to_hex_abc :
  (hash_to_hex (toy_digest (str "abc")) (replicate 33 "x"%char) ≫= cstring)
  = Some (str "03616161616161616161616161616161").
Proof. by vm_compute. Qed.

(** * The MD5 input block of the CUDA program *)

Lemma store_word_Some (buffer : list Z) (i w : Z) :
  0 ≤ i < Z.of_nat (length buffer) → store_word buffer i w = Some (<[Z.to_nat i := w]> buffer).
Proof. intros Hi. unfold store_word. by rewrite bool_decide_true. Qed.

Lemma clear_loop_spec (n i : nat) (buffer : list Z) :
  (i + n ≤ length buffer)%nat →
  clear_loop n (Z.of_nat i) buffer
  = Some (take i buffer ++ replicate n 0 ++ drop (i + n) buffer).
Proof.
  revert i buffer. induction n as [|n IH]; intros i buffer Hlen; cbn [clear_loop].
  - cbn [replicate app]. by rewrite Nat.add_0_r, take_drop.
  - rewrite store_word_Some, Nat2Z.id by lia. cbn [mbind option_bind].
    replace (Z.of_nat i + 1) with (Z.of_nat (S i)) by lia.
    rewrite IH by (rewrite length_insert; lia). f_equal.
    rewrite (take_S_r _ i 0) by (apply list_lookup_insert_eq; lia).
    rewrite take_insert_ge by lia. rewrite drop_insert_lt by lia.
    rewrite <- app_assoc. cbn [replicate app].
    by replace (S i + n)%nat with (i + S n)%nat by lia.
Qed.

Lemma partial_byte_range (message : list Z) (n j : Z) :
  (∀ k : nat, Z.of_nat k < n → 0 ≤ nth k message 0 < 256) →
  0 ≤ j → 0 ≤ partial_byte message n j < 256.
Proof.
  intros Hbytes Hj. unfold partial_byte. case_bool_decide; [|lia].
  apply Hbytes. lia.
Qed.

Section Block.
Variable message : list Z.
Variable n : Z.
Hypothesis message_bytes : ∀ k : nat, Z.of_nat k < n + 1 → 0 ≤ nth k message 0 < 256.
Hypothesis n_range : 0 ≤ n < 64.

(** Or-ing byte [n] into a block whose first [n] bytes are filled. *)
Lemma or_byte_step (value : Z) :
  value = nth (Z.to_nat n) message 0 →
  (old ← load_word (partial_word message n <$> seqZ 0 16) (n `quot` 4);
   shifted ← shl32 value (n `rem` 4 * 8);
   store_word (partial_word message n <$> seqZ 0 16) (n `quot` 4) (Z.lor old shifted))
  = Some (partial_word message (n + 1) <$> seqZ 0 16).
Proof.
  intros Hvalue.
  rewrite Z.quot_div_nonneg, Z.rem_mod_nonneg by lia.
  pose proof (Z.div_mod n 4 ltac:(lia)) as Hdm.
  pose proof (Z.mod_pos_bound n 4 ltac:(lia)) as Hm.
  set (w := n `div` 4) in *. set (b := n `mod` 4) in *.
  assert (Hw : 0 ≤ w < 16) by lia.
  assert (Hv : 0 ≤ value < 256).
  { rewrite Hvalue. apply message_bytes. lia. }
  assert (Hold : ∀ j, 0 ≤ j → 0 ≤ partial_byte message n j < 256).
  { intros j Hj. apply partial_byte_range; [|done]. intros k Hk. apply message_bytes. lia. }
  unfold load_word. rewrite bool_decide_true by lia.
  rewrite list_lookup_fmap, lookup_seqZ_lt by lia. cbn [fmap option_fmap option_map mbind option_bind].
  rewrite Z2Nat.id, Z.add_0_l by lia.
  unfold shl32. rewrite bool_decide_true by lia. cbn [mbind option_bind].
  rewrite store_word_Some by (rewrite length_fmap, length_seqZ; lia).
  f_equal. apply list_eq. intros i.
  destruct (decide (i < 16)%nat) as [Hi|Hi].
  2:{ rewrite !lookup_ge_None_2; [done|..];
        rewrite ?length_insert, length_fmap, length_seqZ; lia. }
  rewrite (list_lookup_fmap _ (seqZ 0 16) i), lookup_seqZ_lt by lia.
  cbn [fmap option_fmap option_map]. rewrite Z.add_0_l.
  pose proof (Hold (4 * w) ltac:(lia)) as H0.
  pose proof (Hold (4 * w + 1) ltac:(lia)) as H1.
  pose proof (Hold (4 * w + 2) ltac:(lia)) as H2.
  pose proof (Hold (4 * w + 3) ltac:(lia)) as H3.
  destruct (decide (i = Z.to_nat w)) as [->|Hne].
  - rewrite list_lookup_insert_eq by (rewrite length_fmap, length_seqZ; lia).
    f_equal. rewrite Z2Nat.id by lia.
    assert (Hcases : b = 0 ∨ b = 1 ∨ b = 2 ∨ b = 3) by lia.
    unfold partial_word in *. unfold partial_byte in *.
    replace (Z.to_nat n) with (Z.to_nat (4 * w + b)) in Hvalue by (f_equal; lia).
    destruct Hcases as [Hb | [Hb | [Hb | Hb]]]; rewrite Hb in *;
      change (0 * 8) with 0; change (1 * 8) with 8; change (2 * 8) with 16;
      change (3 * 8) with 24;
      rewrite ?Z.add_0_r in *;
      repeat case_bool_decide; try lia;
      unfold wrap32;
      rewrite (Z.mod_small (Z.shiftl value _)) by (rewrite Z.shiftl_mul_pow2; lia);
      (rewrite lor_shiftl_add by lia);
      rewrite ?Hvalue; lia.
  - rewrite list_lookup_insert_ne by done.
    rewrite (list_lookup_fmap _ (seqZ 0 16) i), lookup_seqZ_lt by lia.
    cbn [fmap option_fmap option_map]. rewrite Z.add_0_l. f_equal.
    assert (Z.of_nat i ≠ w) by lia.
    unfold partial_word, partial_byte.
    repeat case_bool_decide; lia.
Qed.
End Block.

Lemma or_byte_parts (message : list Z) (n value : Z) :
  (∀ k : nat, Z.of_nat k < n + 1 → 0 ≤ nth k message 0 < 256) →
  0 ≤ n < 64 → value = nth (Z.to_nat n) message 0 →
  ∃ old shifted,
    load_word (partial_word message n <$> seqZ 0 16) (n `quot` 4) = Some old
    ∧ shl32 value (n `rem` 4 * 8) = Some shifted
    ∧ store_word (partial_word message n <$> seqZ 0 16) (n `quot` 4) (Z.lor old shifted)
      = Some (partial_word message (n + 1) <$> seqZ 0 16).
Proof.
  intros Hbytes Hn Hvalue.
  pose proof (or_byte_step message n Hbytes Hn value Hvalue) as Hstep.
  destruct (load_word _ (n `quot` 4)) as [old|]; [|done].
  destruct (shl32 value (n `rem` 4 * 8)) as [shifted|]; [|done].
  by exists old, shifted.
Qed.

Lemma copy_loop_spec (k i : nat) (password : list ascii) (message : list Z) :
  (∀ j : nat, (j < i + k)%nat →
     ∃ ch, password !! j = Some ch ∧ wrap32 (char_value ch) = nth j message 0
           ∧ 0 ≤ nth j message 0 < 256) →
  (i + k ≤ 64)%nat →
  copy_loop k (Z.of_nat i) password (partial_word message (Z.of_nat i) <$> seqZ 0 16)
  = Some (partial_word message (Z.of_nat (i + k)) <$> seqZ 0 16).
Proof.
  revert i. induction k as [|k IH]; intros i Hchars Hlen; cbn [copy_loop].
  - by rewrite Nat.add_0_r.
  - destruct (Hchars i ltac:(lia)) as (ch & Hch & Hval & _).
    unfold load. rewrite bool_decide_true, Nat2Z.id, Hch by lia. cbn [mbind option_bind].
    destruct (or_byte_parts message (Z.of_nat i) (wrap32 (char_value ch)))
      as (old & shifted & Hold & Hshift & Hstore).
    { intros j Hj. destruct (Hchars j) as (_ & _ & _ & ?); [lia|done]. }
    { lia. }
    { by rewrite Nat2Z.id. }
    rewrite Hold. cbn [mbind option_bind]. rewrite Hshift. cbn [mbind option_bind].
    rewrite Hstore. cbn [mbind option_bind].
    replace (Z.of_nat i + 1) with (Z.of_nat (S i)) by lia.
    rewrite IH; [by replace (S i + k)%nat with (i + S k)%nat by lia| |lia].
    intros j Hj. apply Hchars. lia.
Qed.

Lemma partial_word_0 (message : list Z) :
  partial_word message 0 <$> seqZ 0 16 = replicate 16 0.
Proof.
  apply list_eq. intros i. destruct (decide (i < 16)%nat) as [Hi|Hi].
  - rewrite list_lookup_fmap, lookup_seqZ_lt, lookup_replicate_2 by lia.
    cbn [fmap option_fmap option_map]. f_equal.
    unfold partial_word, partial_byte. repeat case_bool_decide; lia.
  - rewrite !lookup_ge_None_2; [done|..]; rewrite ?length_replicate, ?length_fmap, ?length_seqZ; lia.
Qed.

Lemma char_value_range (ch : ascii) : -128 ≤ char_value ch < 128.
Proof.
  unfold char_value. pose proof (N_ascii_bounded ch) as Hb.
  case_bool_decide; lia.
Qed.

Lemma prepare_md5_input_words (password : list ascii) (len : Z) (buffer : list Z) :
  0 ≤ len ≤ 55 →
  len ≤ Z.of_nat (length password) →
  Forall (λ ch, 0 ≤ char_value ch) (take (Z.to_nat len) password) →
  length buffer = 16%nat →
  prepare_md5_input password len buffer
  = Some (md5_block_words (char_value <$> take (Z.to_nat len) password)).
Proof.
  intros Hlen Hroom H7bit Hbuffer. unfold md5_block_words.
  set (msg := char_value <$> take (Z.to_nat len) password).
  set (M := msg ++ [128]).
  assert (Hmsg_len : length msg = Z.to_nat len).
  { subst msg. rewrite length_fmap, length_take. lia. }
  assert (Hmsg : ∀ j : nat, (j < Z.to_nat len)%nat →
            ∃ ch, password !! j = Some ch ∧ nth j M 0 = char_value ch
                  ∧ 0 ≤ char_value ch < 128).
  { intros j Hj. destruct (lookup_lt_is_Some_2 password j) as [ch Hch]; [lia|].
    exists ch. split; [done|].
    assert (Htake : take (Z.to_nat len) password !! j = Some ch)
      by (rewrite lookup_take_lt; done).
    split.
    - subst M. rewrite app_nth1 by lia. subst msg.
      apply nth_lookup_Some with (d := 0). by rewrite list_lookup_fmap, Htake.
    - pose proof (char_value_range ch).
      rewrite Forall_lookup in H7bit. specialize (H7bit j ch Htake). simpl in H7bit. lia. }
  assert (Hpad : nth (Z.to_nat len) M 0 = 128).
  { subst M. rewrite app_nth2 by lia. by rewrite Hmsg_len, Nat.sub_diag. }
  assert (HM : ∀ k : nat, Z.of_nat k < len + 1 → 0 ≤ nth k M 0 < 256).
  { intros k Hk. destruct (decide (k = Z.to_nat len)) as [->|Hne]; [rewrite Hpad; lia|].
    destruct (Hmsg k) as (ch & _ & -> & ?); lia. }
  unfold prepare_md5_input.
  pose proof (clear_loop_spec 16 0 buffer ltac:(lia)) as Hclear.
  rewrite take_0, drop_ge, app_nil_l, app_nil_r in Hclear by lia.
  rewrite <- (partial_word_0 M) in Hclear. change (Z.of_nat 0) with 0 in Hclear.
  rewrite Hclear. cbn [mbind option_bind].
  pose proof (copy_loop_spec (Z.to_nat len) 0 password M) as Hcopy.
  rewrite Nat.add_0_l, Z2Nat.id in Hcopy by lia. change (Z.of_nat 0) with 0 in Hcopy.
  rewrite Hcopy; [| |lia].
  2:{ intros j Hj. destruct (Hmsg j) as (ch & Hch & Hnth & Hrange); [lia|].
      exists ch. split; [done|]. rewrite Hnth.
      unfold wrap32. rewrite Z.mod_small by lia. split; [done|lia]. }
  cbn [mbind option_bind].
  destruct (or_byte_parts M len 128 HM ltac:(lia) ltac:(done))
    as (old & shifted & Hold & Hshift & Hstore).
  rewrite Hold. cbn [mbind option_bind]. rewrite Hshift. cbn [mbind option_bind].
  rewrite Hstore. cbn [mbind option_bind].
  set (words := partial_word M (len + 1) <$> seqZ 0 16).
  assert (Hwords : length words = 16%nat) by (subst words; by rewrite length_fmap, length_seqZ).
  rewrite store_word_Some by lia. cbn [mbind option_bind].
  rewrite store_word_Some by (rewrite length_insert; lia).
  assert (H8 : wrap32 (len * 8) = len * 8) by (unfold wrap32; apply Z.mod_small; lia).
  rewrite H8, Hmsg_len, Z2Nat.id by lia. done.
Qed.

Lemma md5_block_words_length (message : list Z) : length (md5_block_words message) = 16%nat.
Proof. unfold md5_block_words. by rewrite !length_insert, length_fmap, length_seqZ. Qed.

Lemma md5_block_words_byte (message : list Z) (j : Z) :
  (length message ≤ 55)%nat →
  Forall (λ b, 0 ≤ b < 256) message →
  0 ≤ j < 64 →
  word_array_byte (md5_block_words message) j = Some (md5_block_byte message j).
Proof.
  intros Hshort Hbytes Hj. unfold md5_block_words.
  set (len := Z.of_nat (length message)).
  set (M := message ++ [128]).
  assert (HM : ∀ k : nat, Z.of_nat k < len + 1 → 0 ≤ nth k M 0 < 256).
  { intros k Hk. subst M. destruct (decide (k < length message)%nat) as [Hlt|Hge].
    - rewrite app_nth1 by done. rewrite Forall_lookup in Hbytes.
      destruct (lookup_lt_is_Some_2 message k Hlt) as [b Hb].
      rewrite (nth_lookup_Some _ _ 0 _ Hb). by apply (Hbytes k).
    - rewrite app_nth2 by lia. replace (k - length message)%nat with 0%nat by lia.
      simpl. lia. }
  set (words := partial_word M (len + 1) <$> seqZ 0 16).
  assert (Hwords : length words = 16%nat) by (subst words; by rewrite length_fmap, length_seqZ).
  unfold word_array_byte.
  pose proof (Z.div_mod j 4 ltac:(lia)) as Hdm.
  pose proof (Z.mod_pos_bound j 4 ltac:(lia)) as Hm.
  set (w := j `div` 4) in *. set (k := j `mod` 4) in *.
  assert (Hw : 0 ≤ w < 16) by lia.
  destruct (decide (w = 15)) as [Hw15|Hw15]; [|destruct (decide (w = 14)) as [Hw14|Hw14]].
  - rewrite Hw15. change (Z.to_nat 15) with 15%nat.
    rewrite list_lookup_insert_eq by (rewrite length_insert; lia).
    cbn [mbind option_bind]. f_equal.
    unfold md5_block_byte. fold len.
    rewrite !bool_decide_false by lia.
    rewrite Z.div_0_l, Z.mod_0_l by lia.
    symmetry. rewrite Z.div_small; [done|].
    split; [lia|]. apply Z.lt_le_trans with (2 ^ 32); [lia|].
    apply Z.pow_le_mono_r; lia.
  - rewrite Hw14. change (Z.to_nat 14) with 14%nat.
    rewrite list_lookup_insert_ne by done.
    rewrite list_lookup_insert_eq by lia.
    cbn [mbind option_bind]. f_equal.
    unfold md5_block_byte. fold len.
    rewrite !bool_decide_false by lia.
    replace (j - 56) with k by lia. by rewrite (Z.mul_comm 8 len).
  - rewrite !list_lookup_insert_ne by lia.
    subst words. rewrite list_lookup_fmap, lookup_seqZ_lt by lia.
    cbn [fmap option_fmap option_map mbind option_bind]. f_equal.
    rewrite Z.add_0_l, Z2Nat.id by lia.
    assert (Hbyte : ∀ i, 0 ≤ i → 0 ≤ partial_byte M (len + 1) i < 256).
    { intros i Hi. by apply partial_byte_range. }
    unfold partial_word.
    rewrite unpack_bytes by (try apply Hbyte; lia).
    assert (Hnth : nth (Z.to_nat k)
                     [partial_byte M (len + 1) (4 * w);
                      partial_byte M (len + 1) (4 * w + 1);
                      partial_byte M (len + 1) (4 * w + 2);
                      partial_byte M (len + 1) (4 * w + 3)] 0
                   = partial_byte M (len + 1) j).
    { assert (Hcases : k = 0 ∨ k = 1 ∨ k = 2 ∨ k = 3) by lia.
      destruct Hcases as [Hk | [Hk | [Hk | Hk]]]; rewrite Hk in *;
        cbn [Z.to_nat Pos.to_nat Pos.iter_op Nat.add nth]; f_equal; lia. }
    rewrite Hnth. unfold partial_byte, md5_block_byte. fold len.
    destruct (decide (j < len)) as [Hjl|Hjl].
    + rewrite !bool_decide_true by lia. subst M. apply app_nth1. lia.
    + rewrite (bool_decide_false (j < len)) by done.
      destruct (decide (j = len)) as [->|Hne].
      * rewrite !bool_decide_true by lia. subst M.
        rewrite app_nth2 by lia. replace (Z.to_nat len - length message)%nat with 0%nat by lia.
        done.
      * rewrite !bool_decide_false by lia. by rewrite bool_decide_true by lia.
Qed.

(** X5.  For a password of at most 55 seven-bit characters,
    [prepare_md5_input] fills the sixteen words with the first block of
    RFC 1321: read byte by byte, the block is the password, the byte
    0x80, zeros up to byte 55 and the length in bits as a 64-bit
    little-endian number, whatever the buffer held before. *)
Theorem prepare_md5_input_block (password : list ascii) (len : Z) (buffer : list Z) :
  0 ≤ len ≤ 55 →
  len ≤ Z.of_nat (length password) →
  Forall (λ ch, 0 ≤ char_value ch) (take (Z.to_nat len) password) →
  length buffer = 16%nat →
  ∃ block, prepare_md5_input password len buffer = Some block
    ∧ length block = 16%nat
    ∧ ∀ j, 0 ≤ j < 64 →
        word_array_byte block j
        = Some (md5_block_byte (char_value <$> take (Z.to_nat len) password) j).
Proof.
  intros Hlen Hroom H7bit Hbuffer. eexists. split; [by apply prepare_md5_input_words|].
  split; [apply md5_block_words_length|].
  intros j Hj. apply md5_block_words_byte; [rewrite length_fmap, length_take; lia| |done].
  apply Forall_fmap. eapply Forall_impl; [exact H7bit|].
  intros ch Hch. simpl in *. pose proof (char_value_range ch). lia.
Qed.

Lemma prepare_md5_input_block_witness :
  ∃ block, prepare_md5_input (str "abc" ++ [NUL]) 3 (replicate 16 7) = Some block
    ∧ length block = 16%nat
    ∧ ∀ j, 0 ≤ j < 64 →
        word_array_byte block j
        = Some (md5_block_byte (char_value <$> take (Z.to_nat 3) (str "abc" ++ [NUL])) j).
Proof.
  apply prepare_md5_input_block; [lia|simpl; lia| |reflexivity].
  repeat constructor; by vm_compute.
Defined.

(** The block of "abc": the word 0x80636261, zeros, and 24 bits. *)
Example prepare_md5_input_abc :
  prepare_md5_input (str "abc" ++ [NUL]) 3 (replicate 16 7)
  = Some ([2153996897] ++ replicate 13 0 ++ [24; 0]).
Proof. by vm_compute. Qed.

Lemma copy_loop_length (n : nat) (i : Z) (password : list ascii) (buffer r : list Z) :
  copy_loop n i password buffer = Some r → length r = length buffer.
Proof.
  revert i buffer. induction n as [|n IH]; intros i buffer; cbn [copy_loop].
  - by intros [= <-].
  - destruct (load password i) as [ch|]; [|done]. cbn [mbind option_bind].
    destruct (load_word buffer (i `quot` 4)) as [old|]; [|done]. cbn [mbind option_bind].
    destruct (shl32 _ _) as [shifted|]; [|done]. cbn [mbind option_bind].
    destruct (store_word buffer _ _) as [b|] eqn:Hstore; [|done]. cbn [mbind option_bind].
    intros Hrest. apply IH in Hrest. rewrite Hrest.
    unfold store_word in Hstore. case_bool_decide; [|done].
    injection Hstore as <-. apply length_insert.
Qed.

(** X6.  [prepare_md5_input] stays inside [md5_input[16]] only for
    lengths from 0 to 63: with a longer password the padding byte is
    or-ed into a word behind the array. *)
Theorem prepare_md5_input_bound (password : list ascii) (len : Z) (buffer block : list Z) :
  length buffer = 16%nat →
  prepare_md5_input password len buffer = Some block →
  0 ≤ len < 64.
Proof.
  intros Hbuffer. unfold prepare_md5_input.
  pose proof (clear_loop_spec 16 0 buffer ltac:(lia)) as Hclear.
  change (Z.of_nat 0) with 0 in Hclear. rewrite Hclear. cbn [mbind option_bind].
  destruct (copy_loop _ 0 password _) as [b|] eqn:Hcopy; [|done]. cbn [mbind option_bind].
  apply copy_loop_length in Hcopy.
  rewrite !length_app, length_take, length_replicate, length_drop in Hcopy.
  unfold load_word. case_bool_decide as Hq; [|done].
  destruct (b !! Z.to_nat (len `quot` 4)) as [old|] eqn:Hold; [|done].
  cbn [mbind option_bind]. apply lookup_lt_Some in Hold.
  unfold shl32. case_bool_decide as Hshift; [|done]. intros _.
  assert (Hlen : 0 ≤ len).
  { destruct (decide (0 ≤ len)) as [|Hneg]; [done|].
    pose proof (Z.rem_nonpos len 4 ltac:(lia) ltac:(lia)) as Hrem.
    assert (len `rem` 4 = 0) as Hr0 by lia.
    pose proof (Z.quot_rem' len 4) as Hqr. lia. }
  split; [done|].
  rewrite Z.quot_div_nonneg in Hold by lia.
  pose proof (Z.div_mod len 4 ltac:(lia)). pose proof (Z.mod_pos_bound len 4 ltac:(lia)).
  lia.
Qed.

Lemma prepare_md5_input_bound_witness : 0 ≤ 3 < 64.
Proof.
  apply (prepare_md5_input_bound (str "abc" ++ [NUL]) 3 (replicate 16 7)
           ([2153996897] ++ replicate 13 0 ++ [24; 0])); [reflexivity|by vm_compute].
Defined.

(** * One thread of the CUDA kernel *)

Lemma hash_words_equal_spec (computed_hash target_hash : list Z) :
  length computed_hash = 4%nat → length target_hash = 4%nat →
  hash_words_equal 4 0 computed_hash target_hash
  = Some (bool_decide (computed_hash = target_hash)).
Proof.
  intros Hc Ht.
  destruct computed_hash as [|c0 [|c1 [|c2 [|c3 [|]]]]]; try done.
  destruct target_hash as [|t0 [|t1 [|t2 [|t3 [|]]]]]; try done.
  unfold hash_words_equal, load_word. rewrite !bool_decide_true by lia.
  change (Z.to_nat 0) with 0%nat. change (Z.to_nat (0 + 1)) with 1%nat.
  change (Z.to_nat (0 + 1 + 1)) with 2%nat. change (Z.to_nat (0 + 1 + 1 + 1)) with 3%nat.
  cbn. repeat case_bool_decide; try done; congruence.
Qed.

Lemma copy_result_loop_spec (n j : nat) (password result_password : list ascii) :
  (j + n ≤ length password)%nat → (j + n ≤ length result_password)%nat →
  copy_result_loop n (Z.of_nat j) password result_password
  = Some (take j result_password ++ take n (drop j password)
          ++ drop (j + n) result_password).
Proof.
  revert j result_password. induction n as [|n IH]; intros j result Hp Hr; cbn [copy_result_loop].
  - rewrite Nat.add_0_r. cbn [take]. by rewrite app_nil_l, take_drop.
  - destruct (lookup_lt_is_Some_2 password j) as [ch Hch]; [lia|].
    unfold load. rewrite bool_decide_true by lia. rewrite Nat2Z.id, Hch.
    cbn [mbind option_bind].
    rewrite store_Some by lia. cbn [mbind option_bind]. rewrite Nat2Z.id.
    replace (Z.of_nat j + 1) with (Z.of_nat (S j)) by lia.
    rewrite IH by (rewrite ?length_insert; lia). f_equal.
    rewrite (drop_S password ch j Hch). cbn [take].
    rewrite (take_S_r _ _ ch) by (apply list_lookup_insert_eq; lia).
    rewrite take_insert_ge by lia.
    rewrite drop_insert_lt by lia.
    rewrite <- app_assoc. cbn [app]. by replace (S j + n)%nat with (j + S n)%nat by lia.
Qed.

Lemma charset_char_value (ch : ascii) : ch ∈ CHARSET → 0 ≤ char_value ch.
Proof.
  intros Hin. pose proof (lowercase_charset ch) as Hlow.
  rewrite (bool_decide_true _ Hin) in Hlow. unfold lowercase in Hlow.
  apply negb_true_iff, bool_decide_eq_false in Hlow.
  change (char_value "a") with 97 in Hlow. lia.
Qed.

Lemma prepare_md5_input_candidate (k len : Z) (rest : list ascii) (md5_input : list Z) :
  0 ≤ len ≤ 55 → length md5_input = 16%nat →
  prepare_md5_input (decode k (Z.to_nat len) ++ NUL :: rest) len md5_input
  = Some (candidate_block len k).
Proof.
  intros Hlen Hbuffer.
  assert (Htake : take (Z.to_nat len) (decode k (Z.to_nat len) ++ NUL :: rest)
                  = decode k (Z.to_nat len))
    by (apply take_app_length'; symmetry; apply decode_length).
  rewrite prepare_md5_input_words; [by rewrite Htake|done| | |done].
  - rewrite length_app, decode_length. lia.
  - rewrite Htake. eapply Forall_impl; [apply decode_charset|].
    intros ch [Hch _]. simpl. by apply charset_char_value.
Qed.

Section KernelThread.
Context `{MD5_device}.
Variables (len my_start total : Z) (target_hash : list Z).
Hypothesis len_range : 0 ≤ len ≤ MAX_PASSWORD_LENGTH.
Hypothesis target_length : length target_hash = 4%nat.

Lemma kernel_thread_step (n : nat) (i : Z) (password : list ascii) (md5_input : list Z)
    (mem : device_memory) :
  length password = 11%nat → length md5_input = 16%nat →
  found_flag mem = 0 → len < Z.of_nat (length (result_password mem)) →
  0 ≤ my_start + i < 2 ^ 64 → my_start + i < total →
  ∃ password' md5_input',
    length password' = 11%nat ∧ length md5_input' = 16%nat ∧
    kernel_thread_loop (S n) i my_start len target_hash total password md5_input mem
    = if decide (device_matches target_hash len (my_start + i))
      then Some (recorded mem len (my_start + i))
      else kernel_thread_loop n (wrap64 (i + 1)) my_start len target_hash total
             password' md5_input' mem.
Proof.
  intros Hpw Hbuf Hflag Hroom Hfit Hlt.
  unfold MAX_PASSWORD_LENGTH in len_range.
  exists (decode (my_start + i) (Z.to_nat len) ++ NUL :: drop (S (Z.to_nat len)) password),
    (candidate_block len (my_start + i)).
  split; [|split].
  - rewrite length_app, decode_length. cbn [length]. rewrite length_drop. lia.
  - apply md5_block_words_length.
  - cbn [kernel_thread_loop]. rewrite Hflag.
    rewrite (bool_decide_false (0 ≠ 0)) by (intros Hne; by apply Hne).
    assert (Hw : wrap64 (my_start + i) = my_start + i) by (by apply Z.mod_small).
    rewrite !Hw.
    rewrite (bool_decide_false (my_start + i >= total)) by lia.
    unfold index_to_password. rewrite number_to_password_spec by lia.
    cbn [mbind option_bind].
    rewrite prepare_md5_input_candidate by (done || lia).
    cbn [mbind option_bind].
    rewrite hash_words_equal_spec by (apply md5_cuda_length || done).
    cbn [mbind option_bind]. unfold device_matches.
    destruct (decide (md5_cuda (candidate_block len (my_start + i)) = target_hash))
      as [Heq|Hne].
    + case_bool_decide as Hsame; [|done]. rewrite (bool_decide_true (0 = 0)) by done.
      pose proof (copy_result_loop_spec (Z.to_nat (len + 1)) 0
                    (decode (my_start + i) (Z.to_nat len) ++
                     NUL :: drop (S (Z.to_nat len)) password)
                    (result_password mem)) as Hcopy.
      change (Z.of_nat 0) with 0 in Hcopy. rewrite Hcopy.
      2:{ rewrite length_app, decode_length. cbn [length]. rewrite length_drop. lia. }
      2:{ lia. }
      cbn [mbind option_bind]. unfold recorded. do 2 f_equal.
      rewrite take_0, drop_0, app_nil_l.
      replace (Z.to_nat (len + 1)) with (Z.to_nat len + 1)%nat by lia.
      rewrite (take_app_add' (decode _ _)) by (symmetry; apply decode_length).
      cbn [take]. rewrite <- app_assoc. cbn [app].
      by replace (Z.to_nat len + 1)%nat with (S (Z.to_nat len)) by lia.
    + case_bool_decide as Hsame; [done|]. done.
Qed.

Lemma kernel_thread_loop_finds (m : nat) :
  ∀ (n : nat) (i : Z) (password : list ascii) (md5_input : list Z) (mem : device_memory),
    length password = 11%nat → length md5_input = 16%nat →
    found_flag mem = 0 → len < Z.of_nat (length (result_password mem)) →
    0 ≤ i → 0 ≤ my_start → my_start + i + Z.of_nat m < total →
    my_start + i + Z.of_nat m < 2 ^ 64 → (m < n)%nat →
    (∀ j, my_start + i ≤ j < my_start + i + Z.of_nat m → ¬ device_matches target_hash len j) →
    device_matches target_hash len (my_start + i + Z.of_nat m) →
    kernel_thread_loop n i my_start len target_hash total password md5_input mem
    = Some (recorded mem len (my_start + i + Z.of_nat m)).
Proof.
  induction m as [|m IH]; intros n i password md5_input mem Hpw Hbuf Hflag Hroom Hi Hs
    Hlt Hfit Hn Hnone Hmatch.
  - destruct n as [|n]; [lia|].
    destruct (kernel_thread_step n i password md5_input mem)
      as (pw' & buf' & _ & _ & ->); [done|done|done|done|lia|lia|].
    rewrite Z.add_0_r in Hmatch. rewrite decide_True by done. by rewrite Z.add_0_r.
  - destruct n as [|n]; [lia|].
    destruct (kernel_thread_step n i password md5_input mem)
      as (pw' & buf' & Hpw' & Hbuf' & ->); [done|done|done|done|lia|lia|].
    rewrite decide_False by (apply Hnone; lia).
    unfold wrap64. rewrite Z.mod_small by lia.
    rewrite (IH n (i + 1) pw' buf' mem); try done; try lia.
    + do 2 f_equal. lia.
    + intros j Hj. apply Hnone. lia.
    + replace (my_start + (i + 1) + Z.of_nat m) with (my_start + i + Z.of_nat (S m)) by lia.
      done.
Qed.

Lemma kernel_thread_loop_idle (n : nat) :
  ∀ (i : Z) (password : list ascii) (md5_input : list Z) (mem : device_memory),
    length password = 11%nat → length md5_input = 16%nat →
    len < Z.of_nat (length (result_password mem)) →
    0 ≤ i → 0 ≤ my_start → my_start + i + Z.of_nat n ≤ 2 ^ 64 →
    (∀ j, my_start + i ≤ j < my_start + i + Z.of_nat n → j < total →
          ¬ device_matches target_hash len j) →
    kernel_thread_loop n i my_start len target_hash total password md5_input mem = Some mem.
Proof.
  induction n as [|n IH]; intros i password md5_input mem Hpw Hbuf Hroom Hi Hs Hfit Hnone;
    [done|].
  destruct (decide (found_flag mem = 0)) as [Hflag|Hflag];
    [|cbn [kernel_thread_loop]; by rewrite bool_decide_true].
  destruct (decide (my_start + i < total)) as [Hlt|Hge].
  - destruct (kernel_thread_step n i password md5_input mem)
      as (pw' & buf' & Hpw' & Hbuf' & ->); [done|done|done|done|lia|lia|].
    rewrite decide_False by (apply Hnone; lia).
    destruct n as [|n]; [done|].
    unfold wrap64. rewrite Z.mod_small by lia.
    apply IH; try done; try lia. intros j Hj. apply Hnone. lia.
  - cbn [kernel_thread_loop]. rewrite bool_decide_false by (intros Hne; by apply Hne).
    unfold wrap64. rewrite Z.mod_small by lia. by rewrite bool_decide_true by lia.
Qed.
End KernelThread.

Lemma kernel_start (thread per_thread : Z) :
  0 ≤ thread → 0 ≤ per_thread → (thread + 1) * per_thread ≤ 2 ^ 64 →
  wrap64 (0 + wrap64 (thread * per_thread)) = thread * per_thread.
Proof.
  intros Ht Hp Hfit. assert (0 ≤ thread * per_thread < 2 ^ 64) by nia.
  unfold wrap64. by rewrite Z.add_0_l, Z.mod_mod, Z.mod_small.
Qed.

Lemma kernel_thread_first_match `{MD5_device} (junk : list ascii) (junk_words : list Z)
    (per_thread len : Z) (target_hash : list Z) (mem : device_memory)
    (total thread k : Z) :
  0 ≤ len ≤ MAX_PASSWORD_LENGTH →
  length target_hash = 4%nat →
  len < Z.of_nat (length (result_password mem)) →
  found_flag mem = 0 →
  0 ≤ thread → 0 ≤ per_thread → (thread + 1) * per_thread ≤ 2 ^ 64 →
  thread * per_thread ≤ k < (thread + 1) * per_thread → k < total →
  device_matches target_hash len k →
  (∀ j, thread * per_thread ≤ j < k → ¬ device_matches target_hash len j) →
  crack_password_kernel junk junk_words 0 per_thread len target_hash mem total thread
  = Some (recorded mem len k).
Proof.
  intros Hlen Htarget Hroom Hflag Ht Hp Hfit Hk Hktotal Hmatch Hleast.
  unfold crack_password_kernel. rewrite kernel_start by done.
  rewrite bool_decide_false by lia.
  pose proof (kernel_thread_loop_finds len (thread * per_thread) total target_hash Hlen Htarget
                (Z.to_nat (k - thread * per_thread)) (Z.to_nat per_thread) 0
                (char_array (MAX_PASSWORD_LENGTH + 1) junk) (resize 16 0 junk_words) mem)
    as Hloop.
  rewrite Z.add_0_r, Z2Nat.id in Hloop by lia.
  replace (thread * per_thread + (k - thread * per_thread)) with k in Hloop by lia.
  assert (Hstart : 0 ≤ thread * per_thread) by nia.
  assert (Hend : (thread + 1) * per_thread = thread * per_thread + per_thread) by lia.
  apply Hloop; try done; try lia.
  - pose proof (char_array_length (MAX_PASSWORD_LENGTH + 1) junk) as Hl.
    unfold MAX_PASSWORD_LENGTH in *. lia.
  - apply length_resize.
Qed.

(** X7.  A thread of [crack_password_kernel] that runs with the flag
    unset and meets a candidate of its block whose device fingerprint is
    the target stops at the smallest such index [k]: it sets the flag to
    1, stores [k] in [found_at_index] and copies the candidate with its
    terminator to the front of [result_password]. *)
Theorem kernel_thread_finds `{MD5_device} (junk : list ascii) (junk_words : list Z)
    (per_thread len : Z) (target_hash : list Z) (mem : device_memory)
    (total thread k : Z) :
  0 ≤ len ≤ MAX_PASSWORD_LENGTH →
  length target_hash = 4%nat →
  len < Z.of_nat (length (result_password mem)) →
  found_flag mem = 0 →
  0 ≤ thread → 0 ≤ per_thread → (thread + 1) * per_thread ≤ 2 ^ 64 →
  k ∈ kernel_indices 0 per_thread total thread →
  device_matches target_hash len k →
  (∀ j, j ∈ kernel_indices 0 per_thread total thread → j < k →
        ¬ device_matches target_hash len j) →
  crack_password_kernel junk junk_words 0 per_thread len target_hash mem total thread
  = Some {| found_flag := 1;
            result_password :=
              decode k (Z.to_nat len) ++ NUL :: drop (S (Z.to_nat len)) (result_password mem);
            found_at_index := k |}.
Proof.
  intros Hlen Htarget Hroom Hflag Ht Hp Hfit Hk Hmatch Hleast.
  apply kernel_indices_elem in Hk as [Hblock Htotal]; [|done..].
  change (Some ?m) with (Some (recorded mem len k)).
  apply kernel_thread_first_match; try done.
  intros j Hj. apply Hleast; [|lia]. apply kernel_indices_elem; [done..|]. lia.
Qed.

Lemma kernel_thread_finds_witness :
  @crack_password_kernel toy_device [] [] 0 3 1 (@md5_cuda toy_device (candidate_block 1 4))
    {| found_flag := 0; result_password := replicate 11 "x"%char; found_at_index := 0 |} 26 1
  = Some {| found_flag := 1;
            result_password :=
              decode 4 (Z.to_nat 1) ++ NUL :: drop (S (Z.to_nat 1)) (replicate 11 "x"%char);
            found_at_index := 4 |}.
Proof.
  apply (@kernel_thread_finds toy_device).
  - unfold MAX_PASSWORD_LENGTH. lia.
  - reflexivity.
  - simpl. lia.
  - reflexivity.
  - lia.
  - lia.
  - lia.
  - apply kernel_indices_elem; lia.
  - reflexivity.
  - intros j Hj Hlt. apply kernel_indices_elem in Hj; [|lia..].
    assert (j = 3) as -> by lia. by vm_compute.
Defined.

(** X8.  A thread of [crack_password_kernel] changes nothing in the
    device memory when the flag is already set at its first check, or
    when no candidate of its block has the target as device fingerprint;
    a thread whose block starts at or behind [total_combinations] is of
    the second kind. *)
Theorem kernel_thread_idle `{MD5_device} (junk : list ascii) (junk_words : list Z)
    (per_thread len : Z) (target_hash : list Z) (mem : device_memory)
    (total thread : Z) :
  0 ≤ len ≤ MAX_PASSWORD_LENGTH →
  length target_hash = 4%nat →
  len < Z.of_nat (length (result_password mem)) →
  0 ≤ thread → 0 ≤ per_thread → (thread + 1) * per_thread ≤ 2 ^ 64 →
  found_flag mem ≠ 0
  ∨ (∀ j, j ∈ kernel_indices 0 per_thread total thread →
          ¬ device_matches target_hash len j) →
  crack_password_kernel junk junk_words 0 per_thread len target_hash mem total thread
  = Some mem.
Proof.
  intros Hlen Htarget Hroom Ht Hp Hfit Hcase.
  unfold crack_password_kernel. rewrite kernel_start by done.
  case_bool_decide as Hstart; [done|].
  destruct Hcase as [Hflag|Hnone].
  - destruct (Z.to_nat per_thread) as [|n]; [done|].
    cbn [kernel_thread_loop]. by rewrite bool_decide_true.
  - assert (Hbegin : 0 ≤ thread * per_thread) by nia.
    assert (Hend : (thread + 1) * per_thread = thread * per_thread + per_thread) by lia.
    apply kernel_thread_loop_idle; try done; try lia.
    + pose proof (char_array_length (MAX_PASSWORD_LENGTH + 1) junk) as Hl.
      unfold MAX_PASSWORD_LENGTH in *. lia.
    + apply length_resize.
    + intros j Hj Hlt. apply Hnone. apply kernel_indices_elem; [done..|]. lia.
Qed.

Lemma kernel_thread_idle_witness :
  @crack_password_kernel toy_device [] [] 0 3 1 (@md5_cuda toy_device (candidate_block 1 4))
    {| found_flag := 0; result_password := replicate 11 "x"%char; found_at_index := 0 |} 26 0
  = Some {| found_flag := 0; result_password := replicate 11 "x"%char; found_at_index := 0 |}.
Proof.
  apply (@kernel_thread_idle toy_device).
  - unfold MAX_PASSWORD_LENGTH. lia.
  - reflexivity.
  - simpl. lia.
  - lia.
  - lia.
  - lia.
  - right. intros j Hj. apply kernel_indices_elem in Hj; [|lia..].
    assert (j = 0 ∨ j = 1 ∨ j = 2) as [-> | [-> | ->]] by lia; by vm_compute.
Defined.

(** Thread 1 of a launch with three candidates per thread, on the
    one-letter keyspace, with the block of "e" as target. *)
Example kernel_thread_run :
  @crack_password_kernel toy_device [] [] 0 3 1 (@md5_cuda toy_device (candidate_block 1 4))
    {| found_flag := 0; result_password := replicate 11 "x"%char; found_at_index := 0 |} 26 1
  = Some {| found_flag := 1; result_password := str "e" ++ NUL :: replicate 9 "x"%char;
            found_at_index := 4 |}.
Proof. by vm_compute. Qed.

(** * The grid of the CUDA program *)




Lemma launch_threads_range (blocks threads_per_block t : Z) :
  t ∈ launch_threads blocks threads_per_block → 0 ≤ t < 2 ^ 32.
Proof.
  unfold launch_threads. intros Ht.
  apply list_elem_of_bind in Ht as (b & Ht & _).
  apply list_elem_of_bind in Ht as (i & Ht & _).
  apply list_elem_of_singleton in Ht as ->.
  unfold thread_id, wrap32. apply Z.mod_pos_bound. lia.
Qed.

(** X10.  The kernel computes its thread number in [unsigned int], so
    whatever the grid, no thread is handed an index from
    [2^32 * passwords_per_thread] on: the keyspaces of nine and ten
    letters, which [main] admits, are never covered, and index
    429496729600 of them is examined by no thread. *)
Theorem cuda_launch_ceiling :
  (∀ password_length threads_per_block num_blocks part x,
     part ∈ cuda_partitions password_length threads_per_block num_blocks →
     x ∈ part → 0 ≤ x < 2 ^ 32 * passwords_per_thread)
  ∧ ∀ password_length, 9 ≤ password_length ≤ MAX_PASSWORD_LENGTH →
      2 ^ 32 * passwords_per_thread < calculate_combinations password_length
      ∧ ∀ threads_per_block num_blocks part,
          part ∈ cuda_partitions password_length threads_per_block num_blocks →
          2 ^ 32 * passwords_per_thread ∉ part.
Proof.
  assert (Hceiling : ∀ password_length threads_per_block num_blocks part x,
            part ∈ cuda_partitions password_length threads_per_block num_blocks →
            x ∈ part → 0 ≤ x < 2 ^ 32 * passwords_per_thread).
  { intros len tpb nb part x Hpart Hx. unfold cuda_partitions in Hpart.
    apply list_elem_of_fmap in Hpart as (t & -> & Ht).
    apply launch_threads_range in Ht.
    assert (H32 : 2 ^ 32 = 4294967296) by reflexivity.
    assert (H64 : 2 ^ 64 = 18446744073709551616) by reflexivity.
    unfold passwords_per_thread in *.
    apply kernel_indices_elem in Hx; lia. }
  split; [exact Hceiling|].
  intros len Hlen. unfold MAX_PASSWORD_LENGTH in Hlen. split.
  - assert (len = 9 ∨ len = 10) as [-> | ->] by lia; by vm_compute.
  - intros tpb nb part Hpart Hin.
    specialize (Hceiling len tpb nb part _ Hpart Hin). lia.
Qed.

(** * The MPI search of one rank *)

Lemma send_terminate_loop_spec (n : nat) (p rank : Z) :
  send_terminate_loop n p rank
  = SendTerminate <$> filter (λ q, q ≠ rank) (seqZ p (Z.of_nat n)).
Proof.
  revert p. induction n as [|n IH]; intros p; [done|].
  cbn [send_terminate_loop]. rewrite IH.
  replace (Z.of_nat (S n)) with (Z.succ (Z.of_nat n)) by lia.
  rewrite (seqZ_cons p) by lia. rewrite Z.pred_succ, filter_cons.
  replace (Z.succ p) with (p + 1) by lia.
  case_bool_decide as Hp.
  - rewrite decide_True by done. by rewrite fmap_cons.
  - rewrite decide_False by (simpl; tauto). done.
Qed.

Lemma progress_events_0 (env : mpi_env) (rank world_size c0 : Z) :
  progress_events env rank world_size c0 0 = [].
Proof. done. Qed.

Lemma progress_events_S (env : mpi_env) (rank world_size c0 n : Z) :
  0 ≤ n →
  progress_events env rank world_size c0 (n + 1)
  = progress_event env rank world_size (c0 + 1)
    ++ progress_events env rank world_size (c0 + 1) n.
Proof.
  intros Hn. unfold progress_events.
  rewrite seqZ_cons by lia. cbn [mbind list_bind].
  by replace (Z.pred (n + 1)) with n by lia.
Qed.

Section MpiCrack.
Context `{MD5_oracle}.
Variable env : mpi_env.
Variable target_hash : list byte.
Variables (len rank world_size total : Z).
Hypothesis target_hash_length : Z.of_nat (length target_hash) = MD5_DIGEST_LENGTH.

(** One pass through the loop body when the guess has room. *)
Lemma mpi_crack_step (fuel : nat) (i counter : Z) (guess : list ascii)
    (events : list mpi_event) :
  0 ≤ len < Z.of_nat (length guess) → i < total → 0 ≤ counter < 2 ^ 64 - 1 →
  ∃ guess', length guess' = length guess ∧
    mpi_crack_loop (S fuel) env target_hash len rank world_size total i counter guess events
    = if bool_decide ((counter + 1) `mod` check_interval = 0)
         && terminate_probe env (counter + 1)
      then Returns {| mpi_ret := 0; mpi_counter := counter + 1; mpi_events := events |}
      else if decide (matches target_hash len i)
      then Returns {| mpi_ret := 1; mpi_counter := counter + 1;
                      mpi_events :=
                        (events ++ progress_event env rank world_size (counter + 1))
                        ++ PrintFound (decode i (Z.to_nat len))
                           :: send_terminate_loop (Z.to_nat world_size) 0 rank |}
      else mpi_crack_loop fuel env target_hash len rank world_size total
             (wrap64 (i + world_size)) (counter + 1) guess'
             (events ++ progress_event env rank world_size (counter + 1)).
Proof.
  intros Hlen Hi Hcounter.
  destruct (number_to_password i guess len) as [guess'|] eqn:Hcall;
    [|by rewrite number_to_password_spec in Hcall].
  destruct (number_to_password_cstring _ _ _ _ Hcall) as (Hstr & Hlength & _).
  exists guess'. split; [done|].
  cbn [mpi_crack_loop]. rewrite bool_decide_true by done.
  assert (Hw : wrap64 (counter + 1) = counter + 1) by (apply Z.mod_small; lia).
  rewrite !Hw.
  destruct (bool_decide ((counter + 1) `mod` check_interval = 0)
            && terminate_probe env (counter + 1)) eqn:Hstop; [done|].
  assert (Hev :
    (if bool_decide (rank = 0) && bool_decide ((counter + 1) `mod` check_interval = 0)
     then (if bool_decide ((counter + 1) `mod` check_interval = 0) && bool_decide (rank ≠ 0)
           then events ++ [SendProgress (counter + 1)] else events)
          ++ [PrintProgress
                (collect_progress world_size (counter + 1)
                   (progress_mail env (counter + 1))).1]
     else (if bool_decide ((counter + 1) `mod` check_interval = 0) && bool_decide (rank ≠ 0)
           then events ++ [SendProgress (counter + 1)] else events))
    = events ++ progress_event env rank world_size (counter + 1)).
  { unfold progress_event.
    destruct (bool_decide ((counter + 1) `mod` check_interval = 0));
      destruct (decide (rank = 0)) as [Hr|Hr].
    - rewrite (bool_decide_true (rank = 0)), (bool_decide_false (rank ≠ 0)) by tauto. done.
    - rewrite (bool_decide_false (rank = 0)), (bool_decide_true (rank ≠ 0)) by tauto. done.
    - rewrite (bool_decide_true (rank = 0)) by tauto. cbn. by rewrite app_nil_r.
    - rewrite (bool_decide_false (rank = 0)) by tauto. cbn. by rewrite app_nil_r. }
  rewrite Hev, Hcall. cbn [defined mbind outcome_bind].
  unfold generate_hash. rewrite Hstr. cbn [mbind option_bind defined outcome_bind].
  destruct (memcmp_defined (MD5 (decode i (Z.to_nat len))) target_hash
              (Z.to_nat MD5_DIGEST_LENGTH)) as [d Hd].
  { pose proof (MD5_length (decode i (Z.to_nat len))). lia. }
  { lia. }
  rewrite Hd. cbn [defined mbind outcome_bind].
  destruct (decide (matches target_hash len i)) as [Heq|Hne]; unfold matches in *.
  - rewrite Hd in Heq. simplify_eq. rewrite bool_decide_true by done. done.
  - rewrite Hd in Hne. rewrite bool_decide_false by congruence. done.
Qed.

Hypothesis world_size_pos : 1 ≤ world_size.
Hypothesis no_wrap : total + world_size ≤ 2 ^ 64.

(** From index [i] on the loop stops at the first matching index of
    the stride, as long as no termination message is seen. *)
Lemma mpi_crack_loop_finds (m : nat) :
  ∀ (fuel : nat) (i counter : Z) (guess : list ascii) (events : list mpi_event),
    0 ≤ len < Z.of_nat (length guess) → 0 ≤ i → 0 ≤ counter →
    i + Z.of_nat m * world_size < total → counter + Z.of_nat m + 1 < 2 ^ 64 →
    (m < fuel)%nat →
    (∀ j, 0 ≤ j < Z.of_nat m → ¬ matches target_hash len (i + j * world_size)) →
    matches target_hash len (i + Z.of_nat m * world_size) →
    (∀ c, counter < c ≤ counter + Z.of_nat m + 1 → terminate_probe env c = false) →
    mpi_crack_loop fuel env target_hash len rank world_size total i counter guess events
    = Returns {| mpi_ret := 1; mpi_counter := counter + Z.of_nat m + 1;
                 mpi_events :=
                   (events ++ progress_events env rank world_size counter (Z.of_nat m + 1))
                   ++ PrintFound (decode (i + Z.of_nat m * world_size) (Z.to_nat len))
                      :: send_terminate_loop (Z.to_nat world_size) 0 rank |}.
Proof.
  induction m as [|m IH]; intros fuel i counter guess events Hlen Hi Hc Hk Hfit Hfuel
    Hmiss Hhit Hquiet;
    (destruct fuel as [|fuel]; [lia|]);
    destruct (mpi_crack_step fuel i counter guess events Hlen ltac:(nia) ltac:(lia))
      as (guess' & Hg & ->);
    rewrite (Hquiet (counter + 1)), andb_false_r by lia.
  - change (Z.of_nat 0) with 0 in *. rewrite Z.mul_0_l, Z.add_0_r in *.
    rewrite decide_True by done.
    rewrite (progress_events_S _ _ _ _ 0), progress_events_0, app_nil_r by lia.
    by rewrite Z.add_0_r.
  - rewrite decide_False by (specialize (Hmiss 0); rewrite Z.mul_0_l, Z.add_0_r in Hmiss;
                             apply Hmiss; lia).
    assert (Hw : wrap64 (i + world_size) = i + world_size) by (apply Z.mod_small; nia).
    rewrite Hw.
    rewrite (IH fuel (i + world_size) (counter + 1) guess'
               (events ++ progress_event env rank world_size (counter + 1)));
      try lia.
    + replace (Z.of_nat (S m) + 1) with ((Z.of_nat m + 1) + 1) by lia.
      rewrite (progress_events_S _ _ _ _ (Z.of_nat m + 1)) by lia.
      rewrite <- (app_assoc events). do 3 f_equal; [lia|]. do 3 f_equal. lia.
    + intros j Hj. replace (i + world_size + j * world_size)
        with (i + (j + 1) * world_size) by lia. apply Hmiss. lia.
    + replace (i + world_size + Z.of_nat m * world_size)
        with (i + Z.of_nat (S m) * world_size) by lia. done.
    + intros c Hcr. apply Hquiet. lia.
Qed.

(** Without a match and without a termination message the loop runs
    through the stride. *)
Lemma mpi_crack_loop_exhausts (m : nat) :
  ∀ (fuel : nat) (i counter : Z) (guess : list ascii) (events : list mpi_event),
    0 ≤ len < Z.of_nat (length guess) → 0 ≤ i → 0 ≤ counter →
    total ≤ i + Z.of_nat m * world_size → counter + Z.of_nat m + 1 < 2 ^ 64 →
    (m < fuel)%nat →
    (∀ j, 0 ≤ j < Z.of_nat m →
          i + j * world_size < total ∧ ¬ matches target_hash len (i + j * world_size)) →
    (∀ c, counter < c ≤ counter + Z.of_nat m → terminate_probe env c = false) →
    mpi_crack_loop fuel env target_hash len rank world_size total i counter guess events
    = Returns {| mpi_ret := 0; mpi_counter := counter + Z.of_nat m;
                 mpi_events :=
                   events ++ progress_events env rank world_size counter (Z.of_nat m) |}.
Proof.
  induction m as [|m IH]; intros fuel i counter guess events Hlen Hi Hc Hend Hfit Hfuel
    Hmiss Hquiet; (destruct fuel as [|fuel]; [lia|]).
  - cbn [mpi_crack_loop]. rewrite bool_decide_false by lia.
    change (Z.of_nat 0) with 0. by rewrite progress_events_0, app_nil_r, Z.add_0_r.
  - pose proof (Hmiss 0 ltac:(lia)) as [Hlt Hno]. rewrite Z.mul_0_l, Z.add_0_r in Hlt, Hno.
    destruct (mpi_crack_step fuel i counter guess events Hlen Hlt ltac:(lia))
      as (guess' & Hg & ->).
    rewrite (Hquiet (counter + 1)), andb_false_r by lia.
    rewrite decide_False by done.
    assert (Hw : wrap64 (i + world_size) = i + world_size) by (apply Z.mod_small; lia).
    rewrite Hw.
    rewrite (IH fuel (i + world_size) (counter + 1) guess'
               (events ++ progress_event env rank world_size (counter + 1)));
      try lia.
    + replace (Z.of_nat (S m)) with (Z.of_nat m + 1) by lia.
      rewrite (progress_events_S _ _ _ _ (Z.of_nat m)) by lia.
      rewrite <- (app_assoc events). do 2 f_equal. lia.
    + intros j Hj. replace (i + world_size + j * world_size)
        with (i + (j + 1) * world_size) by lia. apply Hmiss. lia.
    + intros c Hcr. apply Hquiet. lia.
Qed.

(** A termination message seen at a check ends the loop before the
    candidate of that pass is examined. *)
Lemma mpi_crack_loop_cancelled (m : nat) :
  ∀ (fuel : nat) (i counter : Z) (guess : list ascii) (events : list mpi_event),
    0 ≤ len < Z.of_nat (length guess) → 0 ≤ i → 0 ≤ counter →
    i + Z.of_nat m * world_size < total → counter + Z.of_nat m + 1 < 2 ^ 64 →
    (m < fuel)%nat →
    (∀ j, 0 ≤ j < Z.of_nat m → ¬ matches target_hash len (i + j * world_size)) →
    (∀ c, counter < c ≤ counter + Z.of_nat m → terminate_probe env c = false) →
    (counter + Z.of_nat m + 1) `mod` check_interval = 0 →
    terminate_probe env (counter + Z.of_nat m + 1) = true →
    mpi_crack_loop fuel env target_hash len rank world_size total i counter guess events
    = Returns {| mpi_ret := 0; mpi_counter := counter + Z.of_nat m + 1;
                 mpi_events :=
                   events ++ progress_events env rank world_size counter (Z.of_nat m) |}.
Proof.
  induction m as [|m IH]; intros fuel i counter guess events Hlen Hi Hc Hk Hfit Hfuel
    Hmiss Hquiet Hcheck Hstop;
    (destruct fuel as [|fuel]; [lia|]);
    destruct (mpi_crack_step fuel i counter guess events Hlen ltac:(nia) ltac:(lia))
      as (guess' & Hg & ->).
  - change (Z.of_nat 0) with 0 in *. rewrite Z.add_0_r in *.
    rewrite Hstop, bool_decide_true by done. cbn [andb].
    by rewrite progress_events_0, app_nil_r.
  - rewrite (Hquiet (counter + 1)), andb_false_r by lia.
    rewrite decide_False by (specialize (Hmiss 0); rewrite Z.mul_0_l, Z.add_0_r in Hmiss;
                             apply Hmiss; lia).
    assert (Hw : wrap64 (i + world_size) = i + world_size) by (apply Z.mod_small; nia).
    rewrite Hw.
    rewrite (IH fuel (i + world_size) (counter + 1) guess'
               (events ++ progress_event env rank world_size (counter + 1)));
      try lia.
    + replace (Z.of_nat (S m)) with (Z.of_nat m + 1) by lia.
      rewrite (progress_events_S _ _ _ _ (Z.of_nat m)) by lia.
      rewrite <- (app_assoc events). do 2 f_equal. lia.
    + intros j Hj. replace (i + world_size + j * world_size)
        with (i + (j + 1) * world_size) by lia. apply Hmiss. lia.
    + intros c Hcr. apply Hquiet. lia.
    + by replace (counter + 1 + Z.of_nat m + 1) with (counter + Z.of_nat (S m) + 1) by lia.
    + by replace (counter + 1 + Z.of_nat m + 1) with (counter + Z.of_nat (S m) + 1) by lia.
Qed.
End MpiCrack.

Lemma keyspace_range (len : Z) :
  0 ≤ len ≤ MAX_PASSWORD_LENGTH → 0 < calculate_combinations len ≤ 2 ^ 48.
Proof.
  intros Hlen. unfold MAX_PASSWORD_LENGTH in Hlen.
  rewrite calculate_combinations_exact by lia. split.
  - apply Z.pow_pos_nonneg; unfold CHARSET_SIZE; lia.
  - apply Z.le_trans with (CHARSET_SIZE ^ 10); [|by vm_compute].
    apply Z.pow_le_mono_r; unfold CHARSET_SIZE; lia.
Qed.

Lemma mpi_indices_length (fuel : nat) (total world_size i : Z) :
  1 ≤ world_size → total + world_size ≤ 2 ^ 64 →
  0 ≤ i < total + world_size → total - i ≤ Z.of_nat fuel →
  Z.of_nat (length (mpi_indices fuel total world_size i)) = partition_size total world_size i.
Proof.
  intros HW Hfit. revert i. unfold partition_size.
  induction fuel as [|fuel IH]; intros i Hi Hfuel; cbn [mpi_indices].
  - cbn [length]. symmetry. apply Z.div_small. lia.
  - case_bool_decide as Hlt.
    + cbn [length]. unfold wrap64. rewrite Z.mod_small by lia.
      rewrite Nat2Z.inj_succ, IH by lia.
      replace (total - i + world_size - 1)
        with (total - (i + world_size) + world_size - 1 + 1 * world_size) by lia.
      rewrite Z.div_add by lia. lia.
    + cbn [length]. symmetry. apply Z.div_small. lia.
Qed.

Lemma mpi_crack_first_match `{MD5_oracle} (env : mpi_env) (junk t : list ascii)
    (len rank world_size m : Z) :
  0 ≤ len ≤ MAX_PASSWORD_LENGTH → 0 ≤ rank < world_size → world_size < 2 ^ 31 →
  0 ≤ m → rank + m * world_size < calculate_combinations len →
  matches (MD5 t) len (rank + m * world_size) →
  (∀ j, 0 ≤ j < m → ¬ matches (MD5 t) len (rank + j * world_size)) →
  (∀ c, 0 < c ≤ m + 1 → terminate_probe env c = false) →
  mpi_crack env junk (MD5 t) len rank world_size
  = Returns {| mpi_ret := 1; mpi_counter := m + 1;
               mpi_events :=
                 progress_events env rank world_size 0 (m + 1)
                 ++ PrintFound (decode (rank + m * world_size) (Z.to_nat len))
                    :: terminate_sends rank world_size |}.
Proof.
  intros Hlen Hrank HW Hm Hk Hhit Hleast Hquiet.
  pose proof (keyspace_range len Hlen) as Htotal.
  set (total := calculate_combinations len) in *.
  assert (H48 : 2 ^ 48 + 2 ^ 31 ≤ 2 ^ 64) by (by vm_compute).
  assert (Hmk : m ≤ rank + m * world_size) by nia.
  unfold mpi_crack. fold total.
  pose proof (mpi_crack_loop_finds env (MD5 t) len rank world_size total
                ltac:(by rewrite MD5_length) ltac:(lia) ltac:(lia)
                (Z.to_nat m) (S (Z.to_nat total)) rank 0
                (char_array (MAX_PASSWORD_LENGTH + 1) junk) []) as Hloop.
  rewrite Z2Nat.id in Hloop by done.
  rewrite Hloop; clear Hloop.
  - unfold terminate_sends. rewrite send_terminate_loop_spec, Z2Nat.id by lia.
    by rewrite app_nil_l, Z.add_0_l.
  - pose proof (char_array_length (MAX_PASSWORD_LENGTH + 1) junk).
    unfold MAX_PASSWORD_LENGTH in *. lia.
  - lia.
  - lia.
  - lia.
  - lia.
  - lia.
  - done.
  - done.
  - intros c Hc. apply Hquiet. lia.
Qed.

(** X11.  When no termination message is seen, a rank of [mpi_crack]
    returns 1 at the smallest index of its stride whose fingerprint is the
    target: its counter is then the position of that index in the stride,
    it has printed the candidate, and it has sent one termination message
    to every other rank, in rank order, after the progress reports of the
    checks it has passed. *)
Theorem mpi_crack_finds `{MD5_oracle} (env : mpi_env) (junk t : list ascii)
    (len rank world_size k : Z) :
  0 ≤ len ≤ MAX_PASSWORD_LENGTH → 0 ≤ rank < world_size → world_size < 2 ^ 31 →
  k ∈ mpi_partition (calculate_combinations len) world_size rank →
  matches (MD5 t) len k →
  (∀ j, j ∈ mpi_partition (calculate_combinations len) world_size rank → j < k →
        ¬ matches (MD5 t) len j) →
  (∀ c, 0 < c ≤ k `div` world_size + 1 → terminate_probe env c = false) →
  mpi_crack env junk (MD5 t) len rank world_size
  = Returns {| mpi_ret := 1; mpi_counter := k `div` world_size + 1;
               mpi_events :=
                 progress_events env rank world_size 0 (k `div` world_size + 1)
                 ++ PrintFound (decode k (Z.to_nat len))
                    :: terminate_sends rank world_size |}.
Proof.
  intros Hlen Hrank HW Hk Hhit Hleast Hquiet.
  pose proof (keyspace_range len Hlen) as Htotal.
  assert (H48 : 2 ^ 48 + 2 ^ 31 ≤ 2 ^ 64) by (by vm_compute).
  assert (Helem : ∀ x, x ∈ mpi_partition (calculate_combinations len) world_size rank
                       ↔ 0 ≤ x < calculate_combinations len ∧ x `mod` world_size = rank).
  { intros x. apply mpi_partition_elem; lia. }
  apply Helem in Hk as [Hk Hmod].
  pose proof (Z.div_mod k world_size ltac:(lia)) as Hdm. rewrite Hmod in Hdm.
  set (m := k `div` world_size) in *.
  assert (Hm : 0 ≤ m) by (apply Z.div_pos; lia).
  assert (Hkm : k = rank + m * world_size) by lia.
  rewrite Hkm in Hhit |- *.
  apply mpi_crack_first_match; try done; try lia.
  intros j Hj. apply Hleast; [|nia]. apply Helem.
  split; [nia|]. rewrite Z_mod_plus_full. apply Z.mod_small. lia.
Qed.

Lemma mpi_crack_finds_witness :
  @mpi_crack toy_MD5 silent [] (@MD5 toy_MD5 (str "aab")) 3 1 4
  = Returns {| mpi_ret := 1; mpi_counter := 1 `div` 4 + 1;
               mpi_events :=
                 progress_events silent 1 4 0 (1 `div` 4 + 1)
                 ++ PrintFound (decode 1 (Z.to_nat 3)) :: terminate_sends 1 4 |}.
Proof.
  apply (@mpi_crack_finds toy_MD5 silent [] (str "aab") 3 1 4 1).
  - unfold MAX_PASSWORD_LENGTH. lia.
  - lia.
  - lia.
  - apply mpi_partition_elem; [lia|by vm_compute|lia|]. by vm_compute.
  - by vm_compute.
  - intros j Hj Hlt. apply mpi_partition_elem in Hj; [|lia|by vm_compute|lia].
    destruct Hj as [Hj Hmod].
    assert (j = 0) as -> by lia. by vm_compute in Hmod.
  - done.
Defined.

(** X12.  When no candidate of its stride has the target fingerprint
    and no termination message is seen, a rank of [mpi_crack] returns 0
    after as many passes as its stride has indices; it has sent or printed
    its progress reports and no termination message. *)
Theorem mpi_crack_exhausts `{MD5_oracle} (env : mpi_env) (junk t : list ascii)
    (len rank world_size : Z) :
  0 ≤ len ≤ MAX_PASSWORD_LENGTH → 0 ≤ rank < world_size → world_size < 2 ^ 31 →
  (∀ j, j ∈ mpi_partition (calculate_combinations len) world_size rank →
        ¬ matches (MD5 t) len j) →
  (∀ c, 0 < c ≤ Z.of_nat (length (mpi_partition (calculate_combinations len) world_size rank))
        → terminate_probe env c = false) →
  mpi_crack env junk (MD5 t) len rank world_size
  = Returns {| mpi_ret := 0;
               mpi_counter :=
                 Z.of_nat (length (mpi_partition (calculate_combinations len) world_size rank));
               mpi_events :=
                 progress_events env rank world_size 0
                   (Z.of_nat (length (mpi_partition (calculate_combinations len)
                                        world_size rank))) |}.
Proof.
  intros Hlen Hrank HW Hmiss Hquiet.
  pose proof (keyspace_range len Hlen) as Htotal.
  set (total := calculate_combinations len) in *.
  assert (H48 : 2 ^ 48 + 2 ^ 31 ≤ 2 ^ 64) by (by vm_compute).
  assert (Helem : ∀ x, x ∈ mpi_partition total world_size rank
                       ↔ 0 ≤ x < total ∧ x `mod` world_size = rank).
  { intros x. apply mpi_partition_elem; lia. }
  assert (Hsize : Z.of_nat (length (mpi_partition total world_size rank))
                  = partition_size total world_size rank).
  { apply mpi_indices_length; lia. }
  rewrite Hsize in *. unfold partition_size in *.
  set (n := (total - rank + world_size - 1) `div` world_size) in *.
  pose proof (Z.div_mod (total - rank + world_size - 1) world_size ltac:(lia)) as Hdm.
  pose proof (Z.mod_pos_bound (total - rank + world_size - 1) world_size ltac:(lia)) as Hmb.
  fold n in Hdm.
  assert (Hn : 0 ≤ n ≤ total) by (split; [apply Z.div_pos; lia|nia]).
  unfold mpi_crack. fold total.
  pose proof (mpi_crack_loop_exhausts env (MD5 t) len rank world_size total
                ltac:(by rewrite MD5_length) ltac:(lia) ltac:(lia)
                (Z.to_nat n) (S (Z.to_nat total)) rank 0
                (char_array (MAX_PASSWORD_LENGTH + 1) junk) []) as Hloop.
  rewrite Z2Nat.id in Hloop by lia.
  rewrite Hloop; clear Hloop.
  - by rewrite app_nil_l, Z.add_0_l.
  - pose proof (char_array_length (MAX_PASSWORD_LENGTH + 1) junk).
    unfold MAX_PASSWORD_LENGTH in *. lia.
  - lia.
  - lia.
  - lia.
  - lia.
  - lia.
  - intros j Hj. assert (Hin : rank + j * world_size < total) by nia.
    split; [done|]. apply Hmiss, Helem.
    split; [nia|]. rewrite Z_mod_plus_full. apply Z.mod_small. lia.
  - intros c Hc. apply Hquiet. lia.
Qed.

Lemma no_candidate_of_B (len k : Z) :
  1 < len < 256 → ¬ @matches toy_MD5 (toy_digest (str "B")) len k.
Proof.
  intros Hlen Hk. apply memcmp_zero in Hk as (_ & _ & Hk).
  cbn [MD5 toy_MD5] in Hk. unfold toy_digest in Hk. rewrite decode_length in Hk.
  cbn [take Z.to_nat MD5_DIGEST_LENGTH Pos.to_nat Pos.iter_op Nat.add] in Hk.
  injection Hk as Hk.
  rewrite N.mod_small, Z_nat_N in Hk by lia.
  change (N.of_nat (length (str "B")) `mod` 256)%N with 1%N in Hk.
  change (default "000"%byte (Byte.of_N 1)) with x01 in Hk.
  destruct (Byte.of_N (Z.to_N len)) as [b|] eqn:Hb.
  - cbn in Hk. subst b. apply Byte.to_of_N in Hb. cbn in Hb. lia.
  - pose proof (Byte.of_N_None_iff (Z.to_N len)) as Hnone. apply Hnone in Hb. lia.
Qed.

Lemma mpi_crack_exhausts_witness :
  @mpi_crack toy_MD5 silent [] (@MD5 toy_MD5 (str "B")) 2 2 3
  = Returns {| mpi_ret := 0;
               mpi_counter :=
                 Z.of_nat (length (mpi_partition (calculate_combinations 2) 3 2));
               mpi_events :=
                 progress_events silent 2 3 0
                   (Z.of_nat (length (mpi_partition (calculate_combinations 2) 3 2))) |}.
Proof.
  apply (@mpi_crack_exhausts toy_MD5 silent [] (str "B") 2 2 3).
  - unfold MAX_PASSWORD_LENGTH. lia.
  - lia.
  - lia.
  - intros j _. apply no_candidate_of_B. lia.
  - done.
Defined.

(** X13.  A termination message that a rank of [mpi_crack] sees at a
    check, the first one it sees, makes it return 0 with the counter of
    that check, before the candidate of that pass is built or compared;
    the rank sends no termination message of its own. *)
Theorem mpi_crack_cancelled `{MD5_oracle} (env : mpi_env) (junk t : list ascii)
    (len rank world_size c : Z) :
  0 ≤ len ≤ MAX_PASSWORD_LENGTH → 0 ≤ rank < world_size → world_size < 2 ^ 31 →
  0 < c → c `mod` check_interval = 0 → terminate_probe env c = true →
  (∀ c', 0 < c' < c → terminate_probe env c' = false) →
  rank + (c - 1) * world_size < calculate_combinations len →
  (∀ j, 0 ≤ j < c - 1 → ¬ matches (MD5 t) len (rank + j * world_size)) →
  mpi_crack env junk (MD5 t) len rank world_size
  = Returns {| mpi_ret := 0; mpi_counter := c;
               mpi_events := progress_events env rank world_size 0 (c - 1) |}.
Proof.
  intros Hlen Hrank HW Hc Hcheck Hstop Hquiet Hreach Hmiss.
  pose proof (keyspace_range len Hlen) as Htotal.
  set (total := calculate_combinations len) in *.
  assert (H48 : 2 ^ 48 + 2 ^ 31 ≤ 2 ^ 64) by (by vm_compute).
  assert (Hcn : c - 1 < total) by nia.
  unfold mpi_crack. fold total.
  pose proof (mpi_crack_loop_cancelled env (MD5 t) len rank world_size total
                ltac:(by rewrite MD5_length) ltac:(lia) ltac:(lia)
                (Z.to_nat (c - 1)) (S (Z.to_nat total)) rank 0
                (char_array (MAX_PASSWORD_LENGTH + 1) junk) []) as Hloop.
  rewrite Z2Nat.id in Hloop by lia.
  replace (0 + (c - 1) + 1) with c in Hloop by lia.
  rewrite Hloop; clear Hloop; try done; try lia.
  - pose proof (char_array_length (MAX_PASSWORD_LENGTH + 1) junk).
    unfold MAX_PASSWORD_LENGTH in *. lia.
  - intros c' Hc'. apply Hquiet. lia.
Qed.

Lemma mpi_crack_cancelled_witness :
  @mpi_crack toy_MD5
    {| terminate_probe := λ c, bool_decide (c = 50000); progress_mail := λ _, ∅ |}
    [] (@MD5 toy_MD5 (str "B")) 4 1 2
  = Returns {| mpi_ret := 0; mpi_counter := 50000;
               mpi_events :=
                 progress_events
                   {| terminate_probe := λ c, bool_decide (c = 50000);
                      progress_mail := λ _, ∅ |} 1 2 0 (50000 - 1) |}.
Proof.
  apply (@mpi_crack_cancelled toy_MD5 _ [] (str "B") 4 1 2 50000).
  - unfold MAX_PASSWORD_LENGTH. lia.
  - lia.
  - lia.
  - lia.
  - reflexivity.
  - reflexivity.
  - intros c' Hc'. cbn. apply bool_decide_eq_false. lia.
  - by vm_compute.
  - intros j _. apply no_candidate_of_B. lia.
Defined.

Lemma mpi_crack_loop_unchecked `{MD5_oracle} (env env' : mpi_env) (target_hash : list byte)
    (len rank world_size total : Z) (fuel : nat) :
  1 ≤ world_size → total + world_size ≤ 2 ^ 64 →
  ∀ (i counter : Z) (guess : list ascii) (events : list mpi_event),
    0 ≤ i → 0 ≤ counter →
    (counter + 1) * world_size + (total - i) ≤ check_interval * world_size →
    mpi_crack_loop fuel env target_hash len rank world_size total i counter guess events
    = mpi_crack_loop fuel env' target_hash len rank world_size total i counter guess events.
Proof.
  intros HW Hfit. unfold check_interval.
  induction fuel as [|fuel IH]; intros i counter guess events Hi Hc Hinv; [done|].
  cbn [mpi_crack_loop]. case_bool_decide as Hlt; [|done].
  assert (Hsmall : 0 < counter + 1 < 50000) by nia.
  assert (Hw : wrap64 (counter + 1) = counter + 1) by (apply Z.mod_small; lia).
  rewrite !Hw. unfold check_interval.
  rewrite (bool_decide_false ((counter + 1) `mod` 50000 = 0))
    by (rewrite Z.mod_small; lia).
  cbn [andb]. rewrite andb_false_r.
  destruct (number_to_password i guess len) as [guess'|]; [|done].
  cbn [defined mbind outcome_bind].
  destruct (generate_hash guess') as [guess_hash|]; [|done].
  cbn [defined mbind outcome_bind].
  destruct (memcmp guess_hash target_hash (Z.to_nat MD5_DIGEST_LENGTH)) as [d|]; [|done].
  cbn [defined mbind outcome_bind].
  case_bool_decide; [done|].
  assert (Hwi : wrap64 (i + world_size) = i + world_size) by (apply Z.mod_small; lia).
  rewrite Hwi. apply IH; lia.
Qed.

Lemma mpi_crack_loop_unreported `{MD5_oracle} (env : mpi_env) (target_hash : list byte)
    (len rank world_size total : Z) (fuel : nat) :
  1 ≤ world_size → total + world_size ≤ 2 ^ 64 →
  ∀ (i counter : Z) (guess : list ascii) (events : list mpi_event) (r : mpi_report),
    0 ≤ i → 0 ≤ counter →
    (counter + 1) * world_size + (total - i) ≤ check_interval * world_size →
    Forall (λ e, is_report e = false) events →
    mpi_crack_loop fuel env target_hash len rank world_size total i counter guess events
    = Returns r →
    Forall (λ e, is_report e = false) (mpi_events r).
Proof.
  intros HW Hfit. unfold check_interval.
  induction fuel as [|fuel IH]; intros i counter guess events r Hi Hc Hinv Hevents; [done|].
  cbn [mpi_crack_loop]. case_bool_decide as Hlt; [|by intros [= <-]].
  assert (Hsmall : 0 < counter + 1 < 50000) by nia.
  assert (Hw : wrap64 (counter + 1) = counter + 1) by (apply Z.mod_small; lia).
  rewrite !Hw. unfold check_interval.
  rewrite (bool_decide_false ((counter + 1) `mod` 50000 = 0))
    by (rewrite Z.mod_small; lia).
  cbn [andb]. rewrite andb_false_r.
  destruct (number_to_password i guess len) as [guess'|]; [|done].
  cbn [defined mbind outcome_bind].
  destruct (generate_hash guess') as [guess_hash|]; [|done].
  cbn [defined mbind outcome_bind].
  destruct (memcmp guess_hash target_hash (Z.to_nat MD5_DIGEST_LENGTH)) as [d|]; [|done].
  cbn [defined mbind outcome_bind].
  case_bool_decide.
  - destruct (cstring guess') as [printed|]; [|done].
    cbn [defined mbind outcome_bind]. intros [= <-]. cbn [mpi_events].
    apply Forall_app. split; [done|]. apply Forall_cons. split; [done|].
    rewrite send_terminate_loop_spec. apply Forall_fmap, Forall_true. done.
  - assert (Hwi : wrap64 (i + world_size) = i + world_size) by (apply Z.mod_small; lia).
    rewrite Hwi. apply IH; [lia..|done].
Qed.

(** X14.  A rank of [mpi_crack] whose stride has fewer than
    [check_interval] indices never probes for a termination message and
    never reports progress: what it returns, counts, sends and prints is
    the same on every network, and holds no progress report.  With a
    keyspace of at most [(check_interval - 1) * world_size] candidates
    this is so for every rank, and a rank goes through its whole stride
    even after another rank has found the password. *)
Theorem mpi_crack_never_checks `{MD5_oracle} (env env' : mpi_env) (junk : list ascii)
    (target_hash : list byte) (len rank world_size : Z) :
  1 ≤ world_size < 2 ^ 31 → 0 ≤ rank →
  calculate_combinations len ≤ (check_interval - 1) * world_size →
  mpi_crack env junk target_hash len rank world_size
  = mpi_crack env' junk target_hash len rank world_size
  ∧ ∀ r, mpi_crack env junk target_hash len rank world_size = Returns r →
         Forall (λ e, is_report e = false) (mpi_events r).
Proof.
  intros HW Hrank Hshort. unfold mpi_crack.
  assert (H31 : 2 ^ 31 = 2147483648) by reflexivity.
  assert (H64 : 2 ^ 64 = 18446744073709551616) by reflexivity.
  unfold check_interval in *. split.
  - apply mpi_crack_loop_unchecked; unfold check_interval; lia.
  - intros r. apply mpi_crack_loop_unreported; unfold check_interval; (lia || done).
Qed.

Lemma mpi_crack_never_checks_witness :
  @mpi_crack toy_MD5
    {| terminate_probe := λ _, true; progress_mail := λ _, ∅ |}
    [] (toy_digest (str "zz")) 2 0 1
  = @mpi_crack toy_MD5 silent [] (toy_digest (str "zz")) 2 0 1
  ∧ ∀ r, @mpi_crack toy_MD5
           {| terminate_probe := λ _, true; progress_mail := λ _, ∅ |}
           [] (toy_digest (str "zz")) 2 0 1 = Returns r →
         Forall (λ e, is_report e = false) (mpi_events r).
Proof.
  apply (@mpi_crack_never_checks toy_MD5); [lia|lia|by vm_compute].
Defined.

(** Rank 1 of 4 on the three-letter keyspace, with a target that every
    word beginning with a matches. *)
Example mpi_crack_rank_1_of_4 :
  @mpi_crack toy_MD5 silent [] (toy_digest (str "aab")) 3 1 4
  = Returns {| mpi_ret := 1; mpi_counter := 1;
               mpi_events := [PrintFound (str "aab"); SendTerminate 0; SendTerminate 2;
                              SendTerminate 3] |}.
Proof. by vm_compute. Qed.

(** Rank 2 of 3 on the one-letter keyspace, without a match. *)
Example mpi_crack_rank_2_of_3 :
  @mpi_crack toy_MD5 silent [] (toy_digest (str "B")) 1 2 3
  = Returns {| mpi_ret := 0; mpi_counter := 8; mpi_events := [] |}.
Proof. by vm_compute. Qed.

(** * Entry points on the words they accept *)

Lemma charset_not_NUL (word : list ascii) :
  Forall (λ ch, ch ∈ CHARSET) word → Forall (λ ch, ch ≠ NUL) word.
Proof.
  intros Hword. eapply Forall_impl; [exact Hword|]. intros ch Hin ->. revert Hin.
  apply (bool_decide_eq_false_1 (NUL ∈ CHARSET)). by vm_compute.
Qed.

Section Accept.
Context `{MD5_oracle}.
Variables (junk junk' word : list ascii).
Hypothesis word_no_NUL : Forall (λ ch, ch ≠ NUL) word.
Hypothesis word_fits : Z.of_nat (length word) ≤ MAX_PASSWORD_LENGTH.

Lemma validation_passes :
  Forall (λ ch, ch ∈ CHARSET) word →
  openmp_main junk word = accepted junk word
  ∧ (1 ≤ Z.of_nat (length word) → cuda_main junk word = accepted junk word)
  ∧ serial_main junk junk' word
    = (_ ← crack_password_serial junk' (typed junk word) (Z.of_nat (length word));
       accepted junk word).
Proof.
  intros Hlow. unfold serial_main, openmp_main, cuda_main, accepted, typed.
  rewrite scanf_word_fits by done. cbn [defined mbind outcome_bind].
  rewrite strlen_word by done. cbn [defined mbind outcome_bind].
  rewrite bool_decide_false by lia. rewrite Nat2Z.id.
  pose proof (only_lowercase_spec [] word) as Hcheck.
  cbn [length app] in Hcheck. change (Z.of_nat 0) with 0 in Hcheck.
  rewrite Hcheck, forallb_lowercase, (bool_decide_true _ Hlow).
  cbn [defined mbind outcome_bind negb].
  split; [done|]. split; [|done].
  intros Hne. by rewrite bool_decide_false by lia.
Qed.
End Accept.

(** X15.  [main] of the serial program followed through its call of
    [crack_password_serial]: for every word of at most nine lowercase
    letters the search returns 1 with a candidate whose fingerprint is
    that of the word, after at most as many attempts as the index of the
    word plus one, and [main] returns 0; for every word of ten lowercase
    letters [main] passes the word on and the search overruns its
    [guess] array. *)
Theorem serial_main_search `{MD5_oracle} (junk junk' word : list ascii) :
  Forall (λ ch, ch ∈ CHARSET) word →
  Z.of_nat (length word) ≤ MAX_PASSWORD_LENGTH →
  (Z.of_nat (length word) < MAX_PASSWORD_LENGTH →
     serial_main junk junk' word = accepted junk word
     ∧ ∃ k, 0 ≤ k ≤ encode word
            ∧ MD5 (decode k (length word)) = MD5 word
            ∧ crack_password_serial junk' (typed junk word) (Z.of_nat (length word))
              = Returns {| ret := 1; attempts := k + 1;
                           password := Some (decode k (length word)) |})
  ∧ (Z.of_nat (length word) = MAX_PASSWORD_LENGTH →
     serial_main junk junk' word = Undefined).
Proof.
  intros Hlow Hfit.
  pose proof (charset_not_NUL word Hlow) as Hnul.
  destruct (validation_passes junk junk' word Hnul Hfit Hlow) as (_ & _ & Hmain).
  assert (Hstr : cstring (typed junk word) = Some word) by (by apply cstring_app).
  split.
  - intros Hshort.
    destruct (decode_encode word Hlow) as [Hdec Hrange].
    assert (Hhit : matches (MD5 word) (Z.of_nat (length word)) (encode word)).
    { apply matches_eq; [by rewrite MD5_length|]. by rewrite Nat2Z.id, Hdec. }
    destruct (least_index (matches (MD5 word) (Z.of_nat (length word))) (encode word + 1))
      as (k & Hk & Hkhit & Hleast).
    { exists (encode word). split; [lia|done]. }
    pose proof (crack_password_serial_first_match junk' (typed junk word) word
                  (Z.of_nat (length word)) Hstr k ltac:(lia) ltac:(lia) Hkhit Hleast)
      as Hsearch.
    rewrite Nat2Z.id in Hsearch.
    split.
    + rewrite Hmain, Hsearch. done.
    + exists k. split; [lia|]. split; [|done].
      apply matches_eq in Hkhit; [|by rewrite MD5_length]. by rewrite Nat2Z.id in Hkhit.
  - intros Hmax. rewrite Hmain, Hmax.
    by rewrite crack_password_serial_overrun.
Qed.

Lemma lowercase_cab : Forall (λ ch, ch ∈ CHARSET) (str "cab").
Proof.
  apply Forall_forall. intros ch Hch.
  apply (bool_decide_eq_true_1 (ch ∈ CHARSET)).
  cbn in Hch. set_unfold in Hch. destruct Hch as [-> | [-> | [-> | []]]]; by vm_compute.
Qed.

Lemma serial_main_search_witness :
  @serial_main toy_MD5 [] [] (str "cab") = accepted [] (str "cab")
  ∧ ∃ k, 0 ≤ k ≤ encode (str "cab")
         ∧ @MD5 toy_MD5 (decode k (length (str "cab"))) = @MD5 toy_MD5 (str "cab")
         ∧ @crack_password_serial toy_MD5 [] (typed [] (str "cab"))
             (Z.of_nat (length (str "cab")))
           = Returns {| ret := 1; attempts := k + 1;
                        password := Some (decode k (length (str "cab"))) |}.
Proof.
  destruct (@serial_main_search toy_MD5 [] [] (str "cab") lowercase_cab ltac:(by vm_compute))
    as [Hshort _].
  apply Hshort. by vm_compute.
Defined.

(** X16.  The OpenMP and CUDA entry points go on to the search exactly
    for the words of one to ten lowercase letters, with the word, its
    terminator and its length as arguments; a word of more than ten
    characters overruns [password] in every entry point. *)
Theorem entry_points_accept (junk word : list ascii) :
  Forall (λ ch, ch ≠ NUL) word →
  1 ≤ Z.of_nat (length word) →
  (Z.of_nat (length word) ≤ MAX_PASSWORD_LENGTH →
     (openmp_main junk word = accepted junk word ↔ Forall (λ ch, ch ∈ CHARSET) word)
     ∧ (cuda_main junk word = accepted junk word ↔ Forall (λ ch, ch ∈ CHARSET) word)
     ∧ mpi_main junk word = accepted junk word)
  ∧ (MAX_PASSWORD_LENGTH < Z.of_nat (length word) →
     openmp_main junk word = Undefined ∧ cuda_main junk word = Undefined
     ∧ mpi_main junk word = Undefined).
Proof.
  intros Hnul Hne. split.
  - intros Hfit.
    assert (Hmpi : mpi_main junk word = accepted junk word).
    { unfold mpi_main, accepted, typed.
      rewrite scanf_word_fits by done. cbn [defined mbind outcome_bind].
      by rewrite strlen_word by done. }
    destruct (decide (Forall (λ ch, ch ∈ CHARSET) word)) as [Hlow|Hbad].
    + destruct (@validation_passes toy_MD5 junk [] word Hnul Hfit Hlow) as (Ho & Hc & _).
      rewrite Ho, Hc by done. done.
    + destruct (@validating_mains_reject toy_MD5 junk [] word Hnul Hfit Hbad)
        as (_ & Ho & Hc).
      rewrite Ho, Hc. unfold rejected, accepted.
      split; [|split; [|done]]; (split; [intros [=]|done]).
  - intros Hlong.
    destruct (@mains_overrun toy_MD5 junk [] word Hlong) as (_ & Ho & Hc & Hm). done.
Qed.

Lemma entry_points_accept_witness :
  (openmp_main [] (str "cab") = accepted [] (str "cab")
   ↔ Forall (λ ch, ch ∈ CHARSET) (str "cab"))
  ∧ (cuda_main [] (str "cab") = accepted [] (str "cab")
     ↔ Forall (λ ch, ch ∈ CHARSET) (str "cab"))
  ∧ mpi_main [] (str "cab") = accepted [] (str "cab").
Proof.
  destruct (entry_points_accept [] (str "cab")) as [Hfits _].
  - repeat constructor; done.
  - by vm_compute.
  - apply Hfits. by vm_compute.
Defined.

(** * The comparison of the kernel and the comparison of the hosts *)

Lemma compute_target_hash_loop_inj (d1 d2 : list byte) (ws : list Z) :
  length d1 = 16%nat → length d2 = 16%nat →
  compute_target_hash_loop 4 0 d1 = Some ws →
  compute_target_hash_loop 4 0 d2 = Some ws →
  d1 = d2.
Proof.
  intros H1 H2 Hw1 Hw2.
  destruct (compute_target_hash_loop_spec 4 0 d1) as (ws1 & Hws1 & _ & Hb1); [lia|].
  destruct (compute_target_hash_loop_spec 4 0 d2) as (ws2 & Hws2 & _ & Hb2); [lia|].
  change (Z.of_nat 0) with 0 in Hws1, Hws2.
  assert (ws1 = ws) as -> by congruence. assert (ws2 = ws) as -> by congruence.
  apply list_eq. intros j.
  destruct (decide (j < 16)%nat) as [Hj|Hj];
    [|by rewrite !lookup_ge_None_2 by lia].
  destruct (Hb1 (j / 4)%nat (j mod 4)%nat) as (word & b & Hword & Hb & Hval).
  { apply Nat.Div0.div_lt_upper_bound. lia. }
  { apply Nat.mod_upper_bound. lia. }
  destruct (Hb2 (j / 4)%nat (j mod 4)%nat) as (word' & b' & Hword' & Hb' & Hval').
  { apply Nat.Div0.div_lt_upper_bound. lia. }
  { apply Nat.mod_upper_bound. lia. }
  replace (4 * (0 + j / 4) + j mod 4)%nat with j in Hb, Hb'
    by (rewrite Nat.add_0_l; apply Nat.div_mod_eq).
  assert (word' = word) as -> by congruence.
  rewrite Hb, Hb'. f_equal. apply byte_value_inj. congruence.
Qed.

(** X17.  The test of the kernel on two fingerprints packed by
    [compute_target_hash], four word comparisons, succeeds exactly when
    [memcmp] of the hosts finds the sixteen bytes equal: the packing loses
    nothing of a fingerprint. *)
Theorem packed_comparison `{MD5_oracle} (password1 password2 s1 s2 : list ascii) :
  cstring password1 = Some s1 → cstring password2 = Some s2 →
  ∃ ws1 ws2,
    compute_target_hash password1 = Some ws1
    ∧ compute_target_hash password2 = Some ws2
    ∧ (hash_words_equal 4 0 ws1 ws2 = Some true
       ↔ memcmp (MD5 s1) (MD5 s2) (Z.to_nat MD5_DIGEST_LENGTH) = Some 0)
    ∧ (ws1 = ws2 ↔ MD5 s1 = MD5 s2).
Proof.
  intros Hs1 Hs2. unfold compute_target_hash. rewrite Hs1, Hs2. cbn [mbind option_bind].
  pose proof (MD5_length s1) as Hl1. pose proof (MD5_length s2) as Hl2.
  unfold MD5_DIGEST_LENGTH in *.
  destruct (compute_target_hash_loop_spec 4 0 (MD5 s1)) as (ws1 & Hws1 & Hlen1 & _); [lia|].
  destruct (compute_target_hash_loop_spec 4 0 (MD5 s2)) as (ws2 & Hws2 & Hlen2 & _); [lia|].
  change (Z.of_nat 0) with 0 in Hws1, Hws2.
  exists ws1, ws2. split; [done|]. split; [done|].
  assert (Hiff : ws1 = ws2 ↔ MD5 s1 = MD5 s2).
  { split.
    - intros ->. apply (compute_target_hash_loop_inj _ _ ws2); [lia|lia|done|done].
    - intros Heq. rewrite Heq in Hws1. congruence. }
  split; [|done].
  rewrite hash_words_equal_spec by done.
  rewrite memcmp_zero, !firstn_all2 by lia.
  rewrite <- Hiff. split.
  - intros [= Hb]. apply bool_decide_eq_true in Hb. repeat split; [lia..|done].
  - intros (_ & _ & ->). by rewrite bool_decide_true.
Qed.

Lemma packed_comparison_witness :
  ∃ ws1 ws2,
    @compute_target_hash toy_MD5 (str "abc" ++ [NUL]) = Some ws1
    ∧ @compute_target_hash toy_MD5 (str "abd" ++ [NUL]) = Some ws2
    ∧ (hash_words_equal 4 0 ws1 ws2 = Some true
       ↔ memcmp (toy_digest (str "abc")) (toy_digest (str "abd"))
           (Z.to_nat MD5_DIGEST_LENGTH) = Some 0)
    ∧ (ws1 = ws2 ↔ toy_digest (str "abc") = toy_digest (str "abd")).
Proof.
  apply (@packed_comparison toy_MD5 (str "abc" ++ [NUL]) (str "abd" ++ [NUL])
           (str "abc") (str "abd")); reflexivity.
Defined.



(** X19.  The CUDA path agrees with the hosts when the device digest
    does: if [md5_cuda] of the block of each candidate a thread meets up to
    index [k] is the host fingerprint of that candidate, packed as
    [compute_target_hash] packs it, and [k] is the first index of the
    thread's block that the hosts' [memcmp] finds equal to the target, then
    the thread, run with the flag unset against the target
    [compute_target_hash] produces, records exactly [k] and its candidate. *)
Theorem kernel_thread_agrees `{MD5_oracle} `{MD5_device} (junk : list ascii)
    (junk_words : list Z) (target_password t : list ascii) (per_thread len : Z)
    (mem : device_memory) (total thread k : Z) :
  cstring target_password = Some t →
  0 ≤ len ≤ MAX_PASSWORD_LENGTH →
  len < Z.of_nat (length (result_password mem)) →
  found_flag mem = 0 →
  0 ≤ thread → 0 ≤ per_thread → (thread + 1) * per_thread ≤ 2 ^ 64 →
  k ∈ kernel_indices 0 per_thread total thread →
  (∀ j, j ∈ kernel_indices 0 per_thread total thread → j ≤ k →
        Some (md5_cuda (candidate_block len j))
        = compute_target_hash_loop 4 0 (MD5 (decode j (Z.to_nat len)))) →
  matches (MD5 t) len k →
  (∀ j, j ∈ kernel_indices 0 per_thread total thread → j < k → ¬ matches (MD5 t) len j) →
  ∃ target_hash,
    compute_target_hash target_password = Some target_hash
    ∧ crack_password_kernel junk junk_words 0 per_thread len target_hash mem total thread
      = Some {| found_flag := 1;
                result_password :=
                  decode k (Z.to_nat len) ++ NUL
                  :: drop (S (Z.to_nat len)) (result_password mem);
                found_at_index := k |}.
Proof.
  intros Ht Hlen Hroom Hflag Hthread Hp Hfit Hk Hdevice Hhit Hleast.
  unfold compute_target_hash. rewrite Ht. cbn [mbind option_bind].
  pose proof (MD5_length t) as Hlt. unfold MD5_DIGEST_LENGTH in Hlt.
  destruct (compute_target_hash_loop_spec 4 0 (MD5 t)) as (target & Htarget & Hlength & _);
    [lia|].
  change (Z.of_nat 0) with 0 in Htarget.
  exists target. split; [done|].
  assert (Hsame : ∀ j, j ∈ kernel_indices 0 per_thread total thread → j ≤ k →
            (device_matches target len j ↔ matches (MD5 t) len j)).
  { intros j Hj Hjk. specialize (Hdevice j Hj Hjk).
    rewrite matches_eq by (by rewrite MD5_length).
    pose proof (MD5_length (decode j (Z.to_nat len))) as Hlj.
    unfold MD5_DIGEST_LENGTH in Hlj. unfold device_matches. split.
    - intros Heq. rewrite Heq in Hdevice.
      apply (compute_target_hash_loop_inj _ _ target); [lia|lia|done|done].
    - intros Heq. rewrite Heq, Htarget in Hdevice. congruence. }
  pose proof Hk as Hblock. apply kernel_indices_elem in Hblock as [Hblock Htotal]; [|done..].
  change (Some ?m) with (Some (recorded mem len k)).
  apply kernel_thread_first_match; try done.
  - apply Hsame; [done|lia|done].
  - intros j Hj Hmatch.
    assert (Hin : j ∈ kernel_indices 0 per_thread total thread).
    { apply kernel_indices_elem; [done..|]. lia. }
    apply (Hleast j Hin ltac:(lia)). apply Hsame; [done|lia|done].
Qed.

Lemma kernel_thread_agrees_witness :
  ∃ target_hash,
    @compute_target_hash toy_MD5 (str "e" ++ [NUL]) = Some target_hash
    ∧ @crack_password_kernel toy_host_device [] [] 0 3 1 target_hash
        {| found_flag := 0; result_password := replicate 11 "x"%char; found_at_index := 0 |}
        26 1
      = Some {| found_flag := 1;
                result_password :=
                  decode 4 (Z.to_nat 1) ++ NUL
                  :: drop (S (Z.to_nat 1)) (replicate 11 "x"%char);
                found_at_index := 4 |}.
Proof.
  apply (@kernel_thread_agrees toy_MD5 toy_host_device [] [] (str "e" ++ [NUL]) (str "e")).
  - reflexivity.
  - unfold MAX_PASSWORD_LENGTH. lia.
  - simpl. lia.
  - reflexivity.
  - lia.
  - lia.
  - lia.
  - apply kernel_indices_elem; lia.
  - intros j Hj Hle. apply kernel_indices_elem in Hj; [|lia..].
    assert (j = 3 ∨ j = 4) as [-> | ->] by lia; by vm_compute.
  - by vm_compute.
  - intros j Hj Hlt. apply kernel_indices_elem in Hj; [|lia..].
    assert (j = 3) as -> by lia. by vm_compute.
Defined.
